(** * Instagram clone API: the in-memory stores and their routers

    A shallow embedding of [storage.py], [models.py] and the routers
    ([users.py], [posts.py], [follows.py], [likes.py], [comments.py],
    [feed.py], [explore.py]), with the index invariants of the service.

    Conventions of the embedding
    - A Python [str] is a [string]; one [ascii] stands for one code point
      below 256, and [str.lower], [str.strip] and the regex class [\w] are
      written out for exactly those code points.
    - The dicts that the code indexes, or scans only to ask whether some
      entry exists ([users], [follows], [followers], [likes], [comments],
      [post_comments]), are [gmap]s.  The two dicts that the code iterates
      before a stable sort ([posts], [hashtag_posts]) keep Python's
      insertion order and are association lists ([odict]).
    - A Python [set] of identifiers is a [gset string].
    - [uuid.uuid4()] and [datetime.utcnow().isoformat()] are inputs of the
      handlers that call them.
    - A handler is a function [State -> result _ * State]; the state on the
      right is the store at the moment the handler returns or raises. *)

From Stdlib Require Import NArith Ascii String Sorted Permutation.
From stdpp Require Import base decidable option list sorting gmap strings.

Local Open Scope string_scope.
#[local] Set Warnings "-clear-no-such-hyp".

(** ** Text: [str.lower], [str.strip], [re.findall(r"#(\w+)")] *)

Module Text.

Definition between (lo hi n : N) : bool := ((lo <=? n) && (n <=? hi))%N.

(** [str.lower] on one code point below 256: A-Z and the Latin-1 capitals
    (all of 192..222 but the multiplication sign 215) move up by 32.  Below
    256 [str.lower] works character by character; from U+0100 on it need not
    (U+0130 becomes two code points), and such strings are outside this
    embedding. *)
Definition lower_char (c : ascii) : ascii :=
  let n := N_of_ascii c in
  if between 65 90 n || between 192 214 n || between 216 222 n
  then ascii_of_N (n + 32) else c.

Fixpoint lower (s : string) : string :=
  match s with
  | EmptyString => EmptyString
  | String c s' => String (lower_char c) (lower s')
  end.

(** The regex class [\w] of a [str] pattern: [str.isalnum] or underscore. *)
Definition is_word_char (c : ascii) : bool :=
  let n := N_of_ascii c in
  between 48 57 n || between 65 90 n || (n =? 95)%N || between 97 122 n
  || (n =? 170)%N || between 178 179 n || (n =? 181)%N
  || between 185 186 n || between 188 190 n
  || between 192 214 n || between 216 246 n || between 248 255 n.

(** The characters [str.strip()] removes. *)
Definition is_space (c : ascii) : bool :=
  let n := N_of_ascii c in
  between 9 13 n || between 28 32 n || (n =? 133)%N || (n =? 160)%N.

(** [not v.strip()]: nothing but white space. *)
Fixpoint is_blank (s : string) : bool :=
  match s with
  | EmptyString => true
  | String c s' => is_space c && is_blank s'
  end.

(** The longest prefix of word characters: what [\w+] takes, greedily. *)
Fixpoint word_prefix (s : string) : string :=
  match s with
  | EmptyString => EmptyString
  | String c s' => if is_word_char c then String c (word_prefix s') else EmptyString
  end.

(** [_HASHTAG_RE.findall(caption)] for [_HASHTAG_RE = re.compile(r"#(\w+)")].
    After a match the regex resumes behind the word it took; the characters
    of that word are not [#], so scanning through them finds nothing and
    the recursion may step one character at a time. *)
Fixpoint findall (s : string) : list string :=
  match s with
  | EmptyString => []
  | String c s' =>
      if Ascii.eqb c "#"%char then
        match word_prefix s' with
        | EmptyString => findall s'
        | w => w :: findall s'
        end
      else findall s'
  end.

End Text.

(** ** Insertion-ordered dicts ([posts], [hashtag_posts]) *)

Module OrderedDict.
Section ordered_dict.
Context {V : Type}.

Local Abbreviation t := (list (string * V)).

(** [d.get(k)] *)
Fixpoint get (k : string) (d : t) : option V :=
  match d with
  | [] => None
  | (k', v) :: d' => if decide (k' = k) then Some v else get k d'
  end.

(** [d[k] = v]: an existing key keeps its position, a new one goes last. *)
Fixpoint set (k : string) (v : V) (d : t) : t :=
  match d with
  | [] => [(k, v)]
  | (k', v') :: d' =>
      if decide (k' = k) then (k, v) :: d' else (k', v') :: set k v d'
  end.

(** [d.setdefault(k, v)], for the store it leaves behind. *)
Definition setdefault (k : string) (v : V) (d : t) : t :=
  match get k d with Some _ => d | None => set k v d end.

(** [del d[k]] for a key that is there; [d.pop(k, None)] in general. *)
Definition del (k : string) (d : t) : t :=
  filter (λ kv, kv.1 ≠ k) d.

(** The value under [k] is updated in place ([d[k].add(x)] and the like);
    nothing happens when [k] is absent. *)
Fixpoint adjust (f : V → V) (k : string) (d : t) : t :=
  match d with
  | [] => []
  | (k', v) :: d' =>
      if decide (k' = k) then (k', f v) :: d' else (k', v) :: adjust f k d'
  end.

Definition keys (d : t) : list string := d.*1.
Definition values (d : t) : list V := d.*2.
Definition items (d : t) : list (string * V) := d.

(** One entry per key: what makes an association list a dict. *)
Definition wf (d : t) : Prop := NoDup (keys d).

End ordered_dict.
End OrderedDict.

Abbreviation odict V := (list (string * V)).

(** ** Sorting: [list.sort(key=..., reverse=True)]

  Python's sort is stable, also with [reverse=True]: elements with equal
  keys keep their order.  Every stable sort returns the same list; it is
  written here as a stable insertion sort. *)

Section sort_desc.
Context {A K : Type} (leb : K → K → bool) (key : A → K).

Fixpoint insert_desc (x : A) (l : list A) : list A :=
  match l with
  | [] => [x]
  | y :: l' =>
      if leb (key y) (key x) then x :: y :: l' else y :: insert_desc x l'
  end.

Definition sort_desc (l : list A) : list A := foldr insert_desc [] l.

(** [x] may stand before [y] in a list sorted with [reverse=True]. *)
Definition desc (x y : A) : Prop := leb (key y) (key x) = true.

End sort_desc.

(** ** models.py: request and response models, and the stored records *)

Inductive MediaType := image | video.

(** The dict [create_user] stores under [store.users[uid]]. *)
Module User.
Record t := mk
  { id : string; username : string; display_name : string; bio : string;
    profile_pic_url : string; created_at : string }.
End User.

Module UserCreate.
Record t := mk
  { username : string; display_name : string; bio : string;
    profile_pic_url : string }.
(** [Field(..., min_length=1)] on [username] and [display_name]. *)
Definition valid (p : t) : bool :=
  negb (String.eqb (username p) "") && negb (String.eqb (display_name p) "").
End UserCreate.

Module UserUpdate.
Record t := mk
  { display_name : option string; bio : option string;
    profile_pic_url : option string }.
End UserUpdate.

Module UserOut.
Record t := mk
  { id : string; username : string; display_name : string; bio : string;
    profile_pic_url : string; created_at : string;
    follower_count : nat; following_count : nat; post_count : nat }.
End UserOut.

(** The dict [create_post] stores under [store.posts[pid]]. *)
Module Post.
Record t := mk
  { id : string; user_id : string; media_url : string; media_type : MediaType;
    caption : string; hashtags : list string; created_at : string }.
End Post.

Module PostCreate.
Record t := mk
  { user_id : string; media_url : string; media_type : MediaType;
    caption : string }.
(** [Field(..., min_length=1)] on [media_url]. *)
Definition valid (p : t) : bool := negb (String.eqb (media_url p) "").
End PostCreate.

Module PostOut.
Record t := mk
  { id : string; user_id : string; media_url : string; media_type : MediaType;
    caption : string; hashtags : list string; created_at : string;
    like_count : nat; comment_count : nat }.
End PostOut.

(** The dict [add_comment] stores under [store.comments[cid]]. *)
Module Comment.
Record t := mk
  { id : string; user_id : string; post_id : string; text : string;
    created_at : string }.
End Comment.

Module CommentCreate.
Record t := mk { user_id : string; text : string }.
(** The validator [text_must_not_be_blank]. *)
Definition valid (p : t) : bool := negb (Text.is_blank (text p)).
End CommentCreate.

Module CommentOut.
Record t := mk
  { id : string; user_id : string; post_id : string; text : string;
    created_at : string }.
End CommentOut.

Module LikeAction.
Record t := mk { user_id : string }.
End LikeAction.

Module HashtagCount.
Record t := mk { tag : string; count : nat }.
End HashtagCount.

(** ** storage.py *)

Record State := mkState
  { users : gmap string User.t;
    posts : odict Post.t;
    follows : gmap string (gset string);
    followers : gmap string (gset string);
    likes : gmap string (gset string);
    comments : gmap string Comment.t;
    post_comments : gmap string (list string);
    hashtag_posts : odict (gset string) }.

(** The store after [reset_storage()], and at import time. *)
Definition reset_storage : State :=
  mkState ∅ [] ∅ ∅ ∅ ∅ ∅ [].

Definition with_users (v : gmap string User.t) (s : State) : State :=
  mkState v (posts s) (follows s) (followers s) (likes s) (comments s)
    (post_comments s) (hashtag_posts s).
Definition with_posts (v : odict Post.t) (s : State) : State :=
  mkState (users s) v (follows s) (followers s) (likes s) (comments s)
    (post_comments s) (hashtag_posts s).
Definition with_follows (v : gmap string (gset string)) (s : State) : State :=
  mkState (users s) (posts s) v (followers s) (likes s) (comments s)
    (post_comments s) (hashtag_posts s).
Definition with_followers (v : gmap string (gset string)) (s : State) : State :=
  mkState (users s) (posts s) (follows s) v (likes s) (comments s)
    (post_comments s) (hashtag_posts s).
Definition with_likes (v : gmap string (gset string)) (s : State) : State :=
  mkState (users s) (posts s) (follows s) (followers s) v (comments s)
    (post_comments s) (hashtag_posts s).
Definition with_comments (v : gmap string Comment.t) (s : State) : State :=
  mkState (users s) (posts s) (follows s) (followers s) (likes s) v
    (post_comments s) (hashtag_posts s).
Definition with_post_comments (v : gmap string (list string)) (s : State) : State :=
  mkState (users s) (posts s) (follows s) (followers s) (likes s) (comments s)
    v (hashtag_posts s).
Definition with_hashtag_posts (v : odict (gset string)) (s : State) : State :=
  mkState (users s) (posts s) (follows s) (followers s) (likes s) (comments s)
    (post_comments s) v.

(** ** What a handler gives back *)

Inductive result (A : Type) :=
| Ok (a : A)
| HTTPException (status_code : nat) (detail : string)
| RequestValidationError.
Arguments Ok {A} a.
Arguments HTTPException {A} status_code detail.
Arguments RequestValidationError {A}.

Definition is_ok {A} (r : result A) : bool :=
  match r with Ok _ => true | _ => false end.

(** [d.setdefault(k, v)] on a [gmap], for the store it leaves behind. *)
Definition gsetdefault {V} (k : string) (v : V) (d : gmap string V) : gmap string V :=
  match d !! k with Some _ => d | None => <[k := v]> d end.

(** [store.follows.get(uid, set())] and its siblings. *)
Definition following_of (s : State) (uid : string) : gset string :=
  default ∅ (follows s !! uid).
Definition followers_of (s : State) (uid : string) : gset string :=
  default ∅ (followers s !! uid).
Definition likers_of (s : State) (pid : string) : gset string :=
  default ∅ (likes s !! pid).
Definition comment_ids_of (s : State) (pid : string) : list string :=
  default [] (post_comments s !! pid).
Definition posts_for_tag (s : State) (tag : string) : gset string :=
  default ∅ (OrderedDict.get tag (hashtag_posts s)).

(** ** routers/users.py *)

Definition _build_user_out (user : User.t) (s : State) : UserOut.t :=
  let uid := User.id user in
  UserOut.mk uid (User.username user) (User.display_name user) (User.bio user)
    (User.profile_pic_url user) (User.created_at user)
    (size (followers_of s uid))
    (size (following_of s uid))
    (length (filter (λ p, Post.user_id p = uid) (OrderedDict.values (posts s)))).

Definition create_user (uid now : string) (payload : UserCreate.t) (s : State)
  : result UserOut.t * State :=
  if decide (map_Exists (λ _ u, User.username u = UserCreate.username payload) (users s))
  then (HTTPException 409 "Username already taken", s)
  else
    let user :=
      User.mk uid (UserCreate.username payload) (UserCreate.display_name payload)
        (UserCreate.bio payload) (UserCreate.profile_pic_url payload) now in
    let s1 := with_users (<[uid := user]> (users s)) s in
    let s2 := with_follows (gsetdefault uid ∅ (follows s1)) s1 in
    let s3 := with_followers (gsetdefault uid ∅ (followers s2)) s2 in
    (Ok (_build_user_out user s3), s3).

Definition get_user (user_id : string) (s : State) : result UserOut.t :=
  match users s !! user_id with
  | None => HTTPException 404 "User not found"
  | Some user => Ok (_build_user_out user s)
  end.

Definition update_user (user_id : string) (payload : UserUpdate.t) (s : State)
  : result UserOut.t * State :=
  match users s !! user_id with
  | None => (HTTPException 404 "User not found", s)
  | Some user =>
      let user1 :=
        match UserUpdate.display_name payload with
        | Some v =>
            User.mk (User.id user) (User.username user) v (User.bio user)
              (User.profile_pic_url user) (User.created_at user)
        | None => user
        end in
      let user2 :=
        match UserUpdate.bio payload with
        | Some v =>
            User.mk (User.id user1) (User.username user1) (User.display_name user1) v
              (User.profile_pic_url user1) (User.created_at user1)
        | None => user1
        end in
      let user3 :=
        match UserUpdate.profile_pic_url payload with
        | Some v =>
            User.mk (User.id user2) (User.username user2) (User.display_name user2)
              (User.bio user2) v (User.created_at user2)
        | None => user2
        end in
      let s' := with_users (<[user_id := user3]> (users s)) s in
      (Ok (_build_user_out user3 s'), s')
  end.

(** ** routers/posts.py *)

Definition _build_post_out (post : Post.t) (s : State) : PostOut.t :=
  let pid := Post.id post in
  PostOut.mk pid (Post.user_id post) (Post.media_url post) (Post.media_type post)
    (Post.caption post) (Post.hashtags post) (Post.created_at post)
    (size (likers_of s pid))
    (length (comment_ids_of s pid)).

(** [store.hashtag_posts.setdefault(tag, set()).add(pid)] *)
Definition index_tag (pid : string) (hp : odict (gset string)) (tag : string)
  : odict (gset string) :=
  OrderedDict.adjust (λ post_ids, post_ids ∪ {[pid]}) tag
    (OrderedDict.setdefault tag ∅ hp).

Definition create_post (pid now : string) (payload : PostCreate.t) (s : State)
  : result PostOut.t * State :=
  match users s !! PostCreate.user_id payload with
  | None => (HTTPException 404 "User not found", s)
  | Some _ =>
      let hashtags := Text.lower <$> Text.findall (PostCreate.caption payload) in
      let post :=
        Post.mk pid (PostCreate.user_id payload) (PostCreate.media_url payload)
          (PostCreate.media_type payload) (PostCreate.caption payload) hashtags now in
      let s1 := with_posts (OrderedDict.set pid post (posts s)) s in
      let s2 := with_likes (gsetdefault pid ∅ (likes s1)) s1 in
      let s3 := with_post_comments (gsetdefault pid [] (post_comments s2)) s2 in
      let s4 := with_hashtag_posts (foldl (index_tag pid) (hashtag_posts s3) hashtags) s3 in
      (Ok (_build_post_out post s4), s4)
  end.

Definition get_post (post_id : string) (s : State) : result PostOut.t :=
  match OrderedDict.get post_id (posts s) with
  | None => HTTPException 404 "Post not found"
  | Some post => Ok (_build_post_out post s)
  end.

(** One round of the loop over [post["hashtags"]] in [delete_post]:
    [tag_set = store.hashtag_posts.get(tag)], then
    [if tag_set: tag_set.discard(post_id)]. *)
Definition deindex_tag (post_id : string) (hp : odict (gset string)) (tag : string)
  : odict (gset string) :=
  match OrderedDict.get tag hp with
  | Some tag_set =>
      if decide (tag_set = ∅) then hp
      else OrderedDict.adjust (λ post_ids, post_ids ∖ {[post_id]}) tag hp
  | None => hp
  end.

Definition delete_post (post_id : string) (s : State) : result string * State :=
  match OrderedDict.get post_id (posts s) with
  | None => (HTTPException 404 "Post not found", s)
  | Some post =>
      let s1 :=
        with_hashtag_posts
          (foldl (deindex_tag post_id) (hashtag_posts s) (Post.hashtags post)) s in
      let popped := comment_ids_of s1 post_id in
      let s2 := with_post_comments (delete post_id (post_comments s1)) s1 in
      let s3 := with_comments (foldl (λ cs cid, delete cid cs) (comments s2) popped) s2 in
      let s4 := with_likes (delete post_id (likes s3)) s3 in
      let s5 := with_posts (OrderedDict.del post_id (posts s4)) s4 in
      (Ok "Post deleted", s5)
  end.

(** ** routers/follows.py *)

Definition follow_user (user_id target_id : string) (s : State)
  : result string * State :=
  if decide (user_id = target_id) then (HTTPException 400 "Cannot follow yourself", s)
  else match users s !! user_id with
  | None => (HTTPException 404 "User not found", s)
  | Some _ =>
  match users s !! target_id with
  | None => (HTTPException 404 "Target user not found", s)
  | Some _ =>
      let s1 := with_follows (gsetdefault user_id ∅ (follows s)) s in
      if decide (target_id ∈ following_of s1 user_id)
      then (HTTPException 409 "Already following this user", s1)
      else
        let s2 := with_follows (alter (λ x, x ∪ {[target_id]}) user_id (follows s1)) s1 in
        let s3 :=
          with_followers
            (alter (λ x, x ∪ {[user_id]}) target_id
               (gsetdefault target_id ∅ (followers s2))) s2 in
        (Ok "Followed successfully", s3)
  end end.

Definition unfollow_user (user_id target_id : string) (s : State)
  : result string * State :=
  match users s !! user_id with
  | None => (HTTPException 404 "User not found", s)
  | Some _ =>
  match users s !! target_id with
  | None => (HTTPException 404 "Target user not found", s)
  | Some _ =>
      if decide (target_id ∈ following_of s user_id) then
        let s1 := with_follows (alter (λ x, x ∖ {[target_id]}) user_id (follows s)) s in
        let s2 := with_followers (alter (λ x, x ∖ {[user_id]}) target_id (followers s1)) s1 in
        (Ok "Unfollowed successfully", s2)
      else (HTTPException 404 "Not following this user", s)
  end end.

(** ** routers/likes.py *)

Definition like_post (post_id : string) (payload : LikeAction.t) (s : State)
  : result string * State :=
  match OrderedDict.get post_id (posts s) with
  | None => (HTTPException 404 "Post not found", s)
  | Some _ =>
  match users s !! LikeAction.user_id payload with
  | None => (HTTPException 404 "User not found", s)
  | Some _ =>
      let s1 := with_likes (gsetdefault post_id ∅ (likes s)) s in
      if decide (LikeAction.user_id payload ∈ likers_of s1 post_id)
      then (HTTPException 409 "Post already liked by this user", s1)
      else
        (Ok "Post liked",
         with_likes
           (alter (λ x, x ∪ {[LikeAction.user_id payload]}) post_id (likes s1)) s1)
  end end.

Definition unlike_post (post_id user_id : string) (s : State)
  : result string * State :=
  match OrderedDict.get post_id (posts s) with
  | None => (HTTPException 404 "Post not found", s)
  | Some _ =>
      if decide (user_id ∈ likers_of s post_id) then
        (Ok "Post unliked",
         with_likes (alter (λ x, x ∖ {[user_id]}) post_id (likes s)) s)
      else (HTTPException 404 "Like not found", s)
  end.

(** ** routers/comments.py *)

Definition _build_comment_out (comment : Comment.t) : CommentOut.t :=
  CommentOut.mk (Comment.id comment) (Comment.user_id comment)
    (Comment.post_id comment) (Comment.text comment) (Comment.created_at comment).

Definition add_comment (cid now : string) (post_id : string)
    (payload : CommentCreate.t) (s : State) : result CommentOut.t * State :=
  match OrderedDict.get post_id (posts s) with
  | None => (HTTPException 404 "Post not found", s)
  | Some _ =>
  match users s !! CommentCreate.user_id payload with
  | None => (HTTPException 404 "User not found", s)
  | Some _ =>
      let comment :=
        Comment.mk cid (CommentCreate.user_id payload) post_id
          (CommentCreate.text payload) now in
      let s1 := with_comments (<[cid := comment]> (comments s)) s in
      let s2 :=
        with_post_comments
          (alter (λ l, (l ++ [cid])%list) post_id (gsetdefault post_id [] (post_comments s1)))
          s1 in
      (Ok (_build_comment_out comment), s2)
  end end.

Definition get_comments (post_id : string) (s : State) : result (list CommentOut.t) :=
  match OrderedDict.get post_id (posts s) with
  | None => HTTPException 404 "Post not found"
  | Some _ =>
      Ok (_build_comment_out <$>
            omap (λ cid, comments s !! cid) (comment_ids_of s post_id))
  end.

(** [list.remove(x)]: the first occurrence goes. *)
Fixpoint list_remove_first (x : string) (l : list string) : list string :=
  match l with
  | [] => []
  | y :: l' => if decide (y = x) then l' else y :: list_remove_first x l'
  end.

Definition delete_comment (comment_id : string) (s : State) : result string * State :=
  match comments s !! comment_id with
  | None => (HTTPException 404 "Comment not found", s)
  | Some comment =>
      let post_id := Comment.post_id comment in
      let s1 :=
        if decide (comment_id ∈ comment_ids_of s post_id)
        then with_post_comments
               (alter (list_remove_first comment_id) post_id (post_comments s)) s
        else s in
      let s2 := with_comments (delete comment_id (comments s1)) s1 in
      (Ok "Comment deleted", s2)
  end.

(** ** routers/feed.py *)

Definition newest_first (l : list Post.t) : list Post.t :=
  sort_desc String.leb Post.created_at l.

Definition get_feed (user_id : string) (s : State) : result (list PostOut.t) :=
  match users s !! user_id with
  | None => HTTPException 404 "User not found"
  | Some _ =>
      let following_ids := following_of s user_id in
      if decide (following_ids = ∅) then Ok []
      else
        let feed_posts :=
          filter (λ p, Post.user_id p ∈ following_ids) (OrderedDict.values (posts s)) in
        Ok ((λ p, _build_post_out p s) <$> newest_first feed_posts)
  end.

(** ** routers/explore.py *)

(** [limit] carries [Query(default=20, ge=1, le=100)]. *)
Definition explore_recent (limit : nat) (s : State) : result (list PostOut.t) :=
  if ((1 <=? limit) && (limit <=? 100))%nat then
    Ok ((λ p, _build_post_out p s) <$>
          take limit (newest_first (OrderedDict.values (posts s))))
  else RequestValidationError.

Definition explore_trending (s : State) : list HashtagCount.t :=
  let tag_counts :=
    (λ kv, HashtagCount.mk kv.1 (size kv.2)) <$>
      filter (λ kv, kv.2 ≠ (∅ : gset string)) (OrderedDict.items (hashtag_posts s)) in
  take 10 (sort_desc Nat.leb HashtagCount.count tag_counts).

(** The comprehension walks a Python set, whose order Python does not fix;
    here it is the order of [elements], which depends on the members only
    (CPython's also on the adds and discards that built the set).  What is
    proved of this route is therefore stated up to the order of the page,
    or for a one-post page. *)
Definition explore_by_hashtag (tag : string) (s : State) : list PostOut.t :=
  let normalized_tag := Text.lower tag in
  let post_ids := posts_for_tag s normalized_tag in
  let tagged_posts := omap (λ pid, OrderedDict.get pid (posts s)) (elements post_ids) in
  (λ p, _build_post_out p s) <$> newest_first tagged_posts.

(** ** The listing routes of posts.py, follows.py and likes.py *)

(** [get_user_posts] of routers/posts.py *)
Definition get_user_posts (user_id : string) (s : State) : result (list PostOut.t) :=
  match users s !! user_id with
  | None => HTTPException 404 "User not found"
  | Some _ =>
      let user_posts :=
        filter (λ p, Post.user_id p = user_id) (OrderedDict.values (posts s)) in
      Ok ((λ p, _build_post_out p s) <$> newest_first user_posts)
  end.

(** [get_followers], [get_following] of routers/follows.py.  The loop walks a
    Python set; here in the order of [elements]. *)
Definition get_followers (user_id : string) (s : State) : result (list UserOut.t) :=
  match users s !! user_id with
  | None => HTTPException 404 "User not found"
  | Some _ =>
      let follower_ids := followers_of s user_id in
      Ok ((λ user, _build_user_out user s) <$>
            omap (λ fid, users s !! fid) (elements follower_ids))
  end.

Definition get_following (user_id : string) (s : State) : result (list UserOut.t) :=
  match users s !! user_id with
  | None => HTTPException 404 "User not found"
  | Some _ =>
      let following_ids := following_of s user_id in
      Ok ((λ user, _build_user_out user s) <$>
            omap (λ fid, users s !! fid) (elements following_ids))
  end.

(** [get_post_likes] of routers/likes.py *)
Definition get_post_likes (post_id : string) (s : State) : result (list UserOut.t) :=
  match OrderedDict.get post_id (posts s) with
  | None => HTTPException 404 "Post not found"
  | Some _ =>
      let liked_by := likers_of s post_id in
      Ok ((λ user, _build_user_out user s) <$>
            omap (λ uid, users s !! uid) (elements liked_by))
  end.

(** ** main.py: the routes that write to the store *)

Inductive Request :=
| POST_users (uid now : string) (payload : UserCreate.t)
| PUT_users (user_id : string) (payload : UserUpdate.t)
| POST_posts (pid now : string) (payload : PostCreate.t)
| DELETE_posts (post_id : string)
| POST_follow (user_id target_id : string)
| DELETE_follow (user_id target_id : string)
| POST_like (post_id : string) (payload : LikeAction.t)
| DELETE_like (post_id user_id : string)
| POST_comments (cid now : string) (post_id : string) (payload : CommentCreate.t)
| DELETE_comments (comment_id : string).

Inductive Body :=
| UserBody (u : UserOut.t)
| PostBody (p : PostOut.t)
| CommentBody (c : CommentOut.t)
| DetailBody (detail : string).

Definition respond {A} (f : A → Body) (r : result A * State) : result Body * State :=
  (match r.1 with
   | Ok a => Ok (f a)
   | HTTPException c d => HTTPException c d
   | RequestValidationError => RequestValidationError
   end, r.2).

(** FastAPI validates the payload against its model, then calls the handler. *)
Definition handle (req : Request) (s : State) : result Body * State :=
  match req with
  | POST_users uid now payload =>
      if UserCreate.valid payload
      then respond UserBody (create_user uid now payload s)
      else (RequestValidationError, s)
  | PUT_users user_id payload => respond UserBody (update_user user_id payload s)
  | POST_posts pid now payload =>
      if PostCreate.valid payload
      then respond PostBody (create_post pid now payload s)
      else (RequestValidationError, s)
  | DELETE_posts post_id => respond DetailBody (delete_post post_id s)
  | POST_follow user_id target_id => respond DetailBody (follow_user user_id target_id s)
  | DELETE_follow user_id target_id =>
      respond DetailBody (unfollow_user user_id target_id s)
  | POST_like post_id payload => respond DetailBody (like_post post_id payload s)
  | DELETE_like post_id user_id => respond DetailBody (unlike_post post_id user_id s)
  | POST_comments cid now post_id payload =>
      if CommentCreate.valid payload
      then respond CommentBody (add_comment cid now post_id payload s)
      else (RequestValidationError, s)
  | DELETE_comments comment_id => respond DetailBody (delete_comment comment_id s)
  end.

(** The identifier [uuid.uuid4()] hands to the handler of a creating route. *)
Definition uuid4_of (req : Request) : list string :=
  match req with
  | POST_users uid _ _ => [uid]
  | POST_posts pid _ _ => [pid]
  | POST_comments cid _ _ _ => [cid]
  | _ => []
  end.

(** The states of a running service.  [reachable_with log s]: the store is
    [s] after some sequence of requests from the fresh store, and [log]
    lists the identifiers [uuid4] has handed out, oldest first.  [uuid4]
    never returns the same identifier twice. *)
Inductive reachable_with : list string → State → Prop :=
| reach_reset : reachable_with [] reset_storage
| reach_step log s req :
    reachable_with log s →
    (∀ id, id ∈ uuid4_of req → id ∉ log) →
    reachable_with (log ++ uuid4_of req)%list (handle req s).2.

Definition reachable (s : State) : Prop := ∃ log, reachable_with log s.

(** The store after a sequence of requests. *)
Definition run (reqs : list Request) (s : State) : State :=
  foldl (λ s req, (handle req s).2) s reqs.

(** * Specification vocabulary *)

(** Index symmetry of the two follow dicts. *)
Definition follow_symmetric (s : State) : Prop :=
  ∀ a b, b ∈ following_of s a ↔ a ∈ followers_of s b.

(** [c] names a stored comment whose parent is [p]. *)
Definition is_comment_of (s : State) (p c : string) : bool :=
  match comments s !! c with
  | Some cm => bool_decide (Comment.post_id cm = p)
  | None => false
  end.

(** The posts of the store that carry [tag] in their hashtag list. *)
Definition posts_tagged (s : State) (tag : string) : list Post.t :=
  filter (λ p, tag ∈ Post.hashtags p) (OrderedDict.values (posts s)).

(** Newest first, and most used first. *)
Definition newer_eq (p q : Post.t) : Prop :=
  String.leb (Post.created_at q) (Post.created_at p) = true.
Definition count_ge (x y : HashtagCount.t) : Prop :=
  (HashtagCount.count y ≤ HashtagCount.count x)%nat.

(** Nobody follows themself. *)
Definition no_self_follow (s : State) : Prop := ∀ u, u ∉ following_of s u.

(** * The writes of a successful request

    [commits req s s']: the handler of [req] runs to its [return] on the
    store [s] and leaves [s'].  One rule per route, read off the handler;
    [handle_commits] below shows that this is what [handle] does. *)

(** The record [update_user] leaves under [store.users[user_id]]. *)
Definition updated_user (payload : UserUpdate.t) (user : User.t) : User.t :=
  User.mk (User.id user) (User.username user)
    (default (User.display_name user) (UserUpdate.display_name payload))
    (default (User.bio user) (UserUpdate.bio payload))
    (default (User.profile_pic_url user) (UserUpdate.profile_pic_url payload))
    (User.created_at user).

Inductive commits : Request → State → State → Prop :=
| commit_create_user uid now payload s :
    UserCreate.valid payload = true →
    ¬ map_Exists (λ _ u, User.username u = UserCreate.username payload) (users s) →
    commits (POST_users uid now payload) s
      (with_followers (gsetdefault uid ∅ (followers s))
         (with_follows (gsetdefault uid ∅ (follows s))
            (with_users
               (<[uid := User.mk uid (UserCreate.username payload)
                           (UserCreate.display_name payload) (UserCreate.bio payload)
                           (UserCreate.profile_pic_url payload) now]> (users s)) s)))
| commit_update_user user_id payload s user :
    users s !! user_id = Some user →
    commits (PUT_users user_id payload) s
      (with_users (<[user_id := updated_user payload user]> (users s)) s)
| commit_create_post pid now payload s :
    PostCreate.valid payload = true →
    is_Some (users s !! PostCreate.user_id payload) →
    commits (POST_posts pid now payload) s
      (with_hashtag_posts
         (foldl (index_tag pid) (hashtag_posts s)
            (Text.lower <$> Text.findall (PostCreate.caption payload)))
         (with_post_comments (gsetdefault pid [] (post_comments s))
            (with_likes (gsetdefault pid ∅ (likes s))
               (with_posts
                  (OrderedDict.set pid
                     (Post.mk pid (PostCreate.user_id payload)
                        (PostCreate.media_url payload) (PostCreate.media_type payload)
                        (PostCreate.caption payload)
                        (Text.lower <$> Text.findall (PostCreate.caption payload)) now)
                     (posts s)) s))))
| commit_delete_post post_id s post :
    OrderedDict.get post_id (posts s) = Some post →
    commits (DELETE_posts post_id) s
      (with_posts (OrderedDict.del post_id (posts s))
         (with_likes (delete post_id (likes s))
            (with_comments
               (foldl (λ cs cid, delete cid cs) (comments s) (comment_ids_of s post_id))
               (with_post_comments (delete post_id (post_comments s))
                  (with_hashtag_posts
                     (foldl (deindex_tag post_id) (hashtag_posts s) (Post.hashtags post))
                     s)))))
| commit_follow user_id target_id s :
    user_id ≠ target_id →
    is_Some (users s !! user_id) → is_Some (users s !! target_id) →
    target_id ∉ following_of s user_id →
    commits (POST_follow user_id target_id) s
      (with_followers
         (alter (λ x, x ∪ {[user_id]}) target_id (gsetdefault target_id ∅ (followers s)))
         (with_follows
            (alter (λ x, x ∪ {[target_id]}) user_id (gsetdefault user_id ∅ (follows s)))
            s))
| commit_unfollow user_id target_id s :
    is_Some (users s !! user_id) → is_Some (users s !! target_id) →
    target_id ∈ following_of s user_id →
    commits (DELETE_follow user_id target_id) s
      (with_followers (alter (λ x, x ∖ {[user_id]}) target_id (followers s))
         (with_follows (alter (λ x, x ∖ {[target_id]}) user_id (follows s)) s))
| commit_like post_id payload s :
    is_Some (OrderedDict.get post_id (posts s)) →
    is_Some (users s !! LikeAction.user_id payload) →
    LikeAction.user_id payload ∉ likers_of s post_id →
    commits (POST_like post_id payload) s
      (with_likes
         (alter (λ x, x ∪ {[LikeAction.user_id payload]}) post_id
            (gsetdefault post_id ∅ (likes s))) s)
| commit_unlike post_id user_id s :
    is_Some (OrderedDict.get post_id (posts s)) →
    user_id ∈ likers_of s post_id →
    commits (DELETE_like post_id user_id) s
      (with_likes (alter (λ x, x ∖ {[user_id]}) post_id (likes s)) s)
| commit_add_comment cid now post_id payload s :
    CommentCreate.valid payload = true →
    is_Some (OrderedDict.get post_id (posts s)) →
    is_Some (users s !! CommentCreate.user_id payload) →
    commits (POST_comments cid now post_id payload) s
      (with_post_comments
         (alter (λ l, (l ++ [cid])%list) post_id (gsetdefault post_id [] (post_comments s)))
         (with_comments
            (<[cid := Comment.mk cid (CommentCreate.user_id payload) post_id
                        (CommentCreate.text payload) now]> (comments s)) s))
| commit_delete_comment comment_id s comment :
    comments s !! comment_id = Some comment →
    commits (DELETE_comments comment_id) s
      (with_comments (delete comment_id (comments s))
         (with_post_comments
            (alter (list_remove_first comment_id) (Comment.post_id comment)
               (post_comments s)) s)).

(** Requests that leave the edge a→b, resp. the like of [u] on [p], alone. *)
Definition stays_followed (a b : string) (req : Request) : Prop :=
  req ≠ DELETE_follow a b.
Definition stays_liked (u p : string) (req : Request) : Prop :=
  req ≠ DELETE_like p u ∧ req ≠ DELETE_posts p.

(** * The index invariant

    [store_inv log s]: what holds of a store [s] reached while [uuid4] handed
    out the identifiers [log], oldest first. *)
Record store_inv (log : list string) (s : State) : Prop := mk_store_inv
  { inv_log : NoDup log;
    inv_posts_wf : OrderedDict.wf (posts s);
    inv_tags_wf : OrderedDict.wf (hashtag_posts s);
    (** a post sits under its own identifier, which [uuid4] issued, and has
        its comment sequence *)
    inv_post : ∀ pid post,
      OrderedDict.get pid (posts s) = Some post →
      Post.id post = pid ∧ pid ∈ log ∧ is_Some (post_comments s !! pid);
    (** invariant 2 of the index, in both directions *)
    inv_tag_sound : ∀ tag pid,
      pid ∈ posts_for_tag s tag →
      ∃ post, OrderedDict.get pid (posts s) = Some post ∧ tag ∈ Post.hashtags post;
    inv_tag_complete : ∀ pid post tag,
      OrderedDict.get pid (posts s) = Some post → tag ∈ Post.hashtags post →
      pid ∈ posts_for_tag s tag;
    (** a comment sits under its own identifier and its parent is a post of
        the store *)
    inv_comment : ∀ cid comment,
      comments s !! cid = Some comment →
      Comment.id comment = cid ∧ cid ∈ log ∧
      is_Some (OrderedDict.get (Comment.post_id comment) (posts s));
    (** invariant 3: each sequence lists the stored comments of its post in
        the order they were created *)
    inv_post_comments : ∀ pid l,
      post_comments s !! pid = Some l →
      is_Some (OrderedDict.get pid (posts s)) ∧
      l = filter (λ c, is_comment_of s pid c) log }.

(** * References between the stores *)

(** What holds of the references between the stores of a running service. *)
Record refs_inv (s : State) : Prop := mk_refs_inv
  { (** a user sits under their own identifier and has both follow sets *)
    ref_user : ∀ uid user,
      users s !! uid = Some user →
      User.id user = uid ∧ is_Some (follows s !! uid) ∧ is_Some (followers s !! uid);
    (** handles are unique *)
    ref_username : ∀ uid1 uid2 user1 user2,
      users s !! uid1 = Some user1 → users s !! uid2 = Some user2 →
      User.username user1 = User.username user2 → uid1 = uid2;
    (** both ends of a follow edge are users *)
    ref_follow : ∀ a b,
      b ∈ following_of s a → is_Some (users s !! a) ∧ is_Some (users s !! b);
    (** like-sets belong to posts, and likers are users *)
    ref_likes : ∀ pid,
      is_Some (likes s !! pid) ↔ is_Some (OrderedDict.get pid (posts s));
    ref_liker : ∀ pid uid, uid ∈ likers_of s pid → is_Some (users s !! uid);
    (** authors are users *)
    ref_post_author : ∀ pid post,
      OrderedDict.get pid (posts s) = Some post →
      is_Some (users s !! Post.user_id post);
    ref_comment_author : ∀ cid comment,
      comments s !! cid = Some comment →
      is_Some (users s !! Comment.user_id comment) }.

(** * Responses *)

(** A response with one derived count replaced. *)
Definition with_like_count (n : nat) (out : PostOut.t) : PostOut.t :=
  PostOut.mk (PostOut.id out) (PostOut.user_id out) (PostOut.media_url out)
    (PostOut.media_type out) (PostOut.caption out) (PostOut.hashtags out)
    (PostOut.created_at out) n (PostOut.comment_count out).
Definition with_comment_count (n : nat) (out : PostOut.t) : PostOut.t :=
  PostOut.mk (PostOut.id out) (PostOut.user_id out) (PostOut.media_url out)
    (PostOut.media_type out) (PostOut.caption out) (PostOut.hashtags out)
    (PostOut.created_at out) (PostOut.like_count out) n.
Definition with_follower_count (n : nat) (out : UserOut.t) : UserOut.t :=
  UserOut.mk (UserOut.id out) (UserOut.username out) (UserOut.display_name out)
    (UserOut.bio out) (UserOut.profile_pic_url out) (UserOut.created_at out)
    n (UserOut.following_count out) (UserOut.post_count out).
Definition with_following_count (n : nat) (out : UserOut.t) : UserOut.t :=
  UserOut.mk (UserOut.id out) (UserOut.username out) (UserOut.display_name out)
    (UserOut.bio out) (UserOut.profile_pic_url out) (UserOut.created_at out)
    (UserOut.follower_count out) n (UserOut.post_count out).

(** ** Hashtag words *)

(** A non-empty string of word characters: what the [\w+] of [_HASHTAG_RE]
    can match in full. *)
Fixpoint all_word_chars (s : string) : bool :=
  match s with
  | EmptyString => true
  | String c s' => Text.is_word_char c && all_word_chars s'
  end.
Definition is_tag_word (s : string) : Prop := s ≠ "" ∧ all_word_chars s = true.

(** * Scenarios *)

Definition alice : UserCreate.t := UserCreate.mk "alice" "Alice" "" "".
Definition bob : UserCreate.t := UserCreate.mk "bob" "Bob" "" "".

(** alice and bob register. *)
Definition two_users : list Request :=
  [ POST_users "id-alice" "2024-01-01T10:00:00" alice;
    POST_users "id-bob" "2024-01-01T10:00:01" bob ].

(** ... and alice follows bob. *)
Definition alice_follows_bob : list Request :=
  (two_users ++ [ POST_follow "id-alice" "id-bob" ])%list.

(** alice and bob register, bob posts. *)
Definition hello_world : PostCreate.t :=
  PostCreate.mk "id-bob" "https://cdn.example/1.jpg" image "Hello #world".
Definition bob_posts : list Request :=
  (two_users ++ [ POST_posts "id-post" "2024-01-01T10:05:00" hello_world ])%list.

(** ... alice comments on bob's post and likes it. *)
Definition nice_shot : CommentCreate.t := CommentCreate.mk "id-alice" "Nice shot!".
Definition alice_reacts : list Request :=
  (bob_posts ++
   [ POST_comments "id-comment" "2024-01-01T10:06:00" "id-post" nice_shot;
     POST_like "id-post" (LikeAction.mk "id-alice") ])%list.

(** ... and bob answers under his own post. *)
Definition thanks : CommentCreate.t := CommentCreate.mk "id-bob" "Thanks!".
Definition bob_answers : list Request :=
  (alice_reacts ++
   [ POST_comments "id-answer" "2024-01-01T10:07:00" "id-post" thanks ])%list.

(** alice registers and posts one caption that repeats a tag in three
    casings. *)
Definition python_thrice : PostCreate.t :=
  PostCreate.mk "id-alice" "https://cdn.example/2.jpg" image "#Python #PYTHON #python".
Definition alice_posts_python : list Request :=
  [ POST_users "id-alice" "2024-01-01T10:00:00" alice;
    POST_posts "id-py" "2024-01-01T10:10:00" python_thrice ].

(** bob posts and deletes his post again: the key [world] stays behind in
    [hashtag_posts], with an empty set. *)
Definition bob_deletes : list Request :=
  (bob_posts ++ [ DELETE_posts "id-post" ])%list.

(** The record [create_user] stores for alice. *)
Definition alice_record : User.t :=
  User.mk "id-alice" "alice" "Alice" "" "" "2024-01-01T10:00:00".

(** alice and bob register, alice follows bob, both post. *)
Definition alice_own : PostCreate.t :=
  PostCreate.mk "id-alice" "https://cdn.example/4.jpg" video "my day".
Definition both_post : list Request :=
  (alice_follows_bob ++
   [ POST_posts "id-p1" "2024-01-01T10:30:00" alice_own;
     POST_posts "id-p2" "2024-01-01T10:05:00" hello_world ])%list.

(** * Proofs *)

(** ** Text *)

Lemma lower_char_idem c : Text.lower_char (Text.lower_char c) = Text.lower_char c.
Proof.
  destruct c as [[] [] [] [] [] [] [] []]; vm_compute; reflexivity.
Qed.

Lemma lower_idem s : Text.lower (Text.lower s) = Text.lower s.
Proof.
  induction s as [|c s IH]; simpl; [done|]. by rewrite lower_char_idem, IH.
Qed.

(** ** Ordered dicts *)

Section ordered_dict_facts.
Context {V : Type}.
Implicit Types (d : odict V) (k : string) (v : V).
Import OrderedDict.

Lemma get_Some_elem_of d k v : get k d = Some v → (k, v) ∈ d.
Proof.
  induction d as [|[k' v'] d IH]; simpl; [done|].
  case_decide; intros; simplify_eq; [left | right; auto].
Qed.

Lemma get_None_keys d k : get k d = None ↔ k ∉ keys d.
Proof.
  unfold keys. induction d as [|[k' v'] d IH]; simpl.
  - split; [intros _; apply not_elem_of_nil | done].
  - rewrite not_elem_of_cons. destruct (decide (k' = k)) as [->|Hne].
    + split; [done | intros [? _]; done].
    + rewrite IH. split; [intros; split; [congruence | done] | intros [_ ?]; done].
Qed.

Lemma get_is_Some_keys d k : is_Some (get k d) ↔ k ∈ keys d.
Proof.
  destruct (get k d) eqn:E.
  - split; [intros _|eauto]. destruct (decide (k ∈ keys d)) as [|Hn]; [done|].
    apply get_None_keys in Hn. congruence.
  - apply get_None_keys in E. split; [intros [? ?]; done | done].
Qed.

Lemma elem_of_get d k v : wf d → (k, v) ∈ d → get k d = Some v.
Proof.
  unfold wf, keys. induction d as [|[k' v'] d IH]; simpl; intros Hnd Hin.
  - by apply elem_of_nil in Hin.
  - apply NoDup_cons in Hnd as [Hk Hnd]. apply elem_of_cons in Hin as [Heq|Hin].
    + simplify_eq. by rewrite decide_True.
    + case_decide; [|by apply IH]. subst k'.
      exfalso. apply Hk. apply list_elem_of_fmap. by exists (k, v).
Qed.

Lemma get_set d k k' v :
  get k' (set k v d) = if decide (k = k') then Some v else get k' d.
Proof.
  induction d as [|[k0 v0] d IH]; simpl.
  - done.
  - destruct (decide (k0 = k)) as [->|Hne]; simpl.
    + by destruct (decide (k = k')).
    + rewrite IH. destruct (decide (k0 = k')) as [->|]; [|done].
      by rewrite decide_False.
Qed.

Lemma keys_set d k v :
  keys (set k v d) = if decide (k ∈ keys d) then keys d else (keys d ++ [k])%list.
Proof.
  unfold keys. induction d as [|[k0 v0] d IH]; csimpl.
  - done.
  - destruct (decide (k0 = k)) as [->|Hne]; csimpl.
    + by rewrite decide_True by left.
    + rewrite IH. destruct (decide (k ∈ d.*1)).
      * by rewrite decide_True by (by right).
      * rewrite decide_False; [done|]. rewrite not_elem_of_cons. naive_solver.
Qed.

Lemma wf_set d k v : wf d → wf (set k v d).
Proof.
  unfold wf. rewrite keys_set. case_decide; [done|].
  intros. apply NoDup_app. split_and!; [done| |apply NoDup_singleton].
  intros x Hx Hx'. apply list_elem_of_singleton in Hx'. by subst.
Qed.

Lemma get_setdefault d k k' v :
  get k' (setdefault k v d) =
    if decide (k = k') then Some (default v (get k d)) else get k' d.
Proof.
  unfold setdefault. destruct (get k d) eqn:E; simpl.
  - case_decide; by subst.
  - rewrite get_set. by case_decide.
Qed.

Lemma keys_setdefault d k v :
  keys (setdefault k v d) = if decide (k ∈ keys d) then keys d else (keys d ++ [k])%list.
Proof.
  unfold setdefault. destruct (get k d) eqn:E.
  - rewrite decide_True; [done|]. apply get_is_Some_keys. eauto.
  - apply keys_set.
Qed.

Lemma wf_setdefault d k v : wf d → wf (setdefault k v d).
Proof. unfold setdefault. destruct (get k d); auto using wf_set. Qed.

Lemma get_del d k k' :
  get k' (del k d) = if decide (k = k') then None else get k' d.
Proof.
  unfold del. induction d as [|[k0 v0] d IH].
  - simpl. by case_decide.
  - rewrite filter_cons. cbn [fst]. destruct (decide (k0 ≠ k)) as [Hne|Heq].
    + cbn [get]. rewrite IH. destruct (decide (k0 = k')) as [->|]; [|done].
      by rewrite decide_False.
    + apply dec_stable in Heq. subst k0. rewrite IH. cbn [get].
      destruct (decide (k = k')); done.
Qed.

Lemma keys_del d k : keys (del k d) = filter (λ x, x ≠ k) (keys d).
Proof.
  unfold del, keys. induction d as [|[k0 v0] d IH]; [done|].
  rewrite fmap_cons, !filter_cons. cbn [fst].
  destruct (decide (k0 ≠ k)); csimpl; by rewrite IH.
Qed.

Lemma wf_del d k : wf d → wf (del k d).
Proof. unfold wf. rewrite keys_del. apply NoDup_filter. Qed.

Lemma elem_of_del d k kv : kv ∈ del k d ↔ kv ∈ d ∧ kv.1 ≠ k.
Proof. unfold del. rewrite list_elem_of_filter. tauto. Qed.

Lemma get_adjust (f : V → V) d k k' :
  get k' (adjust f k d) = if decide (k = k') then f <$> get k d else get k' d.
Proof.
  induction d as [|[k0 v0] d IH]; simpl.
  - by case_decide.
  - destruct (decide (k0 = k)) as [->|Hne]; simpl.
    + destruct (decide (k = k')); done.
    + rewrite IH. destruct (decide (k0 = k')) as [->|]; [|done].
      by rewrite decide_False.
Qed.

Lemma keys_adjust (f : V → V) d k : keys (adjust f k d) = keys d.
Proof.
  unfold keys. induction d as [|[k0 v0] d IH]; csimpl; [done|].
  case_decide; csimpl; [done|]. by rewrite IH.
Qed.

Lemma wf_adjust (f : V → V) d k : wf d → wf (adjust f k d).
Proof. unfold wf. by rewrite keys_adjust. Qed.

Lemma setdefault_id d k v : is_Some (get k d) → setdefault k v d = d.
Proof. intros [x Hx]. unfold setdefault. by rewrite Hx. Qed.

End ordered_dict_facts.

(** ** [setdefault] on the indexed dicts *)

Section gsetdefault_facts.
Context {V : Type}.
Implicit Types (d : gmap string V) (k : string) (v : V).

Lemma lookup_gsetdefault d k k' v :
  gsetdefault k v d !! k' =
    if decide (k = k') then Some (default v (d !! k)) else d !! k'.
Proof.
  unfold gsetdefault. destruct (d !! k) eqn:E; simpl.
  - destruct (decide (k = k')); by subst.
  - rewrite lookup_insert. destruct (decide (k = k')); done.
Qed.

Lemma gsetdefault_id d k v : is_Some (d !! k) → gsetdefault k v d = d.
Proof. intros [x Hx]. unfold gsetdefault. by rewrite Hx. Qed.

Lemma lookup_foldl_delete d (l : list string) k :
  foldl (λ m x, delete x m) d l !! k = if decide (k ∈ l) then None else d !! k.
Proof.
  revert d. induction l as [|x l IH]; intros d; simpl.
  - done.
  - rewrite IH. destruct (decide (k ∈ l)) as [Hin|Hnin].
    + by rewrite decide_True by (by right).
    + destruct (decide (x = k)) as [->|Hne].
      * rewrite lookup_delete_eq. by rewrite decide_True by left.
      * rewrite lookup_delete_ne by done. rewrite decide_False; [done|].
        rewrite not_elem_of_cons. split; [congruence | done].
Qed.

End gsetdefault_facts.

(** ** The stable descending sort *)

Section sort_desc_facts.
Context {A K : Type} (leb : K → K → bool) (key : A → K).
Hypothesis leb_total : ∀ a b, leb a b = true ∨ leb b a = true.

Local Abbreviation desc := (desc leb key).

Lemma insert_desc_Permutation x l : insert_desc leb key x l ≡ₚ x :: l.
Proof.
  induction l as [|y l IH]; simpl; [done|].
  destruct (leb (key y) (key x)); [done|].
  rewrite IH. apply perm_swap.
Qed.

Lemma sort_desc_Permutation l : sort_desc leb key l ≡ₚ l.
Proof.
  induction l as [|x l IH]; simpl; [done|].
  rewrite insert_desc_Permutation. by rewrite IH.
Qed.

Lemma insert_desc_HdRel a x l :
  desc a x → HdRel desc a l → HdRel desc a (insert_desc leb key x l).
Proof.
  intros Hax Hal. destruct l as [|y l]; simpl.
  - by constructor.
  - destruct (leb (key y) (key x)); constructor; [done|].
    by inversion Hal.
Qed.

Lemma insert_desc_Sorted x l :
  Sorted desc l → Sorted desc (insert_desc leb key x l).
Proof.
  induction 1 as [|y l Hs IH Hhd]; simpl.
  - by repeat constructor.
  - destruct (leb (key y) (key x)) eqn:E.
    + constructor; [by constructor|]. by constructor.
    + constructor; [done|]. apply insert_desc_HdRel; [|done].
      unfold desc. destruct (leb_total (key x) (key y)); congruence.
Qed.

Lemma sort_desc_Sorted l : Sorted desc (sort_desc leb key l).
Proof.
  induction l as [|x l IH]; simpl; [constructor|]. by apply insert_desc_Sorted.
Qed.

Lemma sort_desc_StronglySorted l :
  (∀ a b c, leb a b = true → leb b c = true → leb a c = true) →
  StronglySorted desc (sort_desc leb key l).
Proof.
  intros Htrans. apply Sorted_StronglySorted; [|apply sort_desc_Sorted].
  intros x y z Hxy Hyz. unfold desc in *. eauto.
Qed.

(** Stability: a list that is already in descending order is left alone. *)
Lemma sort_desc_sorted_id l : Sorted desc l → sort_desc leb key l = l.
Proof.
  induction 1 as [|x l Hs IH Hhd]; simpl; [done|].
  rewrite IH. destruct Hhd as [|y l' Hxy]; simpl; [done|].
  unfold desc in Hxy. by rewrite Hxy.
Qed.

End sort_desc_facts.

(** ** The order of the sort keys *)

Lemma string_compare_Lt_trans a b c :
  String.compare a b = Lt → String.compare b c = Lt → String.compare a c = Lt.
Proof.
  revert b c. induction a as [|x a IH]; intros [|y b] [|z c]; simpl; try done.
  unfold Ascii.compare.
  destruct (N.compare_spec (N_of_ascii x) (N_of_ascii y)) as [Exy|Lxy|Gxy]; try done;
  destruct (N.compare_spec (N_of_ascii y) (N_of_ascii z)) as [Eyz|Lyz|Gyz]; try done;
  intros H1 H2.
  - rewrite Exy, Eyz, N.compare_refl. eauto.
  - rewrite Exy. by rewrite (proj2 (N.compare_lt_iff _ _) Lyz).
  - rewrite <- Eyz. by rewrite (proj2 (N.compare_lt_iff _ _) Lxy).
  - assert (N_of_ascii x < N_of_ascii z)%N as Hlt by (by etrans).
    by rewrite (proj2 (N.compare_lt_iff _ _) Hlt).
Qed.

Lemma string_leb_trans a b c :
  String.leb a b = true → String.leb b c = true → String.leb a c = true.
Proof.
  unfold String.leb.
  destruct (String.compare a b) eqn:Hab; [| |done];
  destruct (String.compare b c) eqn:Hbc; try done; intros _ _.
  - apply String.compare_eq_iff in Hab, Hbc. subst.
    pose proof (String.compare_antisym c c) as Hc.
    destruct (String.compare c c); done.
  - apply String.compare_eq_iff in Hab. subst. by rewrite Hbc.
  - apply String.compare_eq_iff in Hbc. subst. by rewrite Hab.
  - by rewrite (string_compare_Lt_trans a b c).
Qed.

Lemma nat_leb_total a b : Nat.leb a b = true ∨ Nat.leb b a = true.
Proof. rewrite !Nat.leb_le. lia. Qed.

Lemma nat_leb_trans a b c :
  Nat.leb a b = true → Nat.leb b c = true → Nat.leb a c = true.
Proof. rewrite !Nat.leb_le. lia. Qed.

Lemma newest_first_Permutation l : newest_first l ≡ₚ l.
Proof. apply sort_desc_Permutation. Qed.

Lemma newest_first_sorted l : StronglySorted newer_eq (newest_first l).
Proof.
  apply (sort_desc_StronglySorted String.leb Post.created_at String.leb_total).
  apply string_leb_trans.
Qed.

(** ** A handler that raises leaves the store as it was *)

Lemma with_follows_id s : with_follows (follows s) s = s.
Proof. by destruct s. Qed.

Lemma with_likes_id s : with_likes (likes s) s = s.
Proof. by destruct s. Qed.

Lemma gsetdefault_follows_member s u x :
  x ∈ following_of (with_follows (gsetdefault u ∅ (follows s)) s) u →
  with_follows (gsetdefault u ∅ (follows s)) s = s ∧ x ∈ following_of s u.
Proof.
  unfold following_of, gsetdefault. simpl.
  destruct (follows s !! u) as [S|] eqn:E.
  - rewrite E. simpl. intros ?. by rewrite with_follows_id.
  - rewrite lookup_insert_eq. simpl. set_solver.
Qed.

Lemma gsetdefault_likes_member s p x :
  x ∈ likers_of (with_likes (gsetdefault p ∅ (likes s)) s) p →
  with_likes (gsetdefault p ∅ (likes s)) s = s ∧ x ∈ likers_of s p.
Proof.
  unfold likers_of, gsetdefault. simpl.
  destruct (likes s !! p) as [S|] eqn:E.
  - rewrite E. simpl. intros ?. by rewrite with_likes_id.
  - rewrite lookup_insert_eq. simpl. set_solver.
Qed.

Lemma create_user_raises uid now payload s :
  is_ok (create_user uid now payload s).1 = false →
  (create_user uid now payload s).2 = s.
Proof. unfold create_user. by case_decide. Qed.

Lemma update_user_raises user_id payload s :
  is_ok (update_user user_id payload s).1 = false →
  (update_user user_id payload s).2 = s.
Proof. unfold update_user. by destruct (users s !! user_id). Qed.

Lemma create_post_raises pid now payload s :
  is_ok (create_post pid now payload s).1 = false →
  (create_post pid now payload s).2 = s.
Proof. unfold create_post. by destruct (users s !! _). Qed.

Lemma delete_post_raises post_id s :
  is_ok (delete_post post_id s).1 = false → (delete_post post_id s).2 = s.
Proof. unfold delete_post. by destruct (OrderedDict.get _ _). Qed.

Lemma follow_user_raises user_id target_id s :
  is_ok (follow_user user_id target_id s).1 = false →
  (follow_user user_id target_id s).2 = s.
Proof.
  unfold follow_user. case_decide; [done|].
  destruct (users s !! user_id); [|done]. destruct (users s !! target_id); [|done].
  case_decide as Hin; [|done]. intros _. simpl.
  by apply gsetdefault_follows_member in Hin as [-> _].
Qed.

Lemma unfollow_user_raises user_id target_id s :
  is_ok (unfollow_user user_id target_id s).1 = false →
  (unfollow_user user_id target_id s).2 = s.
Proof.
  unfold unfollow_user.
  destruct (users s !! user_id); [|done]. destruct (users s !! target_id); [|done].
  by case_decide.
Qed.

Lemma like_post_raises post_id payload s :
  is_ok (like_post post_id payload s).1 = false →
  (like_post post_id payload s).2 = s.
Proof.
  unfold like_post. destruct (OrderedDict.get _ _); [|done].
  destruct (users s !! _); [|done].
  case_decide as Hin; [|done]. intros _. simpl.
  by apply gsetdefault_likes_member in Hin as [-> _].
Qed.

Lemma unlike_post_raises post_id user_id s :
  is_ok (unlike_post post_id user_id s).1 = false →
  (unlike_post post_id user_id s).2 = s.
Proof.
  unfold unlike_post. destruct (OrderedDict.get _ _); [|done]. by case_decide.
Qed.

Lemma add_comment_raises cid now post_id payload s :
  is_ok (add_comment cid now post_id payload s).1 = false →
  (add_comment cid now post_id payload s).2 = s.
Proof.
  unfold add_comment. destruct (OrderedDict.get _ _); [|done].
  by destruct (users s !! _).
Qed.

Lemma delete_comment_raises comment_id s :
  is_ok (delete_comment comment_id s).1 = false →
  (delete_comment comment_id s).2 = s.
Proof. unfold delete_comment. by destruct (comments s !! _). Qed.

Lemma is_ok_respond {A} (f : A → Body) r : is_ok (respond f r).1 = is_ok r.1.
Proof. unfold respond. by destruct r as [[] ?]. Qed.

Lemma handle_raises req s : is_ok (handle req s).1 = false → (handle req s).2 = s.
Proof.
  destruct req; unfold handle;
    try (match goal with |- context [if ?b then _ else _] => destruct b end;
         [|done]);
    rewrite is_ok_respond; unfold respond; cbn [snd];
    eauto using create_user_raises, update_user_raises, create_post_raises,
      delete_post_raises, follow_user_raises, unfollow_user_raises,
      like_post_raises, unlike_post_raises, add_comment_raises,
      delete_comment_raises.
Qed.

(** ** Sets stored in a dict: [setdefault(k, set()).add(x)] and [discard] *)

Section set_valued.
Implicit Types (d : gmap string (gset string)) (k a x : string).

Lemma default_gsetdefault d k a :
  default ∅ (gsetdefault k ∅ d !! a) = default ∅ (d !! a).
Proof.
  rewrite lookup_gsetdefault. destruct (decide (k = a)) as [->|]; [|done].
  by destruct (d !! a).
Qed.

Lemma default_alter_add d k x a :
  default ∅ (alter (λ S, S ∪ {[x]}) k (gsetdefault k ∅ d) !! a) =
    if decide (a = k) then default ∅ (d !! k) ∪ {[x]} else default ∅ (d !! a).
Proof.
  destruct (decide (a = k)) as [->|Hne].
  - rewrite lookup_alter_eq, lookup_gsetdefault, decide_True by done. done.
  - rewrite lookup_alter_ne by done. apply default_gsetdefault.
Qed.

Lemma default_alter_discard d k x a :
  default ∅ (alter (λ S, S ∖ {[x]}) k d !! a) =
    if decide (a = k) then default ∅ (d !! k) ∖ {[x]} else default ∅ (d !! a).
Proof.
  destruct (decide (a = k)) as [->|Hne].
  - rewrite lookup_alter_eq. destruct (d !! k); simpl; [done|].
    by rewrite empty_difference_L.
  - by rewrite lookup_alter_ne.
Qed.

End set_valued.

(** ** Reachable stores *)

Lemma reachable_ind (P : State → Prop) :
  P reset_storage →
  (∀ req s, reachable s → P s → P (handle req s).2) →
  ∀ s, reachable s → P s.
Proof.
  intros Hreset Hstep s [log Hr].
  induction Hr as [|log s req Hr IH Hfresh]; [done|].
  apply Hstep; [by exists log | done].
Qed.

Ltac unfold_handlers :=
  unfold handle, respond, create_user, update_user, create_post, delete_post,
    follow_user, unfollow_user, like_post, unlike_post, add_comment,
    delete_comment.

Ltac handler_cases :=
  unfold_handlers; repeat (case_match || case_decide); cbn [fst snd].

(** ** The follow indexes *)

Lemma follow_user_following user_id target_id s a :
  is_ok (follow_user user_id target_id s).1 = true →
  following_of (follow_user user_id target_id s).2 a =
    if decide (a = user_id) then following_of s user_id ∪ {[target_id]}
    else following_of s a.
Proof.
  intros Hok. unfold following_of. rewrite <- default_alter_add.
  revert Hok. unfold follow_user. by repeat (case_match || case_decide).
Qed.

Lemma follow_user_followers user_id target_id s a :
  is_ok (follow_user user_id target_id s).1 = true →
  followers_of (follow_user user_id target_id s).2 a =
    if decide (a = target_id) then followers_of s target_id ∪ {[user_id]}
    else followers_of s a.
Proof.
  intros Hok. unfold followers_of. rewrite <- default_alter_add.
  revert Hok. unfold follow_user. by repeat (case_match || case_decide).
Qed.

Lemma unfollow_user_following user_id target_id s a :
  is_ok (unfollow_user user_id target_id s).1 = true →
  following_of (unfollow_user user_id target_id s).2 a =
    if decide (a = user_id) then following_of s user_id ∖ {[target_id]}
    else following_of s a.
Proof.
  intros Hok. unfold following_of. rewrite <- default_alter_discard.
  revert Hok. unfold unfollow_user. by repeat (case_match || case_decide).
Qed.

Lemma unfollow_user_followers user_id target_id s a :
  is_ok (unfollow_user user_id target_id s).1 = true →
  followers_of (unfollow_user user_id target_id s).2 a =
    if decide (a = target_id) then followers_of s target_id ∖ {[user_id]}
    else followers_of s a.
Proof.
  intros Hok. unfold followers_of. rewrite <- default_alter_discard.
  revert Hok. unfold unfollow_user. by repeat (case_match || case_decide).
Qed.

(** Every other request leaves both views as they were. *)
Lemma handle_follow_views req s a :
  (∀ u t, req = POST_follow u t → is_ok (handle req s).1 = false) →
  (∀ u t, req = DELETE_follow u t → is_ok (handle req s).1 = false) →
  following_of (handle req s).2 a = following_of s a ∧
  followers_of (handle req s).2 a = followers_of s a.
Proof.
  intros Hf Hu. destruct req;
    try (specialize (Hf _ _ eq_refl)); try (specialize (Hu _ _ eq_refl));
    try (by rewrite handle_raises).
  all: handler_cases; try done.
  all: unfold following_of, followers_of; cbn; by rewrite !default_gsetdefault.
Qed.

Lemma is_ok_false {A} (r : result A) : is_ok r ≠ true → is_ok r = false.
Proof. by destruct (is_ok r). Qed.

Lemma handle_follow_symmetric req s :
  follow_symmetric s → follow_symmetric (handle req s).2.
Proof.
  intros Hs a b.
  destruct (decide (is_ok (handle req s).1 = true)) as [Hok|Hno];
    [|by rewrite handle_raises by by apply is_ok_false].
  destruct req as [| | | |u t|u t| | | |];
    try (match goal with |- context [handle ?r s] =>
           assert (∀ x, following_of (handle r s).2 x = following_of s x ∧
                        followers_of (handle r s).2 x = followers_of s x) as Hv
             by (intros x; by apply handle_follow_views)
         end;
         destruct (Hv a) as [-> _]; destruct (Hv b) as [_ ->]; apply Hs).
  - cbn [handle] in *. rewrite is_ok_respond in Hok. unfold respond; cbn [snd].
    rewrite follow_user_following, follow_user_followers by done.
    specialize (Hs a b).
    repeat case_decide; subst; set_solver.
  - cbn [handle] in *. rewrite is_ok_respond in Hok. unfold respond; cbn [snd].
    rewrite unfollow_user_following, unfollow_user_followers by done.
    specialize (Hs a b).
    repeat case_decide; subst; set_solver.
Qed.

Lemma reachable_follow_symmetric s : reachable s → follow_symmetric s.
Proof.
  apply reachable_ind.
  - intros a b. unfold following_of, followers_of. cbn. by rewrite !lookup_empty.
  - intros. by apply handle_follow_symmetric.
Qed.

Lemma reachable_with_run reqs log s :
  reachable_with log s →
  NoDup (log ++ (reqs ≫= uuid4_of))%list →
  reachable_with (log ++ (reqs ≫= uuid4_of))%list (run reqs s).
Proof.
  revert log s. induction reqs as [|req reqs IH]; intros log s Hr Hnd.
  - simpl. by rewrite app_nil_r.
  - cbn [mbind list_bind] in *. rewrite (assoc_L (++)%list) in *.
    apply IH; [|done]. constructor; [done|].
    intros id Hid Hlog. apply NoDup_app in Hnd as [Hnd _].
    apply NoDup_app in Hnd as (_ & Hnd & _). by apply (Hnd id).
Qed.

Lemma reachable_run reqs :
  NoDup (reqs ≫= uuid4_of) → reachable (run reqs reset_storage).
Proof.
  intros Hnd. exists ([] ++ (reqs ≫= uuid4_of))%list.
  apply reachable_with_run; [constructor | done].
Qed.

Lemma handle_no_self_follow req s : no_self_follow s → no_self_follow (handle req s).2.
Proof.
  intros Hs a.
  destruct (decide (is_ok (handle req s).1 = true)) as [Hok|Hno];
    [|by rewrite handle_raises by by apply is_ok_false].
  destruct req as [| | | |u t|u t| | | |];
    try (match goal with |- context [handle ?r s] =>
           assert (following_of (handle r s).2 a = following_of s a) as ->
             by (by apply handle_follow_views)
         end; apply Hs).
  - cbn [handle] in *. rewrite is_ok_respond in Hok. unfold respond; cbn [snd].
    rewrite follow_user_following by done. specialize (Hs a).
    case_decide; [subst a|done].
    assert (u ≠ t); [|set_solver].
    intros ->. revert Hok. unfold follow_user. by rewrite decide_True.
  - cbn [handle] in *. rewrite is_ok_respond in Hok. unfold respond; cbn [snd].
    rewrite unfollow_user_following by done. specialize (Hs a).
    case_decide; set_solver.
Qed.

Lemma reachable_no_self_follow s : reachable s → no_self_follow s.
Proof.
  apply reachable_ind.
  - intros a. unfold following_of. cbn. by rewrite lookup_empty.
  - intros. by apply handle_no_self_follow.
Qed.



(** C3. Atomicity on failure: whatever the request (createUser, updateUser,
    createPost, deletePost, follow, unfollow, like, unlike, createComment,
    deleteComment) and whatever the store, when the handler answers with a
    failure (an HTTPException, or the 422 of a rejected payload) the store is
    exactly the one before the call. *)
Theorem failed_request_leaves_store_unchanged (req : Request) (s : State) :
  is_ok (handle req s).1 = false → (handle req s).2 = s.
Proof. apply handle_raises. Qed.

Lemma failed_request_leaves_store_unchanged_witness :
  (handle (POST_follow "id-alice" "id-bob") (run alice_follows_bob reset_storage)).1
    = HTTPException 409 "Already following this user" ∧
  (handle (POST_follow "id-alice" "id-bob") (run alice_follows_bob reset_storage)).2
    = run alice_follows_bob reset_storage.
Proof.
  split; [by vm_compute|].
  apply failed_request_leaves_store_unchanged. by vm_compute.
Defined.

(** ** Users are never removed *)

Lemma handle_user_stays req s u :
  is_Some (users s !! u) → is_Some (users (handle req s).2 !! u).
Proof.
  intros Hu. destruct req; handler_cases; try done; cbn.
  all: rewrite lookup_insert; by case_decide.
Qed.

(** ** Edges that are there, edges that are not *)

Lemma follow_user_ok_inv user_id target_id s :
  is_ok (follow_user user_id target_id s).1 = true →
  user_id ≠ target_id ∧ is_Some (users s !! user_id) ∧
  is_Some (users s !! target_id) ∧ target_id ∉ following_of s user_id.
Proof.
  unfold follow_user. case_decide; [done|].
  destruct (users s !! user_id); [|done]. destruct (users s !! target_id); [|done].
  case_decide as Hin; [done|]. intros _. split_and!; eauto.
  revert Hin. unfold following_of. cbn. by rewrite default_gsetdefault.
Qed.

Lemma follow_user_conflict user_id target_id s :
  user_id ≠ target_id → is_Some (users s !! user_id) →
  is_Some (users s !! target_id) → target_id ∈ following_of s user_id →
  follow_user user_id target_id s =
    (HTTPException 409 "Already following this user", s).
Proof.
  intros Hne [x Hx] [y Hy] Hin. unfold follow_user.
  rewrite decide_False, Hx, Hy by done.
  assert (target_id ∈ following_of
            (with_follows (gsetdefault user_id ∅ (follows s)) s) user_id) as Hin'.
  { unfold following_of. cbn. by rewrite default_gsetdefault. }
  rewrite decide_True by done.
  by apply gsetdefault_follows_member in Hin' as [-> _].
Qed.

Lemma handle_following_stays req s a b :
  req ≠ DELETE_follow a b →
  b ∈ following_of s a → b ∈ following_of (handle req s).2 a.
Proof.
  intros Hreq Hin.
  destruct (decide (is_ok (handle req s).1 = true)) as [Hok|Hno];
    [|by rewrite handle_raises by by apply is_ok_false].
  destruct req as [| | | |u t|u t| | | |];
    try (match goal with |- context [handle ?r s] =>
           assert (following_of (handle r s).2 a = following_of s a) as ->
             by (by apply handle_follow_views)
         end; done).
  - cbn [handle] in *. rewrite is_ok_respond in Hok. unfold respond; cbn [snd].
    rewrite follow_user_following by done. case_decide; set_solver.
  - cbn [handle] in *. rewrite is_ok_respond in Hok. unfold respond; cbn [snd].
    rewrite unfollow_user_following by done.
    case_decide; [subst a|done].
    assert (t ≠ b) by congruence. set_solver.
Qed.

Lemma run_snoc reqs req s : run (reqs ++ [req]) s = (handle req (run reqs s)).2.
Proof. unfold run. by rewrite foldl_app. Qed.

Lemma unfollow_user_absent user_id target_id s :
  target_id ∉ following_of s user_id →
  (∃ detail, unfollow_user user_id target_id s = (HTTPException 404 detail, s)) ∧
  (is_Some (users s !! user_id) → is_Some (users s !! target_id) →
   unfollow_user user_id target_id s =
     (HTTPException 404 "Not following this user", s)).
Proof.
  intros Hnin. unfold unfollow_user.
  destruct (users s !! user_id); [|split; [eauto | by intros []]].
  destruct (users s !! target_id); [|split; [eauto | by intros _ []]].
  rewrite decide_False by done. eauto.
Qed.

(** ** Likes *)

Lemma like_post_ok_inv post_id payload s :
  is_ok (like_post post_id payload s).1 = true →
  is_Some (OrderedDict.get post_id (posts s)) ∧
  is_Some (users s !! LikeAction.user_id payload) ∧
  LikeAction.user_id payload ∉ likers_of s post_id.
Proof.
  unfold like_post. destruct (OrderedDict.get _ _); [|done].
  destruct (users s !! _); [|done].
  case_decide as Hin; [done|]. intros _. split_and!; eauto.
  revert Hin. unfold likers_of. cbn. by rewrite default_gsetdefault.
Qed.

Lemma like_post_likers post_id payload s p :
  is_ok (like_post post_id payload s).1 = true →
  likers_of (like_post post_id payload s).2 p =
    if decide (p = post_id)
    then likers_of s post_id ∪ {[LikeAction.user_id payload]}
    else likers_of s p.
Proof.
  intros Hok. unfold likers_of. rewrite <- default_alter_add.
  revert Hok. unfold like_post. by repeat (case_match || case_decide).
Qed.

Lemma unlike_post_likers post_id user_id s p :
  is_ok (unlike_post post_id user_id s).1 = true →
  likers_of (unlike_post post_id user_id s).2 p =
    if decide (p = post_id) then likers_of s post_id ∖ {[user_id]}
    else likers_of s p.
Proof.
  intros Hok. unfold likers_of. rewrite <- default_alter_discard.
  revert Hok. unfold unlike_post. by repeat (case_match || case_decide).
Qed.

Lemma like_post_conflict post_id payload s :
  is_Some (OrderedDict.get post_id (posts s)) →
  is_Some (users s !! LikeAction.user_id payload) →
  LikeAction.user_id payload ∈ likers_of s post_id →
  like_post post_id payload s =
    (HTTPException 409 "Post already liked by this user", s).
Proof.
  intros [x Hx] [y Hy] Hin. unfold like_post. rewrite Hx, Hy.
  assert (LikeAction.user_id payload ∈ likers_of
            (with_likes (gsetdefault post_id ∅ (likes s)) s) post_id) as Hin'.
  { unfold likers_of. cbn. by rewrite default_gsetdefault. }
  rewrite decide_True by done.
  by apply gsetdefault_likes_member in Hin' as [-> _].
Qed.

Lemma unlike_post_absent post_id user_id s :
  user_id ∉ likers_of s post_id →
  (∃ detail, unlike_post post_id user_id s = (HTTPException 404 detail, s)) ∧
  (is_Some (OrderedDict.get post_id (posts s)) →
   unlike_post post_id user_id s = (HTTPException 404 "Like not found", s)).
Proof.
  intros Hnin. unfold unlike_post.
  destruct (OrderedDict.get _ _); [|split; [eauto | by intros []]].
  rewrite decide_False by done. eauto.
Qed.

(** ** What a successful request writes *)

Lemma list_remove_first_notin x l : x ∉ l → list_remove_first x l = l.
Proof.
  induction l as [|y l IH]; simpl; [done|]. rewrite not_elem_of_cons.
  intros [Hne Hnin]. rewrite decide_False by done. by rewrite IH.
Qed.

Lemma handle_commits req s :
  is_ok (handle req s).1 = true → commits req s (handle req s).2.
Proof.
  destruct req as [uid now payload|user_id payload|pid now payload|post_id
                  |user_id target_id|user_id target_id|post_id payload
                  |post_id user_id|cid now post_id payload|comment_id];
    cbn [handle].
  - destruct (UserCreate.valid payload) eqn:Hv; [|done].
    rewrite is_ok_respond. unfold respond, create_user; cbn [snd].
    case_decide; [done|]. intros _. by constructor.
  - rewrite is_ok_respond. unfold respond, update_user; cbn [snd].
    destruct (users s !! user_id) as [user|] eqn:Hu; [|done]. intros _.
    cbn [snd].
    assert (Hgoal := commit_update_user user_id payload s user Hu).
    destruct payload as [[?|] [?|] [?|]], user; exact Hgoal.
  - destruct (PostCreate.valid payload) eqn:Hv; [|done].
    rewrite is_ok_respond. unfold respond, create_post; cbn [snd].
    destruct (users s !! _) eqn:Hu; [|done]. intros _. by constructor.
  - rewrite is_ok_respond. unfold respond, delete_post; cbn [snd].
    destruct (OrderedDict.get _ _) as [post|] eqn:Hp; [|done]. intros _.
    cbn [snd]. pose proof (commit_delete_post post_id s post Hp) as Hgoal.
    destruct s; exact Hgoal.
  - rewrite is_ok_respond. intros Hok.
    destruct (follow_user_ok_inv _ _ _ Hok) as (Hne & [x Hx] & [y Hy] & Hnin).
    unfold respond, follow_user; cbn [snd].
    rewrite decide_False, Hx, Hy by done.
    rewrite decide_False.
    + cbn [snd]. constructor; eauto.
    + unfold following_of. cbn. by rewrite default_gsetdefault.
  - rewrite is_ok_respond. unfold respond, unfollow_user; cbn [snd].
    destruct (users s !! user_id) eqn:Hx; [|done].
    destruct (users s !! target_id) eqn:Hy; [|done].
    case_decide; [|done]. intros _. by constructor.
  - rewrite is_ok_respond. intros Hok.
    destruct (like_post_ok_inv _ _ _ Hok) as ([x Hx] & [y Hy] & Hnin).
    unfold respond, like_post; cbn [snd]. rewrite Hx, Hy.
    rewrite decide_False.
    + cbn [snd].
      assert (commits (POST_like post_id payload) s
                (with_likes
                   (alter (λ x, x ∪ {[LikeAction.user_id payload]}) post_id
                      (gsetdefault post_id ∅ (likes s))) s)) as Hgoal
        by (constructor; eauto).
      destruct s; exact Hgoal.
    + unfold likers_of. cbn. by rewrite default_gsetdefault.
  - rewrite is_ok_respond. unfold respond, unlike_post; cbn [snd].
    destruct (OrderedDict.get _ _) eqn:Hp; [|done].
    case_decide; [|done]. intros _. by constructor.
  - destruct (CommentCreate.valid payload) eqn:Hv; [|done].
    rewrite is_ok_respond. unfold respond, add_comment; cbn [snd].
    destruct (OrderedDict.get _ _) eqn:Hp; [|done].
    destruct (users s !! _) eqn:Hu; [|done]. intros _. by constructor.
  - rewrite is_ok_respond. unfold respond, delete_comment; cbn [snd].
    destruct (comments s !! comment_id) as [comment|] eqn:Hc; [|done]. intros _.
    cbn [snd]. pose proof (commit_delete_comment comment_id s comment Hc) as Hgoal.
    case_decide as Hin; [done|].
    replace (alter (list_remove_first comment_id) (Comment.post_id comment)
               (post_comments s)) with (post_comments s) in Hgoal.
    + by destruct s.
    + symmetry. apply alter_id. intros l Hl. apply list_remove_first_notin.
      unfold comment_ids_of in Hin. by rewrite Hl in Hin.
Qed.

Lemma handle_cases req s :
  (handle req s).2 = s ∨ commits req s (handle req s).2.
Proof.
  destruct (decide (is_ok (handle req s).1 = true)) as [Hok|Hno].
  - right. by apply handle_commits.
  - left. by apply handle_raises, is_ok_false.
Qed.

Ltac simpl_store :=
  cbn [users posts follows followers likes comments post_comments hashtag_posts
       with_users with_posts with_follows with_followers with_likes
       with_comments with_post_comments with_hashtag_posts] in *.

(** Case analysis on a request: it raised and the store is the same, or it
    committed by one of the rules of [commits]. *)
Ltac handle_inv req s :=
  let Hc := fresh "Hc" in
  let s' := fresh "s'" in
  let Hs' := fresh "Hs'" in
  destruct (handle_cases req s) as [->|Hc];
    [ try done
    | remember ((handle req s).2) as s' eqn:Hs'; clear Hs';
      inversion Hc; subst; clear Hc; simpl_store ].

Lemma handle_post_stays req s p :
  req ≠ DELETE_posts p →
  is_Some (OrderedDict.get p (posts s)) →
  is_Some (OrderedDict.get p (posts (handle req s).2)).
Proof.
  intros Hreq Hp. handle_inv req s; try done.
  - rewrite get_set. by case_decide.
  - rewrite get_del. case_decide; [congruence|done].
Qed.

Lemma handle_liker_stays req s u p :
  req ≠ DELETE_like p u → req ≠ DELETE_posts p →
  u ∈ likers_of s p → u ∈ likers_of (handle req s).2 p.
Proof.
  intros Hreq Hreq' Hin. unfold likers_of in *. handle_inv req s; try done.
  - by rewrite default_gsetdefault.
  - rewrite lookup_delete_ne; [done|congruence].
  - rewrite default_alter_add. case_decide; set_solver.
  - rewrite default_alter_discard. case_decide; [subst|done].
    assert (user_id ≠ u) by congruence. set_solver.
Qed.

Lemma run_follow_stays reqs s a b :
  Forall (stays_followed a b) reqs →
  is_Some (users s !! a) → is_Some (users s !! b) → b ∈ following_of s a →
  is_Some (users (run reqs s) !! a) ∧ is_Some (users (run reqs s) !! b) ∧
  b ∈ following_of (run reqs s) a.
Proof.
  induction reqs as [|req reqs IH] using rev_ind; [done|].
  rewrite Forall_app, Forall_singleton, run_snoc. intros [Hall Hreq] Ha Hb Hin.
  destruct (IH Hall Ha Hb Hin) as (? & ? & ?).
  split_and!; auto using handle_user_stays, handle_following_stays.
Qed.

Lemma run_like_stays reqs s u p :
  Forall (stays_liked u p) reqs →
  is_Some (OrderedDict.get p (posts s)) → is_Some (users s !! u) →
  u ∈ likers_of s p →
  is_Some (OrderedDict.get p (posts (run reqs s))) ∧
  is_Some (users (run reqs s) !! u) ∧ u ∈ likers_of (run reqs s) p.
Proof.
  induction reqs as [|req reqs IH] using rev_ind; [done|].
  rewrite Forall_app, Forall_singleton, run_snoc. intros [Hall [Hreq Hreq']] Hp Hu Hin.
  destruct (IH Hall Hp Hu Hin) as (? & ? & ?).
  split_and!; auto using handle_user_stays, handle_post_stays, handle_liker_stays.
Qed.

(** C8. Duplicate-edge rejection and absent-edge errors.  After a successful
    follow(a,b), and whatever requests come next as long as none of them is
    unfollow(a,b), a second follow(a,b) raises 409 Conflict; after a
    successful like(u,p), and whatever requests come next as long as none
    unlikes (u,p) or deletes p, a second like(u,p) raises 409 Conflict;
    unfollow without the follow edge and unlike without the like edge raise
    404 (with the edge-level detail once the users, resp. the post, exist);
    in each of these failures the store, and so the edge sets, is unchanged. *)
Theorem duplicate_and_absent_edges (s : State) (a b u p : string) :
  (∀ reqs, is_ok (follow_user a b s).1 = true →
     Forall (stays_followed a b) reqs →
     let s' := run reqs (follow_user a b s).2 in
     follow_user a b s' = (HTTPException 409 "Already following this user", s')) ∧
  (∀ reqs, is_ok (like_post p (LikeAction.mk u) s).1 = true →
     Forall (stays_liked u p) reqs →
     let s' := run reqs (like_post p (LikeAction.mk u) s).2 in
     like_post p (LikeAction.mk u) s' =
       (HTTPException 409 "Post already liked by this user", s')) ∧
  (b ∉ following_of s a →
     (∃ detail, unfollow_user a b s = (HTTPException 404 detail, s)) ∧
     (is_Some (users s !! a) → is_Some (users s !! b) →
      unfollow_user a b s = (HTTPException 404 "Not following this user", s))) ∧
  (u ∉ likers_of s p →
     (∃ detail, unlike_post p u s = (HTTPException 404 detail, s)) ∧
     (is_Some (OrderedDict.get p (posts s)) →
      unlike_post p u s = (HTTPException 404 "Like not found", s))).
Proof.
  split_and!.
  - intros reqs Hok Hall s'.
    destruct (follow_user_ok_inv _ _ _ Hok) as (Hne & Ha & Hb & _).
    pose proof (handle_user_stays (POST_follow a b) s a Ha) as Ha'.
    pose proof (handle_user_stays (POST_follow a b) s b Hb) as Hb'.
    cbn [handle] in Ha', Hb'. unfold respond in Ha', Hb'. cbn [snd] in Ha', Hb'.
    assert (b ∈ following_of (follow_user a b s).2 a) as Hin.
    { rewrite follow_user_following, decide_True by done. set_solver. }
    destruct (run_follow_stays reqs _ a b Hall Ha' Hb' Hin) as (? & ? & ?).
    by apply follow_user_conflict.
  - intros reqs Hok Hall s'.
    destruct (like_post_ok_inv _ _ _ Hok) as (Hp & Hu & _).
    pose proof (handle_user_stays (POST_like p (LikeAction.mk u)) s u Hu) as Hu'.
    assert (POST_like p (LikeAction.mk u) ≠ DELETE_posts p) as Hd by done.
    pose proof (handle_post_stays (POST_like p (LikeAction.mk u)) s p Hd Hp) as Hp'.
    cbn [handle] in Hu', Hp'. unfold respond in Hu', Hp'. cbn [snd] in Hu', Hp'.
    assert (u ∈ likers_of (like_post p (LikeAction.mk u) s).2 p) as Hin.
    { rewrite like_post_likers, decide_True by done. set_solver. }
    destruct (run_like_stays reqs _ u p Hall Hp' Hu' Hin) as (? & ? & ?).
    by apply like_post_conflict.
  - apply unfollow_user_absent.
  - apply unlike_post_absent.
Qed.

(** Closed decidable facts about a scenario, by evaluation. *)
Ltac by_computation := apply (bool_decide_unpack _); vm_compute; exact I.

Lemma duplicate_and_absent_edges_witness :
  let s := run bob_posts reset_storage in
  let between := [ POST_follow "id-bob" "id-alice"; DELETE_like "id-post" "id-bob" ] in
  let s1 := run between (follow_user "id-alice" "id-bob" s).2 in
  let s2 := run between (like_post "id-post" (LikeAction.mk "id-alice") s).2 in
  follow_user "id-alice" "id-bob" s1 =
    (HTTPException 409 "Already following this user", s1) ∧
  like_post "id-post" (LikeAction.mk "id-alice") s2 =
    (HTTPException 409 "Post already liked by this user", s2) ∧
  unfollow_user "id-alice" "id-bob" s =
    (HTTPException 404 "Not following this user", s) ∧
  unlike_post "id-post" "id-alice" s = (HTTPException 404 "Like not found", s).
Proof.
  intros s between s1 s2.
  destruct (duplicate_and_absent_edges s "id-alice" "id-bob" "id-alice" "id-post")
    as (Hf & Hl & Hu & Hd).
  split_and!.
  - apply (Hf between); [by vm_compute|].
    unfold between, stays_followed. rewrite !Forall_cons, Forall_nil. by split_and!.
  - apply (Hl between); [by vm_compute|].
    unfold between, stays_liked. rewrite !Forall_cons, Forall_nil. by split_and!.
  - apply Hu; by_computation.
  - apply Hd; by_computation.
Defined.

(** ** Profiles *)

Lemma update_user_found user_id payload s user :
  users s !! user_id = Some user →
  update_user user_id payload s =
    (Ok (_build_user_out (updated_user payload user)
           (with_users (<[user_id := updated_user payload user]> (users s)) s)),
     with_users (<[user_id := updated_user payload user]> (users s)) s).
Proof.
  intros Hu. unfold update_user. rewrite Hu.
  by destruct payload as [[?|] [?|] [?|]], user.
Qed.

Lemma handle_user_identity req s u user :
  users s !! u = Some user →
  (∀ now payload, req ≠ POST_users u now payload) →
  ∃ user', users (handle req s).2 !! u = Some user' ∧
    User.id user' = User.id user ∧ User.username user' = User.username user ∧
    User.created_at user' = User.created_at user.
Proof.
  intros Hu Hreq. handle_inv req s; eauto.
  - rewrite lookup_insert_ne; [eauto|]. intros ->. by eapply Hreq.
  - destruct (decide (user_id = u)) as [->|Hne].
    + rewrite lookup_insert_eq. simplify_eq. eauto.
    + rewrite lookup_insert_ne by done. eauto.
Qed.

(** C7. Partial-update frame: on an existing user id, updateUser overwrites
    exactly the fields the payload carries (display name, bio, avatar
    reference), every field the payload leaves out keeps its value, no other
    user and no other store changes; the identifier, handle and creation
    timestamp of a user are changed by no request after creation (uuid4
    does not hand out the identifier of an existing user again); updateUser on
    an id that is not there raises 404 and changes nothing. *)
Theorem update_user_frame (s : State) (user_id : string) (payload : UserUpdate.t) :
  (∀ user, users s !! user_id = Some user →
     ∃ user',
       let s' := (update_user user_id payload s).2 in
       (update_user user_id payload s).1 = Ok (_build_user_out user' s') ∧
       users s' !! user_id = Some user' ∧
       User.display_name user' =
         default (User.display_name user) (UserUpdate.display_name payload) ∧
       User.bio user' = default (User.bio user) (UserUpdate.bio payload) ∧
       User.profile_pic_url user' =
         default (User.profile_pic_url user) (UserUpdate.profile_pic_url payload) ∧
       User.id user' = User.id user ∧
       User.username user' = User.username user ∧
       User.created_at user' = User.created_at user ∧
       (∀ u, u ≠ user_id → users s' !! u = users s !! u) ∧
       posts s' = posts s ∧ follows s' = follows s ∧ followers s' = followers s ∧
       likes s' = likes s ∧ comments s' = comments s ∧
       post_comments s' = post_comments s ∧ hashtag_posts s' = hashtag_posts s) ∧
  (users s !! user_id = None →
     update_user user_id payload s = (HTTPException 404 "User not found", s)) ∧
  (∀ req u user,
     users s !! u = Some user →
     (∀ now new_user, req ≠ POST_users u now new_user) →
     ∃ user', users (handle req s).2 !! u = Some user' ∧
       User.id user' = User.id user ∧ User.username user' = User.username user ∧
       User.created_at user' = User.created_at user).
Proof.
  split_and!.
  - intros user Hu. exists (updated_user payload user).
    rewrite (update_user_found _ _ _ _ Hu). cbn [fst snd]. simpl_store.
    rewrite lookup_insert_eq. split_and!; try done.
    intros u Hne. by rewrite lookup_insert_ne.
  - intros Hu. unfold update_user. by rewrite Hu.
  - intros req u user. apply handle_user_identity.
Qed.

Lemma update_user_frame_witness :
  let s := run two_users reset_storage in
  let payload := UserUpdate.mk None (Some "Photographer") None in
  (∃ user', users (update_user "id-alice" payload s).2 !! "id-alice" = Some user' ∧
     User.display_name user' = "Alice" ∧ User.bio user' = "Photographer" ∧
     User.username user' = "alice") ∧
  update_user "id-nobody" payload s = (HTTPException 404 "User not found", s).
Proof.
  intros s payload.
  destruct (update_user_frame s "id-alice" payload) as (Hfound & _ & _).
  destruct (update_user_frame s "id-nobody" payload) as (_ & Hmissing & _).
  split.
  - destruct (Hfound (User.mk "id-alice" "alice" "Alice" "" "" "2024-01-01T10:00:00"))
      as (user' & _ & Hu & Hname & Hbio & _ & _ & Hhandle & _);
      [vm_compute; reflexivity|].
    exists user'. split; [exact Hu|]. rewrite Hname, Hbio, Hhandle.
    split_and!; reflexivity.
  - apply Hmissing. vm_compute; reflexivity.
Defined.

(** ** The hashtag index under [create_post] and [delete_post] *)

Lemma get_index_tag pid (hp : odict (gset string)) tag t :
  OrderedDict.get t (index_tag pid hp tag) =
    if decide (tag = t) then Some (default ∅ (OrderedDict.get tag hp) ∪ {[pid]})
    else OrderedDict.get t hp.
Proof.
  unfold index_tag. rewrite get_adjust, !get_setdefault.
  destruct (decide (tag = t)) as [->|]; [|done].
  by rewrite decide_True.
Qed.

Lemma get_foldl_index_tag pid tags (hp : odict (gset string)) t :
  OrderedDict.get t (foldl (index_tag pid) hp tags) =
    if decide (t ∈ tags) then Some (default ∅ (OrderedDict.get t hp) ∪ {[pid]})
    else OrderedDict.get t hp.
Proof.
  revert hp. induction tags as [|tag tags IH]; intros hp; [done|].
  cbn [foldl]. rewrite IH, get_index_tag.
  destruct (decide (tag = t)) as [Heq|Hne].
  - subst t. repeat case_decide; try done.
    + cbn. f_equal. set_solver.
    + exfalso. set_solver.
    + exfalso. set_solver.
  - repeat case_decide; try done; exfalso; set_solver.
Qed.

Lemma wf_foldl_index_tag pid tags (hp : odict (gset string)) :
  OrderedDict.wf hp → OrderedDict.wf (foldl (index_tag pid) hp tags).
Proof.
  revert hp. induction tags as [|tag tags IH]; intros hp Hwf; [done|].
  cbn [foldl]. apply IH. unfold index_tag. by apply wf_adjust, wf_setdefault.
Qed.

Lemma get_deindex_tag post_id (hp : odict (gset string)) tag t :
  OrderedDict.get t (deindex_tag post_id hp tag) =
    if decide (tag = t) then (λ S, S ∖ {[post_id]}) <$> OrderedDict.get t hp
    else OrderedDict.get t hp.
Proof.
  unfold deindex_tag. destruct (decide (tag = t)) as [->|Hne].
  - destruct (OrderedDict.get t hp) as [S|] eqn:E; [|by rewrite E].
    case_decide as HS.
    + rewrite E. cbn. subst S. by rewrite empty_difference_L.
    + by rewrite get_adjust, decide_True, E.
  - destruct (OrderedDict.get tag hp) as [S|] eqn:E; [|done].
    case_decide; [done|]. by rewrite get_adjust, decide_False.
Qed.

Lemma keys_deindex_tag post_id (hp : odict (gset string)) tag :
  OrderedDict.keys (deindex_tag post_id hp tag) = OrderedDict.keys hp.
Proof.
  unfold deindex_tag. destruct (OrderedDict.get tag hp); [|done].
  case_decide; [done|]. apply keys_adjust.
Qed.

Lemma get_foldl_deindex_tag post_id tags (hp : odict (gset string)) t :
  OrderedDict.get t (foldl (deindex_tag post_id) hp tags) =
    (λ S, if decide (t ∈ tags) then S ∖ {[post_id]} else S) <$> OrderedDict.get t hp.
Proof.
  revert hp. induction tags as [|tag tags IH]; intros hp.
  - cbn. by destruct (OrderedDict.get t hp).
  - cbn [foldl]. rewrite IH, get_deindex_tag.
    destruct (decide (tag = t)) as [Heq|Hne].
    + subst t. destruct (OrderedDict.get tag hp) as [S|]; [|done]. cbn. f_equal.
      repeat case_decide; try done; try (exfalso; set_solver). set_solver.
    + destruct (OrderedDict.get t hp) as [S|]; [|done]. cbn. f_equal.
      repeat case_decide; try done; exfalso; set_solver.
Qed.

Lemma keys_foldl_deindex_tag post_id tags (hp : odict (gset string)) :
  OrderedDict.keys (foldl (deindex_tag post_id) hp tags) = OrderedDict.keys hp.
Proof.
  revert hp. induction tags as [|tag tags IH]; intros hp; [done|].
  cbn [foldl]. by rewrite IH, keys_deindex_tag.
Qed.

(** ** Lists *)

Lemma filter_ext_in {A} (P Q : A → Prop) `{!∀ x, Decision (P x), !∀ x, Decision (Q x)}
    (l : list A) :
  (∀ x, x ∈ l → P x ↔ Q x) → filter P l = filter Q l.
Proof.
  induction l as [|a l IH]; intros Hext; [done|].
  rewrite !filter_cons.
  rewrite IH by (intros x Hx; apply Hext; by right).
  destruct (decide (P a)) as [HP|HP].
  - by rewrite decide_True by (by apply Hext; [left|]).
  - rewrite decide_False; [done|]. intros HQ. apply HP, Hext; [left|done].
Qed.

Lemma filter_none {A} (P : A → Prop) `{!∀ x, Decision (P x)} (l : list A) :
  (∀ x, x ∈ l → ¬ P x) → filter P l = [].
Proof.
  induction l as [|a l IH]; intros Hno; [done|].
  rewrite filter_cons, decide_False by (apply Hno; left).
  apply IH. intros x Hx. apply Hno. by right.
Qed.

Lemma filter_all {A} (P : A → Prop) `{!∀ x, Decision (P x)} (l : list A) :
  (∀ x, x ∈ l → P x) → filter P l = l.
Proof.
  induction l as [|a l IH]; intros Hall; [done|].
  rewrite filter_cons, decide_True by (apply Hall; left).
  f_equal. apply IH. intros x Hx. apply Hall. by right.
Qed.

Lemma list_remove_first_filter x l :
  NoDup l → list_remove_first x l = filter (λ y, y ≠ x) l.
Proof.
  induction 1 as [|y l Hy Hnd IH]; [done|]. cbn [list_remove_first].
  rewrite filter_cons. destruct (decide (y = x)) as [->|Hne].
  - rewrite decide_False by (by intros ?). symmetry.
    apply filter_all. by intros z Hz ->.
  - rewrite decide_True by done. by rewrite IH.
Qed.

(** ** The index invariant holds in every reachable store *)

Lemma is_comment_of_spec s p c :
  is_comment_of s p c ↔ ∃ cm, comments s !! c = Some cm ∧ Comment.post_id cm = p.
Proof.
  unfold is_comment_of. destruct (comments s !! c) as [cm|].
  - rewrite bool_decide_spec. split; [eauto | by intros (? & [= <-] & ?)].
  - split; [done | by intros (? & ? & ?)].
Qed.

Lemma store_inv_reset : store_inv [] reset_storage.
Proof.
  split; cbn; try done; apply NoDup_nil_2.
Qed.

Lemma store_inv_fresh log s id :
  store_inv log s → id ∉ log → store_inv (log ++ [id]) s.
Proof.
  intros [Hlog Hpw Htw Hpost Hts Htc Hcom Hpc] Hid. split; try done.
  - apply NoDup_app. split_and!; [done| |apply NoDup_singleton].
    intros x Hx Hx'. apply list_elem_of_singleton in Hx'. by subst.
  - intros pid post Hp. destruct (Hpost _ _ Hp) as (? & ? & ?).
    split_and!; [done| |done]. apply elem_of_app. by left.
  - intros cid cm Hc. destruct (Hcom _ _ Hc) as (? & ? & ?).
    split_and!; [done| |done]. apply elem_of_app. by left.
  - intros pid l Hl. destruct (Hpc _ _ Hl) as [? ->]. split; [done|].
    rewrite filter_app, (filter_none _ [id]), app_nil_r; [done|].
    intros x ->%list_elem_of_singleton (cm & Hc & _)%is_comment_of_spec.
    by destruct (Hcom _ _ Hc) as (_ & ? & _).
Qed.

Lemma store_inv_frame log s s' :
  posts s' = posts s → hashtag_posts s' = hashtag_posts s →
  comments s' = comments s → post_comments s' = post_comments s →
  store_inv log s → store_inv log s'.
Proof.
  intros Hp Hh Hc Hpc [Hlog Hpw Htw Hpost Hts Htc Hcom Hpcs].
  split; unfold posts_for_tag, is_comment_of in *;
    by rewrite ?Hp, ?Hh, ?Hc, ?Hpc.
Qed.

Lemma store_inv_create_post log s s' pid post :
  store_inv log s → pid ∉ log → Post.id post = pid →
  posts s' = OrderedDict.set pid post (posts s) →
  post_comments s' = gsetdefault pid [] (post_comments s) →
  hashtag_posts s' = foldl (index_tag pid) (hashtag_posts s) (Post.hashtags post) →
  comments s' = comments s →
  store_inv (log ++ [pid]) s'.
Proof.
  intros Hinv Hpid Hid Hp Hpc Hh Hc.
  assert (OrderedDict.get pid (posts s) = None) as Hnew.
  { destruct (OrderedDict.get pid (posts s)) eqn:E; [|done].
    by destruct (inv_post _ _ Hinv _ _ E) as (_ & ? & _). }
  assert (post_comments s !! pid = None) as Hnewpc.
  { destruct (post_comments s !! pid) eqn:E; [|done].
    destruct (inv_post_comments _ _ Hinv _ _ E) as [[? ?] _]. congruence. }
  assert (comments s !! pid = None) as Hnewc.
  { destruct (comments s !! pid) eqn:E; [|done].
    by destruct (inv_comment _ _ Hinv _ _ E) as (_ & ? & _). }
  apply (store_inv_fresh _ _ pid) in Hinv; [|done].
  destruct Hinv as [Hlog Hpw Htw Hpost Hts Htc Hcom Hpcs].
  split; unfold posts_for_tag, is_comment_of in *; rewrite ?Hp, ?Hpc, ?Hh, ?Hc.
  - done.
  - by apply wf_set.
  - by apply wf_foldl_index_tag.
  - intros k q. rewrite get_set, lookup_gsetdefault.
    destruct (decide (pid = k)) as [<-|Hne].
    + intros [= <-]. split_and!; [done| |eauto]. apply elem_of_app. right. by left.
    + apply Hpost.
  - intros tag k. rewrite get_foldl_index_tag, get_set.
    destruct (decide (tag ∈ Post.hashtags post)) as [Htag|Htag]; cbn.
    + rewrite elem_of_union, elem_of_singleton. intros [Hk| ->].
      * destruct (Hts _ _ Hk) as (q & Hq & ?). exists q.
        rewrite decide_False by congruence. done.
      * exists post. by rewrite decide_True.
    + intros Hk. destruct (Hts _ _ Hk) as (q & Hq & ?). exists q.
      rewrite decide_False by congruence. done.
  - intros k q tag. rewrite get_set, get_foldl_index_tag.
    destruct (decide (pid = k)) as [<-|Hne].
    + intros [= <-] Htag. rewrite decide_True by done. cbn. set_solver.
    + intros Hq Htag. specialize (Htc _ _ _ Hq Htag).
      case_decide; cbn; [|done]. set_solver.
  - intros cid cm Hcm. destruct (Hcom _ _ Hcm) as (? & ? & [q Hq]).
    split_and!; [done..|]. rewrite get_set. case_decide; eauto.
  - intros k l. rewrite lookup_gsetdefault, get_set.
    destruct (decide (pid = k)) as [<-|Hne].
    + rewrite Hnewpc. intros [= <-]. split; [eauto|]. symmetry.
      apply filter_none. intros c _ Hcm.
      destruct (comments s !! c) as [cm|] eqn:E; [|done].
      apply bool_decide_unpack in Hcm.
      destruct (Hcom _ _ E) as (_ & _ & [? ?]). congruence.
    + apply Hpcs.
Qed.

Lemma store_inv_add_comment log s s' cid cm :
  store_inv log s → cid ∉ log → Comment.id cm = cid →
  is_Some (OrderedDict.get (Comment.post_id cm) (posts s)) →
  posts s' = posts s → hashtag_posts s' = hashtag_posts s →
  comments s' = <[cid := cm]> (comments s) →
  post_comments s' =
    alter (λ l, (l ++ [cid])%list) (Comment.post_id cm)
      (gsetdefault (Comment.post_id cm) [] (post_comments s)) →
  store_inv (log ++ [cid]) s'.
Proof.
  intros Hinv Hcid Hid Hparent Hp Hh Hc Hpc.
  assert (comments s !! cid = None) as Hnew.
  { destruct (comments s !! cid) eqn:E; [|done].
    by destruct (inv_comment _ _ Hinv _ _ E) as (_ & ? & _). }
  pose proof (inv_log _ _ Hinv) as Hnd.
  apply (store_inv_fresh _ _ cid) in Hinv; [|done].
  destruct Hinv as [Hlog Hpw Htw Hpost Hts Htc Hcom Hpcs].
  split; unfold posts_for_tag in *; rewrite ?Hp, ?Hh; try done.
  - intros k q Hq. destruct (Hpost _ _ Hq) as (? & ? & [l Hl]).
    split_and!; [done..|]. rewrite Hpc.
    destruct (decide (k = Comment.post_id cm)) as [->|Hne].
    + rewrite lookup_alter_eq, lookup_gsetdefault, decide_True, Hl by done. eauto.
    + rewrite lookup_alter_ne, lookup_gsetdefault, decide_False, Hl by done. eauto.
  - intros c x. rewrite Hc, lookup_insert.
    destruct (decide (cid = c)) as [<-|Hne].
    + intros [= <-]. split_and!; [done| |done]. apply elem_of_app. right. by left.
    + apply Hcom.
  - intros k l. rewrite Hpc.
    assert (∀ c, c ∈ log →
              is_comment_of s' k c ↔ is_comment_of s k c) as Hold.
    { intros c Hin. unfold is_comment_of. rewrite Hc, lookup_insert_ne; [done|].
      by intros <-. }
    assert (is_comment_of s' k cid ↔ k = Comment.post_id cm) as Hcur.
    { unfold is_comment_of. rewrite Hc, lookup_insert_eq, bool_decide_spec.
      split; congruence. }
    destruct (decide (k = Comment.post_id cm)) as [->|Hne].
    + rewrite lookup_alter_eq, lookup_gsetdefault, decide_True by done.
      destruct Hparent as [q Hq]. destruct (Hpost _ _ Hq) as (_ & _ & [l0 Hl0]).
      rewrite Hl0. cbn. intros [= <-]. split; [eauto|].
      destruct (Hpcs _ _ Hl0) as [_ ->].
      rewrite !filter_app, (filter_none _ [cid]), app_nil_r.
      * rewrite (filter_ext_in _ _ log Hold). f_equal.
        rewrite filter_cons, decide_True by (by apply Hcur). done.
      * intros c ->%list_elem_of_singleton (x & Hx & _)%is_comment_of_spec. congruence.
    + rewrite lookup_alter_ne, lookup_gsetdefault, decide_False by done.
      intros Hl. destruct (Hpcs _ _ Hl) as [? ->]. split; [done|].
      rewrite !filter_app, !(filter_none _ [cid]).
      * by rewrite (filter_ext_in _ _ log Hold).
      * intros c ->%list_elem_of_singleton Hx. by apply Hne, Hcur.
      * intros c ->%list_elem_of_singleton (x & Hx & _)%is_comment_of_spec. congruence.
Qed.

Lemma store_inv_delete_comment log s s' cid cm :
  store_inv log s → comments s !! cid = Some cm →
  posts s' = posts s → hashtag_posts s' = hashtag_posts s →
  comments s' = delete cid (comments s) →
  post_comments s' =
    alter (list_remove_first cid) (Comment.post_id cm) (post_comments s) →
  store_inv log s'.
Proof.
  intros [Hlog Hpw Htw Hpost Hts Htc Hcom Hpcs] Hcm Hp Hh Hc Hpc.
  split; unfold posts_for_tag in *; rewrite ?Hp, ?Hh; try done.
  - intros k q Hq. destruct (Hpost _ _ Hq) as (? & ? & [l Hl]).
    split_and!; [done..|]. rewrite Hpc.
    destruct (decide (k = Comment.post_id cm)) as [->|Hne].
    + rewrite lookup_alter_eq, Hl. cbn. eauto.
    + rewrite lookup_alter_ne, Hl by done. eauto.
  - intros c x. rewrite Hc, lookup_delete. case_decide; [done|]. apply Hcom.
  - intros k l. rewrite Hpc.
    assert (∀ c, is_comment_of s' k c ↔ is_comment_of s k c ∧ c ≠ cid) as Hnow.
    { intros c. unfold is_comment_of. rewrite Hc, lookup_delete.
      destruct (decide (cid = c)) as [<-|Hne]; [by split; [|intros []]|].
      split; [by split|by intros []]. }
    destruct (decide (k = Comment.post_id cm)) as [->|Hne].
    + rewrite lookup_alter_eq.
      destruct (post_comments s !! Comment.post_id cm) as [l0|] eqn:Hl0; [|done].
      cbn. intros [= <-]. destruct (Hpcs _ _ Hl0) as [? ->]. split; [done|].
      rewrite list_remove_first_filter by by apply NoDup_filter.
      rewrite list_filter_filter. apply list_filter_iff. intros c.
      rewrite Hnow. tauto.
    + rewrite lookup_alter_ne by done. intros Hl.
      destruct (Hpcs _ _ Hl) as [? ->]. split; [done|].
      apply list_filter_iff. intros c. rewrite Hnow. split; [|tauto].
      intros Hk. split; [done|]. intros ->.
      apply is_comment_of_spec in Hk as (x & Hx & ?). congruence.
Qed.

Lemma store_inv_delete_post log s s' post_id post :
  store_inv log s → OrderedDict.get post_id (posts s) = Some post →
  posts s' = OrderedDict.del post_id (posts s) →
  hashtag_posts s' =
    foldl (deindex_tag post_id) (hashtag_posts s) (Post.hashtags post) →
  comments s' =
    foldl (λ cs cid, delete cid cs) (comments s) (comment_ids_of s post_id) →
  post_comments s' = delete post_id (post_comments s) →
  store_inv log s'.
Proof.
  intros [Hlog Hpw Htw Hpost Hts Htc Hcom Hpcs] Hq Hp Hh Hc Hpc.
  assert (∀ c x, comments s' !! c = Some x ↔
                 comments s !! c = Some x ∧ Comment.post_id x ≠ post_id) as Hleft.
  { intros c x. rewrite Hc, lookup_foldl_delete.
    destruct (Hpost _ _ Hq) as (_ & _ & [l Hl]).
    unfold comment_ids_of. rewrite Hl. cbn. destruct (Hpcs _ _ Hl) as [_ ->].
    case_decide as Hin.
    - apply list_elem_of_filter in Hin as [(y & Hy & ?)%is_comment_of_spec _].
      split; [done|]. intros [? ?]. congruence.
    - split; [|by intros []]. intros Hx. split; [done|]. intros Hpar.
      apply Hin, list_elem_of_filter. split.
      + apply is_comment_of_spec. eauto.
      + by destruct (Hcom _ _ Hx) as (_ & ? & _). }
  split; unfold posts_for_tag in *; rewrite ?Hp, ?Hh; try done.
  - by apply wf_del.
  - unfold OrderedDict.wf. by rewrite keys_foldl_deindex_tag.
  - intros k q. rewrite get_del, Hpc. case_decide; [done|].
    rewrite lookup_delete_ne by done. apply Hpost.
  - intros tag k. rewrite get_foldl_deindex_tag, get_del.
    destruct (OrderedDict.get tag (hashtag_posts s)) as [S|] eqn:E; cbn; [|set_solver].
    intros Hk. assert (k ∈ S) as HkS by (case_decide; set_solver).
    destruct (Hts tag k) as (q & Hkq & Htag); [by rewrite E|].
    exists q. rewrite decide_False; [done|]. intros <-.
    assert (q = post) by congruence. subst q.
    rewrite decide_True in Hk by done. set_solver.
  - intros k q tag. rewrite get_del, get_foldl_deindex_tag.
    case_decide as Hne; [done|]. intros Hkq Htag.
    specialize (Htc _ _ _ Hkq Htag).
    destruct (OrderedDict.get tag (hashtag_posts s)) as [S|] eqn:E; cbn in *; [|done].
    case_decide; set_solver.
  - intros c x [Hx Hpar]%Hleft. destruct (Hcom _ _ Hx) as (? & ? & ?).
    split_and!; [done..|]. rewrite get_del. by rewrite decide_False by congruence.
  - intros k l. rewrite Hpc, lookup_delete, get_del.
    case_decide as Hne; [done|]. intros Hl.
    destruct (Hpcs _ _ Hl) as [? ->]. split; [done|].
    apply list_filter_iff. intros c. rewrite !is_comment_of_spec.
    split.
    + intros (x & Hx & <-). exists x. split; [|done]. apply Hleft. split; [done|].
      congruence.
    + intros (x & [Hx _]%Hleft & <-). eauto.
Qed.

Lemma commits_store_inv log req s s' :
  store_inv log s → (∀ id, id ∈ uuid4_of req → id ∉ log) →
  commits req s s' → store_inv (log ++ uuid4_of req) s'.
Proof.
  intros Hinv Hfresh Hc.
  inversion Hc; subst; cbn [uuid4_of] in *; rewrite ?app_nil_r.
  - apply store_inv_fresh; [|apply Hfresh; by left].
    by apply (store_inv_frame _ s).
  - by apply (store_inv_frame _ s).
  - eapply (store_inv_create_post _ s _ pid (Post.mk pid _ _ _ _ _ _));
      [done|apply Hfresh; by left|reflexivity..].
  - by eapply store_inv_delete_post.
  - by apply (store_inv_frame _ s).
  - by apply (store_inv_frame _ s).
  - by apply (store_inv_frame _ s).
  - by apply (store_inv_frame _ s).
  - eapply (store_inv_add_comment _ s _ cid (Comment.mk cid _ _ _ _));
      [done|apply Hfresh; by left|reflexivity|done|reflexivity..].
  - by eapply store_inv_delete_comment.
Qed.

Lemma handle_store_inv log req s :
  store_inv log s → (∀ id, id ∈ uuid4_of req → id ∉ log) →
  store_inv (log ++ uuid4_of req) (handle req s).2.
Proof.
  intros Hinv Hfresh. destruct (handle_cases req s) as [->|Hc].
  - destruct req; cbn [uuid4_of] in *; rewrite ?app_nil_r; try done;
      (apply store_inv_fresh; [done|apply Hfresh; by left]).
  - by apply (commits_store_inv _ _ s).
Qed.

Lemma reachable_with_store_inv log s : reachable_with log s → store_inv log s.
Proof.
  induction 1 as [|log s req Hr IH Hfresh]; [apply store_inv_reset|].
  by apply handle_store_inv.
Qed.

(** ** Cascading delete *)

Lemma delete_post_found post_id s post :
  OrderedDict.get post_id (posts s) = Some post →
  delete_post post_id s =
    (Ok "Post deleted",
     with_posts (OrderedDict.del post_id (posts s))
       (with_likes (delete post_id (likes s))
          (with_comments
             (foldl (λ cs cid, delete cid cs) (comments s) (comment_ids_of s post_id))
             (with_post_comments (delete post_id (post_comments s))
                (with_hashtag_posts
                   (foldl (deindex_tag post_id) (hashtag_posts s) (Post.hashtags post))
                   s))))).
Proof. intros Hp. unfold delete_post. rewrite Hp. by destruct s. Qed.

(** C2. Cascade-delete completeness: in a reachable store in which post p
    exists, deletePost(p) succeeds, and afterwards getPost(p) raises 404, every
    comment whose parent was p is gone from the comment store (and no stored
    comment has p as its parent), p's comment-id sequence and p's like-set are
    removed, and no tag's post-set contains p. *)
Theorem delete_post_cascade (s : State) (p : string) :
  reachable s → is_Some (OrderedDict.get p (posts s)) →
  let s' := (delete_post p s).2 in
  (delete_post p s).1 = Ok "Post deleted" ∧
  get_post p s' = HTTPException 404 "Post not found" ∧
  (∀ c comment, comments s !! c = Some comment → Comment.post_id comment = p →
     comments s' !! c = None) ∧
  (∀ c comment, comments s' !! c = Some comment → Comment.post_id comment ≠ p) ∧
  post_comments s' !! p = None ∧
  likes s' !! p = None ∧
  (∀ tag, p ∉ posts_for_tag s' tag).
Proof.
  intros [log Hr%reachable_with_store_inv] [post Hp].
  rewrite (delete_post_found _ _ _ Hp). cbn [fst snd].
  set (s' := with_posts _ _).
  assert (store_inv log s') as Hinv' by (by eapply store_inv_delete_post).
  assert (OrderedDict.get p (posts s') = None) as Hgone.
  { subst s'. simpl_store. by rewrite get_del, decide_True. }
  assert (∀ c comment, comments s' !! c = Some comment → Comment.post_id comment ≠ p)
    as Hnone.
  { intros c x Hx Hpar. destruct (inv_comment _ _ Hinv' _ _ Hx) as (_ & _ & [? ?]).
    congruence. }
  split_and!; try done.
  - unfold get_post. by rewrite Hgone.
  - intros c x Hx Hpar. destruct (comments s' !! c) as [y|] eqn:Hy; [|done].
    exfalso. apply (Hnone _ _ Hy). revert Hy. subst s'. simpl_store.
    rewrite lookup_foldl_delete. case_decide; [done|]. congruence.
  - subst s'. simpl_store. apply lookup_delete_eq.
  - subst s'. simpl_store. apply lookup_delete_eq.
  - intros tag Hin. destruct (inv_tag_sound _ _ Hinv' _ _ Hin) as (? & ? & _).
    congruence.
Qed.

Lemma delete_post_cascade_witness :
  let s := run alice_reacts reset_storage in
  let s' := (delete_post "id-post" s).2 in
  comments s !! "id-comment" =
    Some (Comment.mk "id-comment" "id-alice" "id-post" "Nice shot!"
            "2024-01-01T10:06:00") ∧
  get_post "id-post" s' = HTTPException 404 "Post not found" ∧
  comments s' !! "id-comment" = None ∧
  post_comments s' !! "id-post" = None ∧
  likes s' !! "id-post" = None ∧
  "id-post" ∉ posts_for_tag s' "world".
Proof.
  intros s s'.
  assert (reachable s) as Hr by (apply reachable_run; by_computation).
  assert (is_Some (OrderedDict.get "id-post" (posts s))) as Hp by by_computation.
  destruct (delete_post_cascade s "id-post" Hr Hp)
    as (_ & Hget & Hcs & _ & Hseq & Hlikes & Htags).
  assert (comments s !! "id-comment" =
            Some (Comment.mk "id-comment" "id-alice" "id-post" "Nice shot!"
                    "2024-01-01T10:06:00")) as Hc by (vm_compute; reflexivity).
  split_and!; [exact Hc|exact Hget| |exact Hseq|exact Hlikes|apply Htags].
  exact (Hcs _ _ Hc eq_refl).
Defined.

(** ** Comment sequences *)

Lemma omap_lookup_ids (m : gmap string Comment.t) (l : list string) :
  (∀ c, c ∈ l → ∃ cm, m !! c = Some cm ∧ Comment.id cm = c) →
  Comment.id <$> omap (λ c, m !! c) l = l.
Proof.
  induction l as [|c l IH]; intros Hl; [done|]. cbn [omap list_omap].
  destruct (Hl c) as (cm & -> & Hid); [by left|]. csimpl. rewrite Hid. f_equal.
  apply IH. intros x Hx. apply Hl. by right.
Qed.

Lemma comment_out_id (l : list Comment.t) :
  CommentOut.id <$> (_build_comment_out <$> l) = Comment.id <$> l.
Proof. rewrite <- list_fmap_compose. by apply list_fmap_ext. Qed.

Lemma store_inv_comment_ids log s p :
  store_inv log s → is_Some (OrderedDict.get p (posts s)) →
  comment_ids_of s p = filter (λ c, is_comment_of s p c) log.
Proof.
  intros Hinv [post Hp]. destruct (inv_post _ _ Hinv _ _ Hp) as (_ & _ & [l Hl]).
  unfold comment_ids_of. rewrite Hl. cbn. by destruct (inv_post_comments _ _ Hinv _ _ Hl).
Qed.

Lemma store_inv_comment_ids_elem log s p c :
  store_inv log s → c ∈ comment_ids_of s p → is_comment_of s p c.
Proof.
  intros Hinv. unfold comment_ids_of.
  destruct (post_comments s !! p) as [l|] eqn:Hl; cbn; [|by intros ?%elem_of_nil].
  destruct (inv_post_comments _ _ Hinv _ _ Hl) as [_ ->].
  by intros [? _]%list_elem_of_filter.
Qed.

Lemma store_inv_comment_ids_NoDup log s p :
  store_inv log s → NoDup (comment_ids_of s p).
Proof.
  intros Hinv. unfold comment_ids_of.
  destruct (post_comments s !! p) as [l|] eqn:Hl; cbn; [|apply NoDup_nil_2].
  destruct (inv_post_comments _ _ Hinv _ _ Hl) as [_ ->].
  apply NoDup_filter, (inv_log _ _ Hinv).
Qed.

Lemma delete_comment_found comment_id s comment p :
  comments s !! comment_id = Some comment →
  comment_ids_of (delete_comment comment_id s).2 p =
    if decide (p = Comment.post_id comment)
    then list_remove_first comment_id (comment_ids_of s p)
    else comment_ids_of s p.
Proof.
  intros Hc.
  pose proof (handle_commits (DELETE_comments comment_id) s) as Hcm.
  cbn [handle] in Hcm. rewrite is_ok_respond in Hcm. unfold respond in Hcm.
  cbn [snd] in Hcm.
  assert (is_ok (delete_comment comment_id s).1 = true) as Hok.
  { unfold delete_comment. by rewrite Hc. }
  specialize (Hcm Hok). remember ((delete_comment comment_id s).2) as s' eqn:Hs'.
  clear Hs' Hok. inversion Hcm; subst. simplify_eq.
  unfold comment_ids_of. simpl_store.
  destruct (decide (p = Comment.post_id comment)) as [->|Hne].
  - rewrite lookup_alter_eq. by destruct (post_comments s !! _).
  - by rewrite lookup_alter_ne.
Qed.

(** C9. Comment-sequence ordering invariant.  [log] lists the identifiers in
    the order uuid4 issued them, that is the order of creation.  In every
    reachable store and for every existing post p: p's comment-id sequence is
    the creation log restricted to the stored comments whose parent is p
    (exactly their identifiers, oldest first, each once), and listing the
    comments of p returns exactly these comments in this order; deleting a
    comment removes that identifier only and leaves the order of the rest,
    in every sequence. *)
Theorem comment_sequence_order (log : list string) (s : State) :
  reachable_with log s →
  (∀ p, is_Some (OrderedDict.get p (posts s)) →
     comment_ids_of s p = filter (λ c, is_comment_of s p c) log ∧
     (∀ c, c ∈ comment_ids_of s p ↔
           ∃ comment, comments s !! c = Some comment ∧ Comment.post_id comment = p) ∧
     NoDup (comment_ids_of s p) ∧
     ∃ outs, get_comments p s = Ok outs ∧
             CommentOut.id <$> outs = comment_ids_of s p ∧
             Forall (λ out, CommentOut.post_id out = p) outs) ∧
  (∀ c, is_ok (delete_comment c s).1 = true →
     ∀ p, comment_ids_of (delete_comment c s).2 p =
          filter (λ x, x ≠ c) (comment_ids_of s p)).
Proof.
  intros Hinv%reachable_with_store_inv. split.
  - intros p Hp. pose proof (store_inv_comment_ids _ _ _ Hinv Hp) as Hids.
    split_and!; [done| |by eapply store_inv_comment_ids_NoDup|].
    + intros c. rewrite Hids, list_elem_of_filter, is_comment_of_spec.
      split; [by intros []|]. intros (x & Hx & Hpar). split; [eauto|].
      by destruct (inv_comment _ _ Hinv _ _ Hx) as (_ & ? & _).
    + unfold get_comments. destruct Hp as [post ->]. eexists. split; [done|].
      split.
      * rewrite comment_out_id. apply omap_lookup_ids. intros c Hc.
        apply (store_inv_comment_ids_elem _ _ _ _ Hinv), is_comment_of_spec in Hc
          as (x & Hx & _).
        exists x. split; [done|]. by destruct (inv_comment _ _ Hinv _ _ Hx).
      * apply Forall_fmap, Forall_forall. intros x Hx. cbn.
        apply list_elem_of_omap in Hx as (c & Hc & Hx).
        apply (store_inv_comment_ids_elem _ _ _ _ Hinv), is_comment_of_spec in Hc
          as (y & Hy & ?).
        congruence.
  - intros c Hok p.
    destruct (comments s !! c) as [comment|] eqn:Hc;
      [|by unfold delete_comment in Hok; rewrite Hc in Hok].
    rewrite (delete_comment_found _ _ _ _ Hc).
    case_decide as Hp.
    + apply list_remove_first_filter. by eapply store_inv_comment_ids_NoDup.
    + symmetry. apply filter_all. intros x Hx ->.
      apply (store_inv_comment_ids_elem _ _ _ _ Hinv), is_comment_of_spec in Hx
        as (y & Hy & ?).
      congruence.
Qed.

Lemma comment_sequence_order_witness :
  let s := run bob_answers reset_storage in
  let log := ["id-alice"; "id-bob"; "id-post"; "id-comment"; "id-answer"] in
  comment_ids_of s "id-post" = ["id-comment"; "id-answer"] ∧
  comment_ids_of s "id-post" = filter (λ c, is_comment_of s "id-post" c) log ∧
  (∃ outs, get_comments "id-post" s = Ok outs ∧
           CommentOut.id <$> outs = comment_ids_of s "id-post") ∧
  comment_ids_of (delete_comment "id-comment" s).2 "id-post" =
    filter (λ x, x ≠ "id-comment") (comment_ids_of s "id-post").
Proof.
  intros s log.
  assert (reachable_with log s) as Hr.
  { apply (reachable_with_run bob_answers [] reset_storage); [constructor|].
    by_computation. }
  destruct (comment_sequence_order log s Hr) as [Hseq Hdel].
  destruct (Hseq "id-post") as (Hids & _ & _ & outs & Hget & Houts & _);
    [by_computation|].
  split_and!.
  - vm_compute; reflexivity.
  - exact Hids.
  - exists outs. by split.
  - apply Hdel. vm_compute; reflexivity.
Defined.

(** ** Posts and the hashtag index *)

Lemma store_inv_values log s post :
  store_inv log s →
  post ∈ OrderedDict.values (posts s) ↔
  OrderedDict.get (Post.id post) (posts s) = Some post.
Proof.
  intros Hinv. unfold OrderedDict.values. split.
  - intros ([k v] & -> & Hin)%list_elem_of_fmap. cbn.
    apply elem_of_get in Hin; [|apply (inv_posts_wf _ _ Hinv)].
    destruct (inv_post _ _ Hinv _ _ Hin) as [-> _]. done.
  - intros Hget%get_Some_elem_of. apply list_elem_of_fmap.
    by exists (Post.id post, post).
Qed.

Lemma store_inv_post_ids log s :
  store_inv log s →
  Post.id <$> OrderedDict.values (posts s) = OrderedDict.keys (posts s).
Proof.
  intros Hinv. unfold OrderedDict.values, OrderedDict.keys.
  rewrite <- list_fmap_compose. apply Forall_fmap_ext_1, Forall_forall.
  intros [k v] Hin. cbn.
  apply elem_of_get in Hin; [|apply (inv_posts_wf _ _ Hinv)].
  by destruct (inv_post _ _ Hinv _ _ Hin) as [-> _].
Qed.

Lemma NoDup_sublist_keys {A} (l1 l2 : list A) :
  l1 `sublist_of` l2 → NoDup l2 → NoDup l1.
Proof. intros Hsub Hnd. by eapply sublist_NoDup. Qed.

Lemma store_inv_tag_set log s tag :
  store_inv log s →
  posts_for_tag s tag = list_to_set (Post.id <$> posts_tagged s tag) ∧
  NoDup (Post.id <$> posts_tagged s tag).
Proof.
  intros Hinv. split.
  - apply set_eq. intros pid.
    rewrite elem_of_list_to_set, list_elem_of_fmap. unfold posts_tagged. split.
    + intros (post & Hp & Htag)%(inv_tag_sound _ _ Hinv).
      exists post. destruct (inv_post _ _ Hinv _ _ Hp) as [Hid _].
      split; [done|]. apply list_elem_of_filter. split; [done|].
      apply (store_inv_values _ _ _ Hinv). by rewrite Hid.
    + intros (post & -> & [Htag Hin]%list_elem_of_filter).
      apply (store_inv_values _ _ _ Hinv) in Hin.
      by apply (inv_tag_complete _ _ Hinv _ post).
  - apply (NoDup_sublist_keys (Post.id <$> posts_tagged s tag)
             (OrderedDict.keys (posts s))); [|apply (inv_posts_wf _ _ Hinv)].
    rewrite <- (store_inv_post_ids _ _ Hinv).
    apply fmap_sublist, sublist_filter.
Qed.

Lemma store_inv_tag_count log s tag :
  store_inv log s → size (posts_for_tag s tag) = length (posts_tagged s tag).
Proof.
  intros Hinv. destruct (store_inv_tag_set _ _ tag Hinv) as [-> Hnd].
  by rewrite size_list_to_set, length_fmap.
Qed.

(** ** Trending *)

Lemma StronglySorted_impl {A} (R1 R2 : A → A → Prop) l :
  (∀ x y, R1 x y → R2 x y) → StronglySorted R1 l → StronglySorted R2 l.
Proof.
  intros Himpl. induction 1 as [|x l Hs IH Hall]; constructor; [done|].
  eapply Forall_impl; [done|]. intros y. apply Himpl.
Qed.

Lemma trending_ranking s :
  ∃ ranked,
    explore_trending s = take 10 ranked ∧
    ranked ≡ₚ (λ kv, HashtagCount.mk kv.1 (size kv.2)) <$>
                filter (λ kv, kv.2 ≠ (∅ : gset string)) (hashtag_posts s) ∧
    StronglySorted count_ge ranked.
Proof.
  eexists. split; [done|]. split.
  - apply sort_desc_Permutation.
  - eapply StronglySorted_impl;
      [|apply (sort_desc_StronglySorted Nat.leb HashtagCount.count nat_leb_total),
          nat_leb_trans].
    intros x y. unfold desc, count_ge. apply Nat.leb_le.
Qed.

Lemma explore_trending_elem s e :
  e ∈ explore_trending s →
  ∃ post_ids, (HashtagCount.tag e, post_ids) ∈ hashtag_posts s ∧
              post_ids ≠ ∅ ∧ HashtagCount.count e = size post_ids.
Proof.
  destruct (trending_ranking s) as (ranked & -> & Hperm & _).
  intros Hin%subseteq_take. rewrite Hperm in Hin.
  apply list_elem_of_fmap in Hin as ([t S] & -> & [Hne Hin]%list_elem_of_filter).
  by exists S.
Qed.

Lemma create_post_found pid now payload s :
  is_ok (create_post pid now payload s).1 = true →
  OrderedDict.get pid (posts (create_post pid now payload s).2) =
    Some (Post.mk pid (PostCreate.user_id payload) (PostCreate.media_url payload)
            (PostCreate.media_type payload) (PostCreate.caption payload)
            (Text.lower <$> Text.findall (PostCreate.caption payload)) now) ∧
  hashtag_posts (create_post pid now payload s).2 =
    foldl (index_tag pid) (hashtag_posts s)
      (Text.lower <$> Text.findall (PostCreate.caption payload)).
Proof.
  unfold create_post. destruct (users s !! _); [|done]. intros _.
  cbn [snd]. simpl_store. split; [|done]. by rewrite get_set, decide_True.
Qed.

(** C10. The hashtag index deduplicates per post.  A created post stores one
    lowercase entry per occurrence of a tag in its caption (the list of the
    regex matches, lowercased, repeats included), while each tag's post-set,
    being a set, holds the post's identifier (once); so in every reachable
    store the count trending reports for a tag is the number of stored posts
    that carry the tag, each post counted once however often its caption
    repeats the tag. *)
Theorem hashtag_index_dedup (s : State) :
  reachable s →
  (∀ pid now payload,
     is_ok (create_post pid now payload s).1 = true →
     let s' := (create_post pid now payload s).2 in
     ∃ post, OrderedDict.get pid (posts s') = Some post ∧
       Post.hashtags post = Text.lower <$> Text.findall (PostCreate.caption payload) ∧
       length (Post.hashtags post) = length (Text.findall (PostCreate.caption payload)) ∧
       Forall (λ tag, Text.lower tag = tag) (Post.hashtags post) ∧
       (∀ tag, tag ∈ Post.hashtags post → pid ∈ posts_for_tag s' tag)) ∧
  (∀ tag, size (posts_for_tag s tag) = length (posts_tagged s tag)) ∧
  (∀ e, e ∈ explore_trending s →
     HashtagCount.count e = length (posts_tagged s (HashtagCount.tag e))).
Proof.
  intros [log Hinv%reachable_with_store_inv]. split_and!.
  - intros pid now payload Hok s'.
    destruct (create_post_found _ _ _ _ Hok) as [Hpost Hindex].
    eexists. split; [exact Hpost|]. cbn [Post.hashtags].
    split_and!; [done|by rewrite length_fmap| |].
    + apply Forall_fmap, Forall_forall. intros tag _. apply lower_idem.
    + intros tag Htag. unfold posts_for_tag. subst s'.
      rewrite Hindex, get_foldl_index_tag, decide_True by done. cbn. set_solver.
  - intros tag. by eapply store_inv_tag_count.
  - intros e (post_ids & Hin & _ & ->)%explore_trending_elem.
    apply elem_of_get in Hin; [|apply (inv_tags_wf _ _ Hinv)].
    rewrite <- (store_inv_tag_count _ _ _ Hinv). unfold posts_for_tag.
    by rewrite Hin.
Qed.

Lemma hashtag_index_dedup_witness :
  let s0 := run [ POST_users "id-alice" "2024-01-01T10:00:00" alice ] reset_storage in
  let s := run alice_posts_python reset_storage in
  (∃ post, OrderedDict.get "id-py" (posts s) = Some post ∧
           Post.hashtags post = ["python"; "python"; "python"]) ∧
  size (posts_for_tag s "python") = length (posts_tagged s "python") ∧
  length (posts_tagged s "python") = 1 ∧
  explore_trending s = [ HashtagCount.mk "python" 1 ].
Proof.
  intros s0 s.
  assert (reachable s0) as Hr0 by (apply reachable_run; by_computation).
  assert (reachable s) as Hr by (apply reachable_run; by_computation).
  destruct (hashtag_index_dedup s0 Hr0) as (Hcreate & _ & _).
  destruct (hashtag_index_dedup s Hr) as (_ & Hsize & _).
  destruct (Hcreate "id-py" "2024-01-01T10:10:00" python_thrice)
    as (post & Hpost & Htags & _); [vm_compute; reflexivity|].
  split_and!.
  - exists post. split; [exact Hpost|]. rewrite Htags. vm_compute; reflexivity.
  - apply Hsize.
  - vm_compute; reflexivity.
  - vm_compute; reflexivity.
Defined.

Lemma trending_tags_NoDup s :
  OrderedDict.wf (hashtag_posts s) → NoDup (HashtagCount.tag <$> explore_trending s).
Proof.
  intros Hwf. destruct (trending_ranking s) as (ranked & -> & Hperm & _).
  apply (NoDup_sublist_keys _ (HashtagCount.tag <$> ranked));
    [apply fmap_sublist, sublist_take|].
  rewrite Hperm, <- list_fmap_compose.
  apply (NoDup_sublist_keys _ (OrderedDict.keys (hashtag_posts s))); [|done].
  apply fmap_sublist, sublist_filter.
Qed.

(** C4. Trending correctness.  Whatever the store (a dict has one entry per
    key), explore/trending is sorted by count, descending, and has at most 10
    entries, namely min(10, number of tags with a non-empty post-set); each
    entry is a tag of the index with a non-empty post-set together with the
    size of that set, no tag twice; a tag with a non-empty post-set is
    missing only if the list is full and every listed count is at least that
    tag's; and a tag whose post-set is empty never appears, although its key
    is still in the index. *)
Theorem explore_trending_correct (s : State) :
  OrderedDict.wf (hashtag_posts s) →
  StronglySorted count_ge (explore_trending s) ∧
  length (explore_trending s) =
    10 `min` length (filter (λ kv, kv.2 ≠ (∅ : gset string)) (hashtag_posts s)) ∧
  (∀ e, e ∈ explore_trending s →
     ∃ post_ids, OrderedDict.get (HashtagCount.tag e) (hashtag_posts s) = Some post_ids ∧
                 post_ids ≠ ∅ ∧ HashtagCount.count e = size post_ids) ∧
  NoDup (HashtagCount.tag <$> explore_trending s) ∧
  (∀ tag post_ids,
     OrderedDict.get tag (hashtag_posts s) = Some post_ids → post_ids ≠ ∅ →
     HashtagCount.mk tag (size post_ids) ∈ explore_trending s ∨
     (length (explore_trending s) = 10 ∧
      ∀ e, e ∈ explore_trending s → (size post_ids ≤ HashtagCount.count e)%nat)) ∧
  (∀ tag, OrderedDict.get tag (hashtag_posts s) = Some ∅ →
     tag ∉ HashtagCount.tag <$> explore_trending s).
Proof.
  intros Hwf.
  assert (∀ e, e ∈ explore_trending s →
     ∃ post_ids, OrderedDict.get (HashtagCount.tag e) (hashtag_posts s) = Some post_ids ∧
                 post_ids ≠ ∅ ∧ HashtagCount.count e = size post_ids) as Hsound.
  { intros e (post_ids & Hin & ? & ?)%explore_trending_elem.
    exists post_ids. split; [by apply elem_of_get|done]. }
  pose proof (trending_tags_NoDup s Hwf) as Hnd.
  destruct (trending_ranking s) as (ranked & Heq & Hperm & Hsorted).
  rewrite <- (take_drop 10 ranked) in Hsorted.
  apply StronglySorted_app in Hsorted as (Hcross & Htake & _).
  split_and!; try done.
  - by rewrite Heq.
  - by rewrite Heq, length_take, Hperm, length_fmap.
  - intros tag post_ids Hget Hne.
    assert (HashtagCount.mk tag (size post_ids) ∈ ranked) as Hin.
    { rewrite Hperm. apply list_elem_of_fmap. exists (tag, post_ids).
      split; [done|]. apply list_elem_of_filter. split; [done|].
      by apply get_Some_elem_of. }
    rewrite <- (take_drop 10 ranked) in Hin.
    apply elem_of_app in Hin as [Hin|Hin]; [left; by rewrite Heq|right].
    rewrite Heq. split.
    + rewrite length_take. apply Nat.min_l.
      destruct (decide (10 ≤ length ranked)%nat) as [|Hlt]; [done|].
      rewrite drop_ge in Hin by lia. by apply elem_of_nil in Hin.
    + intros e He. apply (Hcross e _ He Hin).
  - intros tag Hget (e & -> & He)%list_elem_of_fmap.
    destruct (Hsound e He) as (post_ids & Hget' & Hne & _). congruence.
Qed.

Lemma explore_trending_correct_witness :
  let s := run bob_deletes reset_storage in
  OrderedDict.get "world" (hashtag_posts s) = Some ∅ ∧
  ("world" ∉ HashtagCount.tag <$> explore_trending s) ∧
  StronglySorted count_ge (explore_trending (run alice_posts_python reset_storage)) ∧
  HashtagCount.mk "python" 1
    ∈ explore_trending (run alice_posts_python reset_storage).
Proof.
  intros s.
  assert (OrderedDict.wf (hashtag_posts s)) as Hwf by by_computation.
  assert (OrderedDict.wf (hashtag_posts (run alice_posts_python reset_storage)))
    as Hwf' by by_computation.
  destruct (explore_trending_correct s Hwf) as (_ & _ & _ & _ & _ & Hempty).
  destruct (explore_trending_correct _ Hwf') as (Hsorted & _ & _ & _ & Htop & _).
  assert (OrderedDict.get "world" (hashtag_posts s) = Some ∅) as Hget
    by (vm_compute; reflexivity).
  split_and!; [exact Hget|by apply Hempty|exact Hsorted|].
  destruct (Htop "python" {["id-py"]}) as [Hin|[Hlen _]].
  - vm_compute; reflexivity.
  - by_computation.
  - exact Hin.
  - exfalso. revert Hlen. vm_compute. discriminate.
Defined.

(** ** One post, one tag *)

Lemma filter_single_nonempty (d : odict (gset string)) k0 v0 :
  OrderedDict.wf d → OrderedDict.get k0 d = Some v0 → v0 ≠ ∅ →
  (∀ k v, OrderedDict.get k d = Some v → v ≠ ∅ → k = k0) →
  filter (λ kv, kv.2 ≠ (∅ : gset string)) d = [(k0, v0)].
Proof.
  unfold OrderedDict.wf, OrderedDict.keys.
  induction d as [|[k v] d IH]; [done|]. csimpl.
  intros [Hk Hnd]%NoDup_cons Hget Hne Honly. rewrite filter_cons. cbn [snd].
  destruct (decide (k = k0)) as [->|Hkk].
  - simplify_eq. rewrite decide_True by done. f_equal.
    apply filter_none. intros [k' v'] Hin Hv'. cbn in Hv'.
    assert (k' ≠ k0) as Hne'.
    { intros ->. apply Hk, list_elem_of_fmap. by exists (k0, v'). }
    apply Hne', (Honly k' v'); [|done]. cbn.
    rewrite decide_False by done. by apply elem_of_get.
  - rewrite decide_False.
    + apply IH; [done..|]. intros k' v' Hget' Hv'.
      apply (Honly k' v'); [|done]. cbn.
      rewrite decide_False; [done|]. intros <-.
      apply Hk, list_elem_of_fmap. exists (k, v'). split; [done|].
      by apply get_Some_elem_of.
    + intros Hv. apply Hkk, (Honly k v); [|done]. cbn. by rewrite decide_True.
Qed.

Lemma store_inv_no_posts_no_tags log s tag :
  store_inv log s → posts s = [] → posts_for_tag s tag = ∅.
Proof.
  intros Hinv Hnone. apply set_eq. intros pid. split; [|set_solver].
  intros (post & Hp & _)%(inv_tag_sound _ _ Hinv). by rewrite Hnone in Hp.
Qed.

Lemma create_post_single_tag log s pid now payload tag :
  store_inv log s → posts s = [] →
  is_Some (users s !! PostCreate.user_id payload) →
  Text.findall (PostCreate.caption payload) ≠ [] →
  Forall (λ token, Text.lower token = tag) (Text.findall (PostCreate.caption payload)) →
  let s' := (create_post pid now payload s).2 in
  filter (λ kv, kv.2 ≠ (∅ : gset string)) (hashtag_posts s') = [(tag, {[pid]})] ∧
  posts_for_tag s' tag = {[pid]} ∧
  posts s' =
    [(pid, Post.mk pid (PostCreate.user_id payload) (PostCreate.media_url payload)
             (PostCreate.media_type payload) (PostCreate.caption payload)
             (Text.lower <$> Text.findall (PostCreate.caption payload)) now)].
Proof.
  intros Hinv Hnone [u Hu] Hsome Hall s'.
  assert (is_ok (create_post pid now payload s).1 = true) as Hok.
  { unfold create_post. by rewrite Hu. }
  destruct (create_post_found _ _ _ _ Hok) as [_ Hindex]. fold s' in Hindex.
  set (tags := Text.lower <$> Text.findall (PostCreate.caption payload)) in *.
  assert (∀ t, t ∈ tags ↔ t = tag) as Htags.
  { intros t. subst tags. rewrite list_elem_of_fmap. split.
    - intros (token & -> & Hin). by apply (proj1 (Forall_forall _ _) Hall).
    - intros ->. destruct (Text.findall _) as [|token l]; [done|].
      exists token. split; [|by left]. symmetry.
      apply (proj1 (Forall_forall _ _) Hall). by left. }
  assert (∀ t, OrderedDict.get t (hashtag_posts s') =
      if decide (t = tag) then Some {[pid]} else OrderedDict.get t (hashtag_posts s))
    as Hget.
  { intros t. rewrite Hindex, get_foldl_index_tag.
    pose proof (store_inv_no_posts_no_tags _ _ t Hinv Hnone) as Hempty.
    unfold posts_for_tag in Hempty.
    destruct (decide (t = tag)) as [->|Hne].
    - rewrite decide_True by (by apply Htags). rewrite Hempty. f_equal. set_solver.
    - rewrite decide_False; [done|]. by rewrite Htags. }
  split_and!.
  - apply filter_single_nonempty.
    + rewrite Hindex. apply wf_foldl_index_tag, (inv_tags_wf _ _ Hinv).
    + by rewrite Hget, decide_True.
    + set_solver.
    + intros k v. rewrite Hget. case_decide; [done|]. intros Hk Hv. exfalso.
      apply Hv. pose proof (store_inv_no_posts_no_tags _ _ k Hinv Hnone) as Hempty.
      unfold posts_for_tag in Hempty. by rewrite Hk in Hempty.
  - unfold posts_for_tag. by rewrite Hget, decide_True.
  - subst s'. unfold create_post. rewrite Hu. cbn [snd]. simpl_store.
    by rewrite Hnone.
Qed.

(** C5 (as stated, refuted).  alice exists and there is no post; she creates
    one post whose caption carries #Python, #PYTHON and #python.  Trending
    then is the single entry python with count 1: the three occurrences are
    three entries of the post's hashtag list but one member of the tag's
    post-set.  There is no entry python with count 3. *)
Lemma hashtag_roundtrip_count_counterexample :
  let s := run [ POST_users "id-alice" "2024-01-01T10:00:00" alice ] reset_storage in
  let s' := (create_post "id-py" "2024-01-01T10:10:00" python_thrice s).2 in
  reachable s ∧ is_Some (users s !! "id-alice") ∧ posts s = [] ∧
  Text.findall (PostCreate.caption python_thrice) = ["Python"; "PYTHON"; "python"] ∧
  is_ok (create_post "id-py" "2024-01-01T10:10:00" python_thrice s).1 = true ∧
  explore_trending s' = [ HashtagCount.mk "python" 1 ] ∧
  HashtagCount.mk "python" 3 ∉ explore_trending s'.
Proof.
  intros s s'.
  assert (explore_trending s' = [ HashtagCount.mk "python" 1 ]) as Htrend
    by (vm_compute; reflexivity).
  split_and!; try (vm_compute; reflexivity); try by_computation.
  - apply reachable_run. by_computation.
  - rewrite Htrend. intros Hin%list_elem_of_singleton. discriminate.
Qed.

(** C5 (amended).  In a reachable store with an existing author and no
    posts, creating a post whose caption's hashtags are casings of python
    (as #Python, #PYTHON, #python are) succeeds and yields exactly one
    trending entry, tag python with count 1 (the post counts once, however
    often it repeats the tag), and explore/hashtag with any casing of python
    returns exactly that post. *)
Theorem hashtag_roundtrip_counts_post_once
    (s : State) (pid now : string) (payload : PostCreate.t) :
  reachable s → posts s = [] →
  is_Some (users s !! PostCreate.user_id payload) →
  Text.findall (PostCreate.caption payload) ≠ [] →
  Forall (λ token, Text.lower token = "python")
    (Text.findall (PostCreate.caption payload)) →
  let s' := (create_post pid now payload s).2 in
  ∃ out,
    (create_post pid now payload s).1 = Ok out ∧
    PostOut.id out = pid ∧
    PostOut.hashtags out = Text.lower <$> Text.findall (PostCreate.caption payload) ∧
    explore_trending s' = [ HashtagCount.mk "python" 1 ] ∧
    ∀ tag, Text.lower tag = "python" → explore_by_hashtag tag s' = [ out ].
Proof.
  intros [log Hinv%reachable_with_store_inv] Hnone Hu Hsome Hall s'.
  destruct (create_post_single_tag _ _ pid now payload "python" Hinv Hnone Hu Hsome Hall)
    as (Hfilter & Htag & Hposts). fold s' in Hfilter, Htag, Hposts.
  destruct Hu as [u Hu].
  exists (_build_post_out
            (Post.mk pid (PostCreate.user_id payload) (PostCreate.media_url payload)
               (PostCreate.media_type payload) (PostCreate.caption payload)
               (Text.lower <$> Text.findall (PostCreate.caption payload)) now) s').
  split_and!.
  - subst s'. unfold create_post. rewrite Hu. reflexivity.
  - done.
  - done.
  - unfold explore_trending, OrderedDict.items. rewrite Hfilter. cbn.
    by rewrite size_singleton.
  - intros tag Htagl. unfold explore_by_hashtag. rewrite Htagl, Htag.
    rewrite elements_singleton, Hposts. cbn [omap list_omap OrderedDict.get].
    rewrite decide_True by done. reflexivity.
Qed.

Lemma hashtag_roundtrip_counts_post_once_witness :
  let s := run [ POST_users "id-alice" "2024-01-01T10:00:00" alice ] reset_storage in
  let s' := (create_post "id-py" "2024-01-01T10:10:00" python_thrice s).2 in
  explore_trending s' = [ HashtagCount.mk "python" 1 ] ∧
  ∃ out, PostOut.id out = "id-py" ∧
         PostOut.hashtags out = ["python"; "python"; "python"] ∧
         explore_by_hashtag "PYTHON" s' = [ out ] ∧
         explore_by_hashtag "PyThOn" s' = [ out ].
Proof.
  intros s s'.
  assert (reachable s) as Hr by (apply reachable_run; by_computation).
  destruct (hashtag_roundtrip_counts_post_once s "id-py" "2024-01-01T10:10:00"
              python_thrice Hr)
    as (out & _ & Hid & Htags & Htrend & Hlookup).
  - vm_compute; reflexivity.
  - by_computation.
  - vm_compute. discriminate.
  - apply (bool_decide_unpack _). vm_compute. exact I.
  - split; [exact Htrend|]. exists out. split_and!.
    + exact Hid.
    + rewrite Htags. vm_compute; reflexivity.
    + apply Hlookup. vm_compute; reflexivity.
    + apply Hlookup. vm_compute; reflexivity.
Defined.

(** ** The feed *)



(** * Further properties of the routers *)

(** ** References between the stores *)

Lemma refs_inv_reset : refs_inv reset_storage.
Proof.
  split; cbn; try done. intros pid. rewrite lookup_empty. split; by intros [? ?].
Qed.

Lemma is_Some_gsetdefault {V} (d : gmap string V) k v k' :
  is_Some (d !! k') → is_Some (gsetdefault k v d !! k').
Proof. rewrite lookup_gsetdefault. case_decide; eauto. Qed.

Lemma is_Some_alter {V} (f : V → V) (d : gmap string V) k k' :
  is_Some (alter f k d !! k') ↔ is_Some (d !! k').
Proof.
  destruct (decide (k = k')) as [->|Hne].
  - rewrite lookup_alter_eq. by rewrite fmap_is_Some.
  - by rewrite lookup_alter_ne.
Qed.

Lemma is_Some_insert {V} (d : gmap string V) k v k' :
  is_Some (d !! k') → is_Some (<[k := v]> d !! k').
Proof. rewrite lookup_insert. case_decide; eauto. Qed.

Lemma handle_ref_user req s : refs_inv s →
  ∀ uid user, users (handle req s).2 !! uid = Some user →
    User.id user = uid ∧ is_Some (follows (handle req s).2 !! uid) ∧
    is_Some (followers (handle req s).2 !! uid).
Proof.
  intros [Hu _ _ _ _ _ _] uid user. handle_inv req s; try by apply Hu.
  - rewrite lookup_insert, !lookup_gsetdefault.
    destruct (decide (uid0 = uid)) as [->|Hne].
    + intros [= <-]. eauto.
    + intros Hx. destruct (Hu _ _ Hx) as (? & ? & ?). done.
  - rewrite lookup_insert. destruct (decide (user_id = uid)) as [->|Hne].
    + rename select (users s !! uid = Some _) into Hold.
      intros [= <-]. destruct (Hu _ _ Hold) as (? & ? & ?). done.
    + apply Hu.
  - intros Hx. destruct (Hu _ _ Hx) as (? & ? & ?).
    split_and!; [done|..]; rewrite is_Some_alter; by apply is_Some_gsetdefault.
  - intros Hx. destruct (Hu _ _ Hx) as (? & ? & ?).
    split_and!; [done|..]; by rewrite is_Some_alter.
Qed.

Lemma handle_ref_username req s : refs_inv s →
  ∀ uid1 uid2 user1 user2,
    users (handle req s).2 !! uid1 = Some user1 →
    users (handle req s).2 !! uid2 = Some user2 →
    User.username user1 = User.username user2 → uid1 = uid2.
Proof.
  intros [_ Hn _ _ _ _ _] uid1 uid2 user1 user2. handle_inv req s; try by apply Hn.
  - rename select (¬ map_Exists _ _) into Hfree.
    rewrite !lookup_insert.
    destruct (decide (uid = uid1)) as [E1|N1], (decide (uid = uid2)) as [E2|N2];
      intros H1 H2 Heq.
    + congruence.
    + simplify_eq. exfalso. apply Hfree. exists uid2, user2. by split.
    + simplify_eq. exfalso. apply Hfree. exists uid1, user1. by split.
    + by apply (Hn _ _ _ _ H1 H2).
  - rename select (users s !! user_id = Some _) into Hold.
    rewrite !lookup_insert.
    destruct (decide (user_id = uid1)) as [E1|N1],
             (decide (user_id = uid2)) as [E2|N2]; intros H1 H2 Heq.
    + congruence.
    + simplify_eq. by apply (Hn _ _ _ _ Hold H2).
    + simplify_eq. by apply (Hn _ _ _ _ H1 Hold).
    + by apply (Hn _ _ _ _ H1 H2).
Qed.

Lemma handle_ref_follow req s : refs_inv s →
  ∀ a b, b ∈ following_of (handle req s).2 a →
    is_Some (users (handle req s).2 !! a) ∧ is_Some (users (handle req s).2 !! b).
Proof.
  intros [_ _ Hf _ _ _ _] a b. unfold following_of in *.
  handle_inv req s; try by apply Hf.
  - rewrite default_gsetdefault. intros [? ?]%Hf. split; by apply is_Some_insert.
  - intros [? ?]%Hf. split; by apply is_Some_insert.
  - rewrite default_alter_add. case_decide; [subst a|apply Hf].
    rewrite elem_of_union, elem_of_singleton. intros [Hin| ->]; [by apply Hf|done].
  - rewrite default_alter_discard. case_decide; [subst a|apply Hf].
    intros [Hin _]%elem_of_difference. by apply Hf.
Qed.

Lemma handle_ref_likes req s : refs_inv s →
  ∀ pid, is_Some (likes (handle req s).2 !! pid) ↔
         is_Some (OrderedDict.get pid (posts (handle req s).2)).
Proof.
  intros [_ _ _ Hl _ _ _] pid. handle_inv req s; try by apply Hl.
  - rewrite lookup_gsetdefault, get_set. case_decide; [|apply Hl].
    split; eauto.
  - rewrite lookup_delete, get_del. case_decide; [|apply Hl].
    split; by intros [? ?].
  - rewrite is_Some_alter, lookup_gsetdefault. case_decide; [subst|apply Hl].
    split; eauto.
  - rewrite is_Some_alter. apply Hl.
Qed.

Lemma handle_ref_liker req s : refs_inv s →
  ∀ pid uid, uid ∈ likers_of (handle req s).2 pid →
    is_Some (users (handle req s).2 !! uid).
Proof.
  intros [_ _ _ _ Hl _ _] pid uid. unfold likers_of in *.
  handle_inv req s; try by apply Hl.
  - intros ?%Hl. by apply is_Some_insert.
  - intros ?%Hl. by apply is_Some_insert.
  - rewrite default_gsetdefault. apply Hl.
  - rewrite lookup_delete. case_decide; [set_solver|apply Hl].
  - rewrite default_alter_add. case_decide; [subst|apply Hl].
    rewrite elem_of_union, elem_of_singleton. intros [Hin| ->]; [by eapply Hl|done].
  - rewrite default_alter_discard. case_decide; [subst|apply Hl].
    intros [Hin _]%elem_of_difference. by eapply Hl.
Qed.

Lemma handle_ref_post_author req s : refs_inv s →
  ∀ pid post, OrderedDict.get pid (posts (handle req s).2) = Some post →
    is_Some (users (handle req s).2 !! Post.user_id post).
Proof.
  intros [_ _ _ _ _ Hp _] pid post. handle_inv req s; try by apply Hp.
  - intros ?%Hp. by apply is_Some_insert.
  - intros ?%Hp. by apply is_Some_insert.
  - rewrite get_set. case_decide; [by intros [= <-]|apply Hp].
  - rewrite get_del. case_decide; [done|apply Hp].
Qed.

Lemma handle_ref_comment_author req s : refs_inv s →
  ∀ cid comment, comments (handle req s).2 !! cid = Some comment →
    is_Some (users (handle req s).2 !! Comment.user_id comment).
Proof.
  intros [_ _ _ _ _ _ Hc] cid comment. handle_inv req s; try by apply Hc.
  - intros ?%Hc. by apply is_Some_insert.
  - intros ?%Hc. by apply is_Some_insert.
  - rewrite lookup_foldl_delete. case_decide; [done|apply Hc].
  - rewrite lookup_insert. case_decide; [by intros [= <-]|apply Hc].
  - rewrite lookup_delete. case_decide; [done|apply Hc].
Qed.

Lemma handle_refs_inv req s : refs_inv s → refs_inv (handle req s).2.
Proof.
  intros Hinv. split.
  - by apply handle_ref_user.
  - by apply handle_ref_username.
  - by apply handle_ref_follow.
  - by apply handle_ref_likes.
  - by apply handle_ref_liker.
  - by apply handle_ref_post_author.
  - by apply handle_ref_comment_author.
Qed.

Lemma reachable_refs_inv s : reachable s → refs_inv s.
Proof.
  apply reachable_ind; [apply refs_inv_reset|]. intros. by apply handle_refs_inv.
Qed.

(** ** Registered users *)

Lemma create_user_taken uid now payload s k user :
  users s !! k = Some user → User.username user = UserCreate.username payload →
  create_user uid now payload s = (HTTPException 409 "Username already taken", s).
Proof.
  intros Hk Hname. unfold create_user. rewrite decide_True; [done|].
  by exists k, user.
Qed.

(** X1. Handles are unique: in every reachable store two user ids with the
    same username are the same id, and registering a username that some user
    already has raises 409 and leaves the store as it was.  The comparison is
    the one of Python strings, so it is case-sensitive. *)
Theorem usernames_are_unique (s : State) :
  reachable s →
  (∀ uid1 uid2 user1 user2,
     users s !! uid1 = Some user1 → users s !! uid2 = Some user2 →
     User.username user1 = User.username user2 → uid1 = uid2) ∧
  (∀ uid now payload k user,
     users s !! k = Some user → User.username user = UserCreate.username payload →
     create_user uid now payload s = (HTTPException 409 "Username already taken", s)).
Proof.
  intros Hr%reachable_refs_inv. split.
  - apply (ref_username _ Hr).
  - intros. by eapply create_user_taken.
Qed.

Lemma usernames_are_unique_witness :
  let s := run two_users reset_storage in
  create_user "id-alice-2" "2024-01-02T00:00:00"
    (UserCreate.mk "alice" "Alice again" "" "") s =
    (HTTPException 409 "Username already taken", s) ∧
  is_ok (create_user "id-alice-2" "2024-01-02T00:00:00"
           (UserCreate.mk "Alice" "Alice again" "" "") s).1 = true.
Proof.
  intros s.
  assert (reachable s) as Hr by (apply reachable_run; by_computation).
  destruct (usernames_are_unique s Hr) as [_ Htaken].
  split; [|vm_compute; reflexivity].
  apply (Htaken _ _ _ "id-alice" alice_record); vm_compute; reflexivity.
Defined.

Lemma fresh_user_no_edges s uid :
  reachable s → users s !! uid = None →
  following_of s uid = ∅ ∧ followers_of s uid = ∅ ∧
  filter (λ p, Post.user_id p = uid) (OrderedDict.values (posts s)) = [].
Proof.
  intros Hr Hnone. pose proof (reachable_refs_inv _ Hr) as Hrefs.
  pose proof (reachable_follow_symmetric _ Hr) as Hsym. split_and!.
  - apply set_eq. intros b. split; [|set_solver].
    intros [[? ?] _]%(ref_follow _ Hrefs). congruence.
  - apply set_eq. intros a. split; [|set_solver].
    intros [_ [? ?]]%Hsym%(ref_follow _ Hrefs). congruence.
  - apply filter_none. intros post Hin Hauthor.
    apply list_elem_of_fmap in Hin as ([k v] & -> & Hin). cbn in Hauthor.
    destruct Hr as [log Hinv%reachable_with_store_inv].
    apply elem_of_get in Hin; [|apply (inv_posts_wf _ _ Hinv)].
    destruct (ref_post_author _ Hrefs _ _ Hin) as [? ?]. congruence.
Qed.

(** X2. Register, then fetch: when create_user succeeds, get_user on the new
    id returns the very profile create_user returned; it carries the
    payload's fields, and, the id being new to a reachable store, all three
    derived counts are 0. *)
Theorem create_user_then_get_user
    (s : State) (uid now : string) (payload : UserCreate.t) :
  reachable s → users s !! uid = None →
  is_ok (create_user uid now payload s).1 = true →
  get_user uid (create_user uid now payload s).2 = (create_user uid now payload s).1 ∧
  (create_user uid now payload s).1 =
    Ok (UserOut.mk uid (UserCreate.username payload) (UserCreate.display_name payload)
          (UserCreate.bio payload) (UserCreate.profile_pic_url payload) now 0 0 0).
Proof.
  intros Hr Hnone. destruct (fresh_user_no_edges _ _ Hr Hnone) as (Hfg & Hfs & Hposts).
  unfold create_user. case_decide; [done|]. intros _. cbn [fst snd]. split.
  - unfold get_user. simpl_store. by rewrite lookup_insert_eq.
  - unfold _build_user_out, following_of, followers_of in *. simpl_store.
    cbn [User.id User.username User.display_name User.bio User.profile_pic_url
         User.created_at].
    rewrite !default_gsetdefault, Hfg, Hfs, Hposts. done.
Qed.

Lemma create_user_then_get_user_witness :
  let s := run two_users reset_storage in
  let carol := UserCreate.mk "carol" "Carol" "hi" "" in
  get_user "id-carol" (create_user "id-carol" "2024-01-03T00:00:00" carol s).2 =
    Ok (UserOut.mk "id-carol" "carol" "Carol" "hi" "" "2024-01-03T00:00:00" 0 0 0).
Proof.
  intros s carol.
  assert (reachable s) as Hr by (apply reachable_run; by_computation).
  destruct (create_user_then_get_user s "id-carol" "2024-01-03T00:00:00" carol Hr)
    as [Hget Hout]; [vm_compute; reflexivity..|].
  rewrite Hget. exact Hout.
Defined.

(** X3. No dangling references: in every reachable store the author of each
    post and of each comment is a stored user, the parent of each comment is
    a stored post, everyone in a like-set is a stored user and the liked post
    is stored, both ends of a follow edge are stored users, and each stored
    record sits under its own identifier. *)
Theorem references_resolve (s : State) :
  reachable s →
  (∀ pid post, OrderedDict.get pid (posts s) = Some post →
     Post.id post = pid ∧ is_Some (users s !! Post.user_id post)) ∧
  (∀ cid comment, comments s !! cid = Some comment →
     Comment.id comment = cid ∧
     is_Some (users s !! Comment.user_id comment) ∧
     is_Some (OrderedDict.get (Comment.post_id comment) (posts s))) ∧
  (∀ pid uid, uid ∈ likers_of s pid →
     is_Some (users s !! uid) ∧ is_Some (OrderedDict.get pid (posts s))) ∧
  (∀ a b, b ∈ following_of s a → is_Some (users s !! a) ∧ is_Some (users s !! b)) ∧
  (∀ uid user, users s !! uid = Some user → User.id user = uid).
Proof.
  intros Hr. pose proof (reachable_refs_inv _ Hr) as Hrefs.
  destruct Hr as [log Hinv%reachable_with_store_inv]. split_and!.
  - intros pid post Hp. split; [by destruct (inv_post _ _ Hinv _ _ Hp)|].
    by eapply ref_post_author.
  - intros cid comment Hc. destruct (inv_comment _ _ Hinv _ _ Hc) as (? & _ & ?).
    split_and!; [done| |done]. by eapply ref_comment_author.
  - intros pid uid Hin. split; [by eapply ref_liker|].
    apply (ref_likes _ Hrefs). unfold likers_of in Hin.
    destruct (likes s !! pid); [eauto|]. cbn in Hin. set_solver.
  - apply (ref_follow _ Hrefs).
  - intros uid user Hu. by destruct (ref_user _ Hrefs _ _ Hu).
Qed.

Lemma references_resolve_witness :
  let s := run bob_answers reset_storage in
  is_Some (users s !! "id-bob") ∧ is_Some (OrderedDict.get "id-post" (posts s)).
Proof.
  intros s.
  assert (reachable s) as Hr by (apply reachable_run; by_computation).
  destruct (references_resolve s Hr) as (_ & Hc & _).
  destruct (Hc "id-answer"
              (Comment.mk "id-answer" "id-bob" "id-post" "Thanks!" "2024-01-01T10:07:00"))
    as (_ & Hu & Hp); [vm_compute; reflexivity|].
  split; [exact Hu|exact Hp].
Defined.

(** ** Listings *)

Lemma omap_users_ids (m : gmap string User.t) (l : list string) :
  (∀ c, c ∈ l → ∃ u, m !! c = Some u ∧ User.id u = c) →
  User.id <$> omap (λ c, m !! c) l = l.
Proof.
  induction l as [|c l IH]; intros Hl; [done|]. cbn [omap list_omap].
  destruct (Hl c) as (u & -> & Hid); [by left|]. csimpl. rewrite Hid. f_equal.
  apply IH. intros x Hx. apply Hl. by right.
Qed.

Lemma user_out_ids s (l : list User.t) :
  UserOut.id <$> ((λ user, _build_user_out user s) <$> l) = User.id <$> l.
Proof. rewrite <- list_fmap_compose. by apply list_fmap_ext. Qed.

Lemma resolved_ids s (ids : gset string) :
  refs_inv s → (∀ x, x ∈ ids → is_Some (users s !! x)) →
  UserOut.id <$> ((λ user, _build_user_out user s) <$>
                    omap (λ x, users s !! x) (elements ids)) = elements ids.
Proof.
  intros Hrefs Hall. rewrite user_out_ids. apply omap_users_ids.
  intros c [u Hu]%elem_of_elements%Hall. exists u. split; [done|].
  by destruct (ref_user _ Hrefs _ _ Hu).
Qed.

(** X4. Followers and following lists: in a reachable store, for a stored
    user, get_followers lists exactly the members of the user's followers
    set and get_following those of the following set, nobody skipped, so the
    lengths of the two lists are the follower_count and following_count that
    get_user reports; for an id that is not stored both routes raise 404. *)
Theorem follow_lists_are_complete (s : State) (u : string) :
  reachable s →
  (is_Some (users s !! u) →
     ∃ followers_out following_out profile,
       get_followers u s = Ok followers_out ∧
       UserOut.id <$> followers_out = elements (followers_of s u) ∧
       get_following u s = Ok following_out ∧
       UserOut.id <$> following_out = elements (following_of s u) ∧
       get_user u s = Ok profile ∧
       length followers_out = UserOut.follower_count profile ∧
       length following_out = UserOut.following_count profile) ∧
  (users s !! u = None →
     get_followers u s = HTTPException 404 "User not found" ∧
     get_following u s = HTTPException 404 "User not found").
Proof.
  intros Hr. pose proof (reachable_refs_inv _ Hr) as Hrefs.
  pose proof (reachable_follow_symmetric _ Hr) as Hsym. split.
  - intros [user Hu]. unfold get_followers, get_following, get_user. rewrite Hu.
    destruct (ref_user _ Hrefs _ _ Hu) as (Hid & _ & _).
    assert (UserOut.id <$> ((λ user, _build_user_out user s) <$>
              omap (λ x, users s !! x) (elements (followers_of s u))) =
            elements (followers_of s u)) as Hers.
    { apply resolved_ids; [done|]. intros x Hx%Hsym. by apply (ref_follow _ Hrefs x u). }
    assert (UserOut.id <$> ((λ user, _build_user_out user s) <$>
              omap (λ x, users s !! x) (elements (following_of s u))) =
            elements (following_of s u)) as Hing.
    { apply resolved_ids; [done|]. intros x Hx. by apply (ref_follow _ Hrefs u x). }
    eexists _, _, _. split_and!; [done|exact Hers|done|exact Hing|done|..].
    + rewrite <- (length_fmap UserOut.id), Hers. cbn. by rewrite Hid.
    + rewrite <- (length_fmap UserOut.id), Hing. cbn. by rewrite Hid.
  - intros Hu. unfold get_followers, get_following. by rewrite Hu.
Qed.

Lemma follow_lists_are_complete_witness :
  let s := run alice_follows_bob reset_storage in
  (∃ outs, get_followers "id-bob" s = Ok outs ∧ UserOut.id <$> outs = ["id-alice"]) ∧
  (∃ outs, get_following "id-alice" s = Ok outs ∧ UserOut.id <$> outs = ["id-bob"]) ∧
  get_followers "id-carol" s = HTTPException 404 "User not found".
Proof.
  intros s.
  assert (reachable s) as Hr by (apply reachable_run; by_computation).
  destruct (follow_lists_are_complete s "id-bob" Hr) as [Hbob _].
  destruct (follow_lists_are_complete s "id-alice" Hr) as [Halice _].
  destruct (follow_lists_are_complete s "id-carol" Hr) as [_ Hcarol].
  destruct Hbob as (ers & _ & _ & Hers & Hids & _); [by_computation|].
  destruct Halice as (_ & ing & _ & _ & _ & Hing & Hids' & _); [by_computation|].
  split_and!.
  - exists ers. split; [exact Hers|]. rewrite Hids. vm_compute; reflexivity.
  - exists ing. split; [exact Hing|]. rewrite Hids'. vm_compute; reflexivity.
  - destruct Hcarol as [Hc _]; [vm_compute; reflexivity|exact Hc].
Defined.

(** X5. Likers list: in a reachable store, for a stored post, get_post_likes
    lists exactly the members of the post's like-set, nobody skipped, and its
    length is the like_count that get_post reports; for a post that is not
    stored it raises 404. *)
Theorem likers_list_is_complete (s : State) (p : string) :
  reachable s →
  (is_Some (OrderedDict.get p (posts s)) →
     ∃ likers_out post_out,
       get_post_likes p s = Ok likers_out ∧
       UserOut.id <$> likers_out = elements (likers_of s p) ∧
       get_post p s = Ok post_out ∧
       length likers_out = PostOut.like_count post_out) ∧
  (OrderedDict.get p (posts s) = None →
     get_post_likes p s = HTTPException 404 "Post not found").
Proof.
  intros Hr. pose proof (reachable_refs_inv _ Hr) as Hrefs.
  destruct Hr as [log Hinv%reachable_with_store_inv]. split.
  - intros [post Hp]. unfold get_post_likes, get_post. rewrite Hp.
    destruct (inv_post _ _ Hinv _ _ Hp) as (Hid & _ & _).
    assert (UserOut.id <$> ((λ user, _build_user_out user s) <$>
              omap (λ x, users s !! x) (elements (likers_of s p))) =
            elements (likers_of s p)) as Hids.
    { apply resolved_ids; [done|]. intros x Hx. by eapply ref_liker. }
    eexists _, _. split_and!; [done|exact Hids|done|].
    rewrite <- (length_fmap UserOut.id), Hids. cbn. by rewrite Hid.
  - intros Hp. unfold get_post_likes. by rewrite Hp.
Qed.

Lemma likers_list_is_complete_witness :
  let s := run alice_reacts reset_storage in
  (∃ outs, get_post_likes "id-post" s = Ok outs ∧ UserOut.id <$> outs = ["id-alice"]) ∧
  get_post_likes "id-none" s = HTTPException 404 "Post not found".
Proof.
  intros s.
  assert (reachable s) as Hr by (apply reachable_run; by_computation).
  destruct (likers_list_is_complete s "id-post" Hr) as [Hpost _].
  destruct (likers_list_is_complete s "id-none" Hr) as [_ Hnone].
  destruct Hpost as (outs & _ & Hget & Hids & _); [by_computation|].
  split.
  - exists outs. split; [exact Hget|]. rewrite Hids. vm_compute; reflexivity.
  - apply Hnone. vm_compute; reflexivity.
Defined.

(** X6. Posts of a user: in a reachable store, for a stored user,
    get_user_posts returns exactly the stored posts whose author is that
    user, newest first, and their number is the post_count that get_user
    reports; for an id that is not stored it raises 404. *)
Theorem user_posts_listing (s : State) (u : string) :
  reachable s →
  (is_Some (users s !! u) →
     ∃ listed profile,
       get_user_posts u s = Ok ((λ p, _build_post_out p s) <$> listed) ∧
       (∀ p, p ∈ listed ↔
             OrderedDict.get (Post.id p) (posts s) = Some p ∧ Post.user_id p = u) ∧
       NoDup (Post.id <$> listed) ∧
       StronglySorted newer_eq listed ∧
       get_user u s = Ok profile ∧
       length listed = UserOut.post_count profile) ∧
  (users s !! u = None → get_user_posts u s = HTTPException 404 "User not found").
Proof.
  intros Hr. pose proof (reachable_refs_inv _ Hr) as Hrefs.
  destruct Hr as [log Hinv%reachable_with_store_inv]. split.
  - intros [user Hu]. unfold get_user_posts, get_user. rewrite Hu.
    destruct (ref_user _ Hrefs _ _ Hu) as (Hid & _ & _).
    eexists _, _. split_and!; [done| | |apply newest_first_sorted|done|].
    + intros p. rewrite newest_first_Permutation, list_elem_of_filter.
      rewrite (store_inv_values _ _ _ Hinv). tauto.
    + rewrite newest_first_Permutation.
      apply (NoDup_sublist_keys _ (OrderedDict.keys (posts s)));
        [|apply (inv_posts_wf _ _ Hinv)].
      rewrite <- (store_inv_post_ids _ _ Hinv). apply fmap_sublist, sublist_filter.
    + rewrite newest_first_Permutation. cbn. by rewrite Hid.
  - intros Hu. unfold get_user_posts. by rewrite Hu.
Qed.

Lemma user_posts_listing_witness :
  let s := run both_post reset_storage in
  (∃ outs, get_user_posts "id-bob" s = Ok outs ∧ PostOut.id <$> outs = ["id-p2"]) ∧
  get_user_posts "id-carol" s = HTTPException 404 "User not found".
Proof.
  intros s.
  assert (reachable s) as Hr by (apply reachable_run; by_computation).
  destruct (user_posts_listing s "id-bob" Hr) as [Hbob _].
  destruct (user_posts_listing s "id-carol" Hr) as [_ Hcarol].
  split.
  - destruct Hbob as (listed & _ & Hget & _); [by_computation|].
    eexists. split; vm_compute; reflexivity.
  - apply Hcarol. vm_compute; reflexivity.
Defined.

(** ** The store a successful handler leaves *)

Lemma like_post_ok_state post_id payload s :
  is_ok (like_post post_id payload s).1 = true →
  (like_post post_id payload s).2 =
    with_likes
      (alter (λ x, x ∪ {[LikeAction.user_id payload]}) post_id
         (gsetdefault post_id ∅ (likes s))) s.
Proof.
  intros Hok. pose proof (handle_commits (POST_like post_id payload) s) as Hc.
  cbn [handle] in Hc. rewrite is_ok_respond in Hc. unfold respond in Hc.
  cbn [snd] in Hc. specialize (Hc Hok).
  remember ((like_post post_id payload s).2) as s' eqn:Hs'. clear Hs'.
  by inversion Hc.
Qed.

Lemma unlike_post_ok_state post_id user_id s :
  is_ok (unlike_post post_id user_id s).1 = true →
  (unlike_post post_id user_id s).2 =
    with_likes (alter (λ x, x ∖ {[user_id]}) post_id (likes s)) s ∧
  user_id ∈ likers_of s post_id.
Proof.
  intros Hok. pose proof (handle_commits (DELETE_like post_id user_id) s) as Hc.
  cbn [handle] in Hc. rewrite is_ok_respond in Hc. unfold respond in Hc.
  cbn [snd] in Hc. specialize (Hc Hok).
  remember ((unlike_post post_id user_id s).2) as s' eqn:Hs'. clear Hs'.
  by inversion Hc.
Qed.

Lemma follow_user_ok_state user_id target_id s :
  is_ok (follow_user user_id target_id s).1 = true →
  (follow_user user_id target_id s).2 =
    with_followers
      (alter (λ x, x ∪ {[user_id]}) target_id (gsetdefault target_id ∅ (followers s)))
      (with_follows
         (alter (λ x, x ∪ {[target_id]}) user_id (gsetdefault user_id ∅ (follows s)))
         s).
Proof.
  intros Hok. pose proof (handle_commits (POST_follow user_id target_id) s) as Hc.
  cbn [handle] in Hc. rewrite is_ok_respond in Hc. unfold respond in Hc.
  cbn [snd] in Hc. specialize (Hc Hok).
  remember ((follow_user user_id target_id s).2) as s' eqn:Hs'. clear Hs'.
  by inversion Hc.
Qed.

Lemma unfollow_user_ok_state user_id target_id s :
  is_ok (unfollow_user user_id target_id s).1 = true →
  (unfollow_user user_id target_id s).2 =
    with_followers (alter (λ x, x ∖ {[user_id]}) target_id (followers s))
      (with_follows (alter (λ x, x ∖ {[target_id]}) user_id (follows s)) s) ∧
  target_id ∈ following_of s user_id.
Proof.
  intros Hok. pose proof (handle_commits (DELETE_follow user_id target_id) s) as Hc.
  cbn [handle] in Hc. rewrite is_ok_respond in Hc. unfold respond in Hc.
  cbn [snd] in Hc. specialize (Hc Hok).
  remember ((unfollow_user user_id target_id s).2) as s' eqn:Hs'. clear Hs'.
  by inversion Hc.
Qed.

Lemma add_comment_ok_state cid now post_id payload s :
  is_ok (add_comment cid now post_id payload s).1 = true →
  (add_comment cid now post_id payload s) =
    (Ok (_build_comment_out
           (Comment.mk cid (CommentCreate.user_id payload) post_id
              (CommentCreate.text payload) now)),
     with_post_comments
       (alter (λ l, (l ++ [cid])%list) post_id
          (gsetdefault post_id [] (post_comments s)))
       (with_comments
          (<[cid := Comment.mk cid (CommentCreate.user_id payload) post_id
                      (CommentCreate.text payload) now]> (comments s)) s)) ∧
  is_Some (OrderedDict.get post_id (posts s)).
Proof.
  unfold add_comment. destruct (OrderedDict.get _ _); [|done].
  destruct (users s !! _); [|done]. intros _. split; [|eauto]. by destruct s.
Qed.

Lemma delete_comment_ok_state comment_id s :
  is_ok (delete_comment comment_id s).1 = true →
  ∃ comment, comments s !! comment_id = Some comment ∧
    (delete_comment comment_id s).2 =
      with_comments (delete comment_id (comments s))
        (with_post_comments
           (alter (list_remove_first comment_id) (Comment.post_id comment)
              (post_comments s)) s).
Proof.
  intros Hok. pose proof (handle_commits (DELETE_comments comment_id) s) as Hc.
  cbn [handle] in Hc. rewrite is_ok_respond in Hc. unfold respond in Hc.
  cbn [snd] in Hc. specialize (Hc Hok).
  remember ((delete_comment comment_id s).2) as s' eqn:Hs'. clear Hs'.
  inversion Hc; subst. eauto.
Qed.

(** ** Derived counts *)

Lemma get_post_found log s p post :
  store_inv log s → OrderedDict.get p (posts s) = Some post →
  get_post p s =
    Ok (PostOut.mk p (Post.user_id post) (Post.media_url post) (Post.media_type post)
          (Post.caption post) (Post.hashtags post) (Post.created_at post)
          (size (likers_of s p)) (length (comment_ids_of s p))).
Proof.
  intros Hinv Hp. unfold get_post, _build_post_out. rewrite Hp.
  by destruct (inv_post _ _ Hinv _ _ Hp) as (-> & _ & _).
Qed.

Lemma store_inv_likes log s v :
  store_inv log s → store_inv log (with_likes v s).
Proof. by apply store_inv_frame. Qed.

(** X7. Like counts: in a reachable store a successful like raises the
    like_count that get_post reports for that post by exactly one and a
    successful unlike lowers it by exactly one; nothing else in the response
    changes, and the responses for all other posts stay the same. *)
Theorem like_count_moves_by_one (s : State) (p u : string) :
  reachable s →
  (is_ok (like_post p (LikeAction.mk u) s).1 = true →
     let s' := (like_post p (LikeAction.mk u) s).2 in
     (∃ out, get_post p s = Ok out ∧
             get_post p s' = Ok (with_like_count (S (PostOut.like_count out)) out)) ∧
     (∀ q, q ≠ p → get_post q s' = get_post q s)) ∧
  (is_ok (unlike_post p u s).1 = true →
     let s' := (unlike_post p u s).2 in
     (∃ out, get_post p s' = Ok out ∧
             get_post p s = Ok (with_like_count (S (PostOut.like_count out)) out)) ∧
     (∀ q, q ≠ p → get_post q s' = get_post q s)).
Proof.
  intros [log Hinv%reachable_with_store_inv]. split.
  - intros Hok s'. destruct (like_post_ok_inv _ _ _ Hok) as ([post Hp] & _ & Hnin).
    cbn in Hnin.
    assert (∀ q, likers_of s' q =
                 if decide (q = p) then likers_of s p ∪ {[u]} else likers_of s q)
      as Hlikers by (intros q; by apply (like_post_likers p (LikeAction.mk u))).
    subst s'. rewrite (like_post_ok_state _ _ _ Hok) in *.
    set (s' := with_likes _ _) in *.
    assert (store_inv log s') as Hinv' by by apply store_inv_likes.
    split.
    + eexists. split; [by apply (get_post_found log)|].
      rewrite (get_post_found log s' p post) by done.
      rewrite Hlikers, decide_True by done. unfold with_like_count. cbn.
      rewrite size_union by set_solver. rewrite size_singleton.
      by rewrite Nat.add_1_r.
    + intros q Hq. unfold get_post. change (posts s') with (posts s).
      destruct (OrderedDict.get q (posts s)) as [post'|] eqn:Hq'; [|done].
      destruct (inv_post _ _ Hinv _ _ Hq') as (Hid & _ & _).
      unfold _build_post_out. rewrite Hid, Hlikers, decide_False by done. done.
  - intros Hok s'. destruct (unlike_post_ok_state _ _ _ Hok) as [Hstate Hin].
    assert (∀ q, likers_of s' q =
                 if decide (q = p) then likers_of s p ∖ {[u]} else likers_of s q)
      as Hlikers by (intros q; by apply unlike_post_likers).
    assert (is_Some (OrderedDict.get p (posts s))) as [post Hp].
    { revert Hok. unfold unlike_post. destruct (OrderedDict.get p (posts s)); [eauto|done]. }
    subst s'. rewrite Hstate in *. set (s' := with_likes _ _) in *.
    assert (store_inv log s') as Hinv' by by apply store_inv_likes.
    split.
    + eexists. split; [by apply (get_post_found log s' p post)|].
      rewrite (get_post_found log s p post) by done.
      rewrite Hlikers, decide_True by done. unfold with_like_count. cbn.
      do 2 f_equal.
      rewrite (union_difference_singleton_L u (likers_of s p)) at 1 by done.
      rewrite size_union by set_solver. by rewrite size_singleton.
    + intros q Hq. unfold get_post. change (posts s') with (posts s).
      destruct (OrderedDict.get q (posts s)) as [post'|] eqn:Hq'; [|done].
      destruct (inv_post _ _ Hinv _ _ Hq') as (Hid & _ & _).
      unfold _build_post_out. rewrite Hid, Hlikers, decide_False by done. done.
Qed.

Lemma like_count_moves_by_one_witness :
  let s := run bob_posts reset_storage in
  let s' := (like_post "id-post" (LikeAction.mk "id-alice") s).2 in
  ∃ out, get_post "id-post" s = Ok out ∧ PostOut.like_count out = 0 ∧
         get_post "id-post" s' = Ok (with_like_count 1 out).
Proof.
  intros s s'.
  assert (reachable s) as Hr by (apply reachable_run; by_computation).
  destruct (like_count_moves_by_one s "id-post" "id-alice" Hr) as [Hlike _].
  destruct Hlike as [(out & Hget & Hget') _]; [vm_compute; reflexivity|].
  exists out.
  assert (PostOut.like_count out = 0) as Hzero.
  { assert (get_post "id-post" s =
            Ok (PostOut.mk "id-post" "id-bob" "https://cdn.example/1.jpg" image
                  "Hello #world" ["world"] "2024-01-01T10:05:00" 0 0)) as Hval
      by (vm_compute; reflexivity).
    rewrite Hget in Hval. by injection Hval as ->. }
  split_and!; [exact Hget|exact Hzero|]. rewrite <- Hzero. exact Hget'.
Defined.

Lemma length_list_remove_first x l :
  x ∈ l → S (length (list_remove_first x l)) = length l.
Proof.
  induction l as [|y l IH]; [by intros ?%elem_of_nil|]. cbn.
  case_decide; [done|]. intros [?|Hin]%elem_of_cons; [congruence|].
  cbn. by rewrite IH.
Qed.

(** X8. Comment counts: in a reachable store a successful add_comment raises
    the comment_count that get_post reports for the parent post by exactly
    one, and a successful delete_comment lowers the comment_count of the
    comment's parent post by exactly one; nothing else in that response
    changes. *)
Theorem comment_count_moves_by_one (s : State) :
  reachable s →
  (∀ cid now p payload,
     is_ok (add_comment cid now p payload s).1 = true →
     let s' := (add_comment cid now p payload s).2 in
     ∃ out, get_post p s = Ok out ∧
            get_post p s' = Ok (with_comment_count (S (PostOut.comment_count out)) out)) ∧
  (∀ cid comment,
     comments s !! cid = Some comment →
     let p := Comment.post_id comment in
     let s' := (delete_comment cid s).2 in
     (delete_comment cid s).1 = Ok "Comment deleted" ∧
     ∃ out, get_post p s' = Ok out ∧
            get_post p s = Ok (with_comment_count (S (PostOut.comment_count out)) out)).
Proof.
  intros [log Hinv%reachable_with_store_inv]. split.
  - intros cid now p payload Hok s'.
    destruct (add_comment_ok_state _ _ _ _ _ Hok) as [Hstate [post Hp]].
    destruct (inv_post _ _ Hinv _ _ Hp) as (Hid & _ & _).
    subst s'. rewrite Hstate. cbn [snd]. unfold get_post. simpl_store. rewrite Hp.
    eexists. split; [done|]. unfold _build_post_out, with_comment_count. cbn.
    do 2 f_equal. rewrite Hid. unfold comment_ids_of. simpl_store.
    rewrite lookup_alter_eq, lookup_gsetdefault, decide_True by done. cbn.
    rewrite length_app. cbn. by rewrite Nat.add_1_r.
  - intros cid comment Hc p s'. subst p. set (p := Comment.post_id comment) in *.
    destruct (inv_comment _ _ Hinv _ _ Hc) as (_ & Hlog & [post Hp]). fold p in Hp.
    destruct (inv_post _ _ Hinv _ _ Hp) as (Hid & _ & _).
    assert (cid ∈ comment_ids_of s p) as Hin.
    { rewrite (store_inv_comment_ids _ _ _ Hinv) by eauto.
      apply list_elem_of_filter. split; [|done]. apply is_comment_of_spec. eauto. }
    split; [unfold delete_comment; by rewrite Hc|].
    assert (comment_ids_of s' p = list_remove_first cid (comment_ids_of s p)) as Hids.
    { subst s'. rewrite (delete_comment_found _ _ _ _ Hc). by rewrite decide_True. }
    assert (posts s' = posts s ∧ likes s' = likes s) as [Hposts Hlikes].
    { subst s'. unfold delete_comment. rewrite Hc. by case_decide. }
    unfold get_post. rewrite Hposts, Hp.
    eexists. split; [done|]. unfold _build_post_out, with_comment_count. cbn.
    do 2 f_equal.
    + unfold likers_of. by rewrite Hlikes.
    + rewrite Hid, Hids. by rewrite length_list_remove_first.
Qed.

Lemma comment_count_moves_by_one_witness :
  let s := run bob_answers reset_storage in
  let s' := (delete_comment "id-comment" s).2 in
  ∃ out, get_post "id-post" s' = Ok out ∧
         get_post "id-post" s = Ok (with_comment_count (S (PostOut.comment_count out)) out).
Proof.
  intros s s'.
  assert (reachable s) as Hr by (apply reachable_run; by_computation).
  destruct (comment_count_moves_by_one s Hr) as [_ Hdel].
  destruct (Hdel "id-comment"
              (Comment.mk "id-comment" "id-alice" "id-post" "Nice shot!"
                 "2024-01-01T10:06:00")) as [_ Hout]; [vm_compute; reflexivity|].
  exact Hout.
Defined.

Lemma get_user_found s u user :
  refs_inv s → users s !! u = Some user →
  get_user u s =
    Ok (UserOut.mk u (User.username user) (User.display_name user) (User.bio user)
          (User.profile_pic_url user) (User.created_at user)
          (size (followers_of s u)) (size (following_of s u))
          (length (filter (λ p, Post.user_id p = u) (OrderedDict.values (posts s))))).
Proof.
  intros Hrefs Hu. unfold get_user, _build_user_out. rewrite Hu.
  by destruct (ref_user _ Hrefs _ _ Hu) as (-> & _ & _).
Qed.

Lemma size_add_new (X : gset string) x : x ∉ X → size (X ∪ {[x]}) = S (size X).
Proof.
  intros Hx. rewrite size_union; [|set_solver]. rewrite size_singleton. lia.
Qed.

Lemma size_discard_old (X : gset string) x : x ∈ X → S (size (X ∖ {[x]})) = size X.
Proof.
  intros Hx. rewrite <- (size_add_new (X ∖ {[x]}) x) by set_solver.
  f_equal. apply set_eq. intros y. rewrite elem_of_union, elem_of_difference,
    elem_of_singleton. destruct (decide (y = x)) as [->|]; tauto.
Qed.

(** X9. Follow counts: in a reachable store a successful follow(a,b) raises
    a's following_count and b's follower_count, as get_user reports them, by
    exactly one, and a successful unfollow(a,b) lowers both by exactly one;
    nothing else in the two profiles changes and every other profile stays
    the same. *)
Theorem follow_counts_move_by_one (s : State) (a b : string) :
  reachable s →
  (is_ok (follow_user a b s).1 = true →
     let s' := (follow_user a b s).2 in
     (∃ out, get_user a s = Ok out ∧
        get_user a s' = Ok (with_following_count (S (UserOut.following_count out)) out)) ∧
     (∃ out, get_user b s = Ok out ∧
        get_user b s' = Ok (with_follower_count (S (UserOut.follower_count out)) out)) ∧
     (∀ c, c ≠ a → c ≠ b → get_user c s' = get_user c s)) ∧
  (is_ok (unfollow_user a b s).1 = true →
     let s' := (unfollow_user a b s).2 in
     (∃ out, get_user a s' = Ok out ∧
        get_user a s = Ok (with_following_count (S (UserOut.following_count out)) out)) ∧
     (∃ out, get_user b s' = Ok out ∧
        get_user b s = Ok (with_follower_count (S (UserOut.follower_count out)) out)) ∧
     (∀ c, c ≠ a → c ≠ b → get_user c s' = get_user c s)).
Proof.
  intros Hr. pose proof (reachable_refs_inv _ Hr) as Hrefs.
  pose proof (reachable_follow_symmetric _ Hr) as Hsym.
  pose proof (reachable_no_self_follow _ Hr) as Hself.
  assert (∀ req, refs_inv (handle req s).2) as Hrefs' by (intros; by apply handle_refs_inv).
  split.
  - intros Hok s'.
    destruct (follow_user_ok_inv _ _ _ Hok) as (Hne & [ua Ha] & [ub Hb] & Hnin).
    assert (a ∉ followers_of s b) as Hnin' by (by intros ?%Hsym).
    specialize (Hrefs' (POST_follow a b)). cbn [handle] in Hrefs'.
    unfold respond in Hrefs'. cbn [snd] in Hrefs'. fold s' in Hrefs'.
    assert (users s' = users s ∧ posts s' = posts s) as [Hus Hps].
    { subst s'. by rewrite (follow_user_ok_state _ _ _ Hok). }
    assert (∀ c, following_of s' c =
              if decide (c = a) then following_of s a ∪ {[b]} else following_of s c)
      as Hing by (intros; by apply follow_user_following).
    assert (∀ c, followers_of s' c =
              if decide (c = b) then followers_of s b ∪ {[a]} else followers_of s c)
      as Hers by (intros; by apply follow_user_followers).
    split_and!.
    + eexists. split; [by apply get_user_found|].
      rewrite (get_user_found s' a ua) by (by rewrite ?Hus).
      rewrite Hing, Hers, Hps.
      rewrite (decide_True (P := a = a)), (decide_False (P := a = b)) by done.
      unfold with_following_count. cbn. by rewrite size_add_new.
    + eexists. split; [by apply get_user_found|].
      rewrite (get_user_found s' b ub) by (by rewrite ?Hus).
      rewrite Hing, Hers, Hps.
      rewrite (decide_True (P := b = b)), (decide_False (P := b = a)) by done.
      unfold with_follower_count. cbn. by rewrite size_add_new.
    + intros c Hca Hcb. unfold get_user. rewrite Hus.
      destruct (users s !! c) as [uc|] eqn:Hc; [|done].
      destruct (ref_user _ Hrefs _ _ Hc) as (Hid & _ & _).
      unfold _build_user_out. rewrite Hid, Hing, Hers, Hps, !decide_False by done. done.
  - intros Hok s'. destruct (unfollow_user_ok_state _ _ _ Hok) as [Hstate Hin].
    assert (a ∈ followers_of s b) as Hin' by (by apply Hsym).
    assert (a ≠ b) as Hne by (intros ->; by apply (Hself b)).
    destruct (ref_follow _ Hrefs _ _ Hin) as [[ua Ha] [ub Hb]].
    specialize (Hrefs' (DELETE_follow a b)). cbn [handle] in Hrefs'.
    unfold respond in Hrefs'. cbn [snd] in Hrefs'. fold s' in Hrefs'.
    assert (users s' = users s ∧ posts s' = posts s) as [Hus Hps].
    { subst s'. by rewrite Hstate. }
    assert (∀ c, following_of s' c =
              if decide (c = a) then following_of s a ∖ {[b]} else following_of s c)
      as Hing by (intros; by apply unfollow_user_following).
    assert (∀ c, followers_of s' c =
              if decide (c = b) then followers_of s b ∖ {[a]} else followers_of s c)
      as Hers by (intros; by apply unfollow_user_followers).
    split_and!.
    + eexists. split; [apply (get_user_found s' a ua); by rewrite ?Hus|].
      rewrite (get_user_found s a ua) by done.
      rewrite Hing, Hers, Hps.
      rewrite (decide_True (P := a = a)), (decide_False (P := a = b)) by done.
      unfold with_following_count. cbn. by rewrite size_discard_old.
    + eexists. split; [apply (get_user_found s' b ub); by rewrite ?Hus|].
      rewrite (get_user_found s b ub) by done.
      rewrite Hing, Hers, Hps.
      rewrite (decide_True (P := b = b)), (decide_False (P := b = a)) by done.
      unfold with_follower_count. cbn. by rewrite size_discard_old.
    + intros c Hca Hcb. unfold get_user. rewrite Hus.
      destruct (users s !! c) as [uc|] eqn:Hc; [|done].
      destruct (ref_user _ Hrefs _ _ Hc) as (Hid & _ & _).
      unfold _build_user_out. rewrite Hid, Hing, Hers, Hps, !decide_False by done. done.
Qed.

Lemma follow_counts_move_by_one_witness :
  let s := run two_users reset_storage in
  let s' := (follow_user "id-alice" "id-bob" s).2 in
  (∃ out, get_user "id-alice" s = Ok out ∧
     get_user "id-alice" s' =
       Ok (with_following_count (S (UserOut.following_count out)) out)) ∧
  (∃ out, get_user "id-bob" s = Ok out ∧
     get_user "id-bob" s' =
       Ok (with_follower_count (S (UserOut.follower_count out)) out)).
Proof.
  intros s s'.
  assert (reachable s) as Hr by (apply reachable_run; by_computation).
  destruct (follow_counts_move_by_one s "id-alice" "id-bob" Hr) as [Hfollow _].
  destruct Hfollow as (Ha & Hb & _); [vm_compute; reflexivity|].
  split; [exact Ha|exact Hb].
Defined.

(** ** Doing and undoing *)

Lemma alter_discard_add (d : gmap string (gset string)) k x :
  is_Some (d !! k) → x ∉ default ∅ (d !! k) →
  alter (λ X, X ∖ {[x]}) k (alter (λ X, X ∪ {[x]}) k (gsetdefault k ∅ d)) = d.
Proof.
  intros [X HX] Hx. rewrite HX in Hx. cbn in Hx. apply map_eq. intros k'.
  destruct (decide (k = k')) as [<-|Hne].
  - rewrite !lookup_alter_eq, lookup_gsetdefault, decide_True, HX by done. cbn.
    f_equal. apply set_eq. intros y.
    rewrite elem_of_difference, elem_of_union, elem_of_singleton.
    destruct (decide (y = x)) as [->|]; tauto.
  - by rewrite !lookup_alter_ne, lookup_gsetdefault, decide_False by done.
Qed.

(** X10. Follow, then unfollow: in a reachable store, when follow(a,b)
    succeeds, unfollow(a,b) right after it succeeds as well and the store is
    again exactly the one before the follow. *)
Theorem follow_then_unfollow_restores (s : State) (a b : string) :
  reachable s → is_ok (follow_user a b s).1 = true →
  unfollow_user a b (follow_user a b s).2 = (Ok "Unfollowed successfully", s).
Proof.
  intros Hr Hok. pose proof (reachable_refs_inv _ Hr) as Hrefs.
  pose proof (reachable_follow_symmetric _ Hr) as Hsym.
  destruct (follow_user_ok_inv _ _ _ Hok) as (Hne & [ua Ha] & [ub Hb] & Hnin).
  assert (a ∉ followers_of s b) as Hnin' by (by intros ?%Hsym).
  destruct (ref_user _ Hrefs _ _ Ha) as (_ & Hka & _).
  destruct (ref_user _ Hrefs _ _ Hb) as (_ & _ & Hkb).
  assert (b ∈ following_of (follow_user a b s).2 a) as Hin.
  { rewrite follow_user_following, decide_True by done. set_solver. }
  rewrite (follow_user_ok_state _ _ _ Hok) in *.
  unfold unfollow_user. simpl_store. rewrite Ha, Hb, decide_True by done.
  f_equal. rewrite !alter_discard_add by done. by destruct s.
Qed.

Lemma follow_then_unfollow_restores_witness :
  let s := run two_users reset_storage in
  unfollow_user "id-alice" "id-bob" (follow_user "id-alice" "id-bob" s).2 =
    (Ok "Unfollowed successfully", s).
Proof.
  intros s. apply follow_then_unfollow_restores; [|vm_compute; reflexivity].
  apply reachable_run. by_computation.
Defined.

(** X11. Like, then unlike: in a reachable store, when like(u,p) succeeds,
    unlike(u,p) right after it succeeds as well and the store is again
    exactly the one before the like. *)
Theorem like_then_unlike_restores (s : State) (p : string) (payload : LikeAction.t) :
  reachable s → is_ok (like_post p payload s).1 = true →
  unlike_post p (LikeAction.user_id payload) (like_post p payload s).2 =
    (Ok "Post unliked", s).
Proof.
  intros Hr Hok. pose proof (reachable_refs_inv _ Hr) as Hrefs.
  destruct (like_post_ok_inv _ _ _ Hok) as ([post Hp] & _ & Hnin).
  assert (is_Some (likes s !! p)) as Hk by (apply (ref_likes _ Hrefs); eauto).
  assert (LikeAction.user_id payload ∈ likers_of (like_post p payload s).2 p) as Hin.
  { rewrite like_post_likers, decide_True by done. set_solver. }
  rewrite (like_post_ok_state _ _ _ Hok) in *.
  unfold unlike_post. simpl_store. rewrite Hp, decide_True by done.
  f_equal. rewrite alter_discard_add by done. by destruct s.
Qed.

Lemma like_then_unlike_restores_witness :
  let s := run bob_posts reset_storage in
  unlike_post "id-post" "id-alice"
    (like_post "id-post" (LikeAction.mk "id-alice") s).2 = (Ok "Post unliked", s).
Proof.
  intros s.
  apply (like_then_unlike_restores s "id-post" (LikeAction.mk "id-alice"));
    [|vm_compute; reflexivity].
  apply reachable_run. by_computation.
Defined.

Lemma list_remove_first_snoc x l : x ∉ l → list_remove_first x (l ++ [x]) = l.
Proof.
  induction l as [|y l IH]; cbn.
  - intros _. by rewrite decide_True.
  - intros [? ?]%not_elem_of_cons. rewrite decide_False by done. by rewrite IH.
Qed.

(** X12. Comment, then delete it: in a reachable store, when add_comment
    succeeds with an identifier uuid4 has not issued before, delete_comment
    on that identifier right after it succeeds and the store is again exactly
    the one before the comment. *)
Theorem add_then_delete_comment_restores
    (log : list string) (s : State) (cid now p : string) (payload : CommentCreate.t) :
  reachable_with log s → cid ∉ log →
  is_ok (add_comment cid now p payload s).1 = true →
  delete_comment cid (add_comment cid now p payload s).2 = (Ok "Comment deleted", s).
Proof.
  intros Hinv%reachable_with_store_inv Hcid Hok.
  destruct (add_comment_ok_state _ _ _ _ _ Hok) as [-> [post Hp]]. cbn [snd].
  assert (comments s !! cid = None) as Hnew.
  { destruct (comments s !! cid) eqn:E; [|done].
    by destruct (inv_comment _ _ Hinv _ _ E) as (_ & ? & _). }
  destruct (inv_post _ _ Hinv _ _ Hp) as (_ & _ & [l Hl]).
  assert (cid ∉ l) as Hnl.
  { destruct (inv_post_comments _ _ Hinv _ _ Hl) as [_ ->].
    by intros [_ ?]%list_elem_of_filter. }
  unfold delete_comment, comment_ids_of. simpl_store.
  rewrite lookup_insert_eq. cbn [Comment.post_id].
  rewrite lookup_alter_eq, lookup_gsetdefault, (decide_True (P := p = p)), Hl by done.
  cbn [fmap option_fmap option_map default].
  rewrite decide_True by (apply elem_of_app; right; by left).
  f_equal. simpl_store.
  assert (alter (list_remove_first cid) p
            (alter (λ l0, (l0 ++ [cid])%list) p (gsetdefault p [] (post_comments s))) =
          post_comments s) as ->.
  { apply map_eq. intros k. destruct (decide (p = k)) as [<-|Hne].
    - rewrite !lookup_alter_eq, lookup_gsetdefault, decide_True, Hl by done. cbn.
      by rewrite list_remove_first_snoc.
    - by rewrite !lookup_alter_ne, lookup_gsetdefault, decide_False by done. }
  rewrite delete_insert_eq, delete_id by done. by destruct s.
Qed.

Lemma add_then_delete_comment_restores_witness :
  let s := run bob_posts reset_storage in
  delete_comment "id-comment"
    (add_comment "id-comment" "2024-01-01T10:06:00" "id-post" nice_shot s).2 =
    (Ok "Comment deleted", s).
Proof.
  intros s.
  apply (add_then_delete_comment_restores ["id-alice"; "id-bob"; "id-post"]).
  - apply (reachable_with_run bob_posts [] reset_storage); [constructor|].
    by_computation.
  - by_computation.
  - vm_compute; reflexivity.
Defined.

(** X13. A deleted post is gone for every route: once delete_post(p) has
    succeeded, on any store, fetching p, deleting it again, liking or
    unliking it, commenting on it, and listing its comments or its likers all
    raise 404 "Post not found". *)
Theorem deleted_post_is_not_found (s : State) (p : string) :
  is_ok (delete_post p s).1 = true →
  let s' := (delete_post p s).2 in
  get_post p s' = HTTPException 404 "Post not found" ∧
  delete_post p s' = (HTTPException 404 "Post not found", s') ∧
  (∀ payload, like_post p payload s' = (HTTPException 404 "Post not found", s')) ∧
  (∀ u, unlike_post p u s' = (HTTPException 404 "Post not found", s')) ∧
  (∀ cid now payload,
     add_comment cid now p payload s' = (HTTPException 404 "Post not found", s')) ∧
  get_comments p s' = HTTPException 404 "Post not found" ∧
  get_post_likes p s' = HTTPException 404 "Post not found".
Proof.
  intros Hok s'.
  assert (OrderedDict.get p (posts s') = None) as Hgone.
  { subst s'. revert Hok. unfold delete_post.
    destruct (OrderedDict.get p (posts s)); [|done]. intros _. cbn [snd]. simpl_store.
    by rewrite get_del, decide_True. }
  unfold get_post, delete_post, like_post, unlike_post, add_comment, get_comments,
    get_post_likes. by rewrite Hgone.
Qed.

Lemma deleted_post_is_not_found_witness :
  let s' := (delete_post "id-post" (run alice_reacts reset_storage)).2 in
  get_post "id-post" s' = HTTPException 404 "Post not found" ∧
  unlike_post "id-post" "id-alice" s' = (HTTPException 404 "Post not found", s').
Proof.
  intros s'.
  destruct (deleted_post_is_not_found (run alice_reacts reset_storage) "id-post")
    as (Hget & _ & _ & Hunlike & _); [vm_compute; reflexivity|].
  split; [exact Hget|apply Hunlike].
Defined.

(** ** Explore *)

Lemma newest_first_take_drop_sorted (l : list Post.t) n :
  ∀ p q, p ∈ take n (newest_first l) → q ∈ drop n (newest_first l) → newer_eq p q.
Proof.
  pose proof (newest_first_sorted l) as Hs.
  rewrite <- (take_drop n (newest_first l)) in Hs.
  by apply StronglySorted_app in Hs as (Hcross & _ & _).
Qed.

(** X14. Recent posts: for a limit between 1 and 100, explore_recent returns
    min(limit, number of posts) posts, newest first, and they are the newest
    ones: the stored posts split into the ones shown and a rest none of which
    is newer than any post shown; a smaller limit returns a prefix of what a
    larger limit returns; a limit of 0 or above 100 is rejected. *)
Theorem explore_recent_window (s : State) (limit : nat) :
  (1 ≤ limit ≤ 100 →
     ∃ shown rest,
       explore_recent limit s = Ok ((λ p, _build_post_out p s) <$> shown) ∧
       length shown = limit `min` length (posts s) ∧
       StronglySorted newer_eq shown ∧
       shown ++ rest ≡ₚ OrderedDict.values (posts s) ∧
       (∀ p q, p ∈ shown → q ∈ rest → newer_eq p q))%nat ∧
  (∀ larger shown shown',
     (1 ≤ limit ≤ larger)%nat → (larger ≤ 100)%nat →
     explore_recent limit s = Ok shown → explore_recent larger s = Ok shown' →
     shown = take limit shown') ∧
  ((limit = 0 ∨ 100 < limit)%nat → explore_recent limit s = RequestValidationError).
Proof.
  split_and!.
  - intros [Hlo Hhi]. unfold explore_recent.
    rewrite (proj2 (Nat.leb_le 1 limit)), (proj2 (Nat.leb_le limit 100)) by done.
    cbn [andb].
    exists (take limit (newest_first (OrderedDict.values (posts s)))),
           (drop limit (newest_first (OrderedDict.values (posts s)))).
    split_and!; [done| | | |].
    + rewrite length_take, newest_first_Permutation.
      unfold OrderedDict.values. by rewrite length_fmap.
    + pose proof (newest_first_sorted (OrderedDict.values (posts s))) as Hs.
      rewrite <- (take_drop limit) in Hs. by apply StronglySorted_app in Hs as (_ & ? & _).
    + by rewrite take_drop, newest_first_Permutation.
    + apply newest_first_take_drop_sorted.
  - intros larger shown shown' [Hlo Hle] Hhi. unfold explore_recent.
    rewrite (proj2 (Nat.leb_le 1 limit)), (proj2 (Nat.leb_le limit 100)) by lia.
    rewrite (proj2 (Nat.leb_le 1 larger)), (proj2 (Nat.leb_le larger 100)) by lia.
    cbn [andb]. intros [= <-] [= <-].
    rewrite <- !fmap_take, take_take. by rewrite Nat.min_l.
  - intros Hout. unfold explore_recent.
    destruct Hout as [->|Hbig]; [done|].
    rewrite (proj2 (Nat.leb_gt limit 100)) by done. by rewrite andb_false_r.
Qed.

Lemma explore_recent_window_witness :
  let s := run both_post reset_storage in
  (∃ outs, explore_recent 1 s = Ok outs ∧ PostOut.id <$> outs = ["id-p1"]) ∧
  explore_recent 0 s = RequestValidationError ∧
  explore_recent 101 s = RequestValidationError.
Proof.
  intros s.
  destruct (explore_recent_window s 1) as ((shown & rest & Hget & _) & _ & _); [lia|].
  destruct (explore_recent_window s 0) as (_ & _ & Hzero).
  destruct (explore_recent_window s 101) as (_ & _ & Hbig).
  split_and!.
  - eexists. split; vm_compute; reflexivity.
  - apply Hzero. by left.
  - apply Hbig. right. lia.
Defined.

Lemma omap_get_ids log s (l : list Post.t) :
  store_inv log s → (∀ p, p ∈ l → p ∈ OrderedDict.values (posts s)) →
  omap (λ pid, OrderedDict.get pid (posts s)) (Post.id <$> l) = l.
Proof.
  intros Hinv. induction l as [|p l IH]; intros Hl; [done|]. csimpl.
  rewrite (proj1 (store_inv_values _ _ p Hinv)) by (apply Hl; left). cbn.
  f_equal. apply IH. intros q Hq. apply Hl. by right.
Qed.

(** X15. Posts by hashtag: the lookup depends on the tag only up to case
    (the input is lowercased first), and a tag that is not in the index gives
    the empty list, never an error; in a reachable store the result is
    exactly the stored posts that carry the lowercased tag in their hashtag
    list, each once, newest first. *)
Theorem explore_by_hashtag_finds_tagged (s : State) (tag : string) :
  (∀ tag', Text.lower tag' = Text.lower tag →
     explore_by_hashtag tag' s = explore_by_hashtag tag s) ∧
  explore_by_hashtag (Text.lower tag) s = explore_by_hashtag tag s ∧
  (OrderedDict.get (Text.lower tag) (hashtag_posts s) = None →
     explore_by_hashtag tag s = []) ∧
  (reachable s →
     ∃ found,
       explore_by_hashtag tag s = (λ p, _build_post_out p s) <$> found ∧
       found ≡ₚ posts_tagged s (Text.lower tag) ∧
       NoDup (Post.id <$> found) ∧
       StronglySorted newer_eq found).
Proof.
  split_and!.
  - intros tag' Heq. unfold explore_by_hashtag. by rewrite Heq.
  - unfold explore_by_hashtag. by rewrite lower_idem.
  - intros Hnone. unfold explore_by_hashtag, posts_for_tag. rewrite Hnone. cbn.
    by rewrite elements_empty.
  - intros [log Hinv%reachable_with_store_inv]. unfold explore_by_hashtag.
    destruct (store_inv_tag_set _ _ (Text.lower tag) Hinv) as [Hset Hnd].
    assert (omap (λ pid, OrderedDict.get pid (posts s))
              (elements (posts_for_tag s (Text.lower tag)))
            ≡ₚ posts_tagged s (Text.lower tag)) as Hperm.
    { rewrite Hset, elements_list_to_set by done.
      rewrite (omap_get_ids log); [done..|].
      intros p [_ ?]%list_elem_of_filter. done. }
    eexists. split_and!; [done| | |apply newest_first_sorted].
    + by rewrite newest_first_Permutation.
    + by rewrite newest_first_Permutation, Hperm.
Qed.

Lemma explore_by_hashtag_finds_tagged_witness :
  let s := run both_post reset_storage in
  (∃ found, explore_by_hashtag "WORLD" s = (λ p, _build_post_out p s) <$> found ∧
            found ≡ₚ posts_tagged s "world") ∧
  explore_by_hashtag "nothing" s = [].
Proof.
  intros s.
  assert (reachable s) as Hr by (apply reachable_run; by_computation).
  destruct (explore_by_hashtag_finds_tagged s "WORLD") as (_ & _ & _ & Hfound).
  destruct (explore_by_hashtag_finds_tagged s "nothing") as (_ & _ & Hnone & _).
  split.
  - destruct (Hfound Hr) as (found & Hget & Hperm & _). exists found. by split.
  - apply Hnone. vm_compute; reflexivity.
Defined.

(** ** Hashtags *)

Lemma word_prefix_all_word s : all_word_chars (Text.word_prefix s) = true.
Proof.
  induction s as [|c s IH]; [done|]. cbn.
  destruct (Text.is_word_char c) eqn:E; [|done]. cbn. by rewrite E.
Qed.

Lemma findall_words s : Forall is_tag_word (Text.findall s).
Proof.
  induction s as [|c s IH]; [constructor|]. cbn.
  destruct (Ascii.eqb c "#"); [|done].
  destruct (Text.word_prefix s) as [|c' w] eqn:E; [done|].
  constructor; [|done]. split; [done|]. rewrite <- E. apply word_prefix_all_word.
Qed.

Lemma findall_no_hash s :
  "#"%char ∉ list_ascii_of_string s → Text.findall s = [].
Proof.
  induction s as [|c s IH]; [done|]. cbn. rewrite not_elem_of_cons. intros [Hc Hs].
  destruct (Ascii.eqb_spec c "#"); [congruence|]. by apply IH.
Qed.

Lemma is_word_char_lower c :
  Text.is_word_char (Text.lower_char c) = Text.is_word_char c.
Proof. destruct c as [[] [] [] [] [] [] [] []]; vm_compute; reflexivity. Qed.

Lemma lower_tag_word w : is_tag_word w → is_tag_word (Text.lower w).
Proof.
  intros [Hne Hall]. split.
  - by destruct w.
  - clear Hne. induction w as [|c w IH]; [done|]. cbn in *.
    apply andb_true_iff in Hall as [Hc Hw]. by rewrite is_word_char_lower, Hc, IH.
Qed.

Lemma hash_not_word w : all_word_chars w = true → "#"%char ∉ list_ascii_of_string w.
Proof.
  induction w as [|c w IH]; cbn; [intros _; apply not_elem_of_nil|].
  intros [Hc Hw]%andb_true_iff. apply not_elem_of_cons. split; [|by apply IH].
  intros <-. by vm_compute in Hc.
Qed.

(** X16. Stored hashtags are well-formed, for captions within the range of
    this embedding (every character a code point below 256, which str.lower
    maps one to one): every hashtag create_post returns (and stores) for
    such a caption is a non-empty string of word characters, holds no "#",
    and is already in lower case; a caption without "#" yields no hashtag at
    all; and there are exactly as many hashtags as the regex has matches in
    the caption.  Nothing is said about captions with characters from
    U+0100 on, where str.lower can turn one character into two. *)
Theorem stored_hashtags_are_words
    (s : State) (pid now : string) (payload : PostCreate.t) (out : PostOut.t) :
  (create_post pid now payload s).1 = Ok out →
  Forall (λ tag, is_tag_word tag ∧ Text.lower tag = tag ∧
                 "#"%char ∉ list_ascii_of_string tag) (PostOut.hashtags out) ∧
  length (PostOut.hashtags out) = length (Text.findall (PostCreate.caption payload)) ∧
  ("#"%char ∉ list_ascii_of_string (PostCreate.caption payload) →
   PostOut.hashtags out = []).
Proof.
  unfold create_post. destruct (users s !! _); [|done]. cbn [fst]. intros [= <-].
  cbn [PostOut.hashtags _build_post_out Post.hashtags]. split_and!.
  - apply Forall_fmap. eapply Forall_impl; [apply findall_words|].
    intros w Hw. cbn. pose proof (lower_tag_word _ Hw) as Hl.
    split_and!; [done|apply lower_idem|]. apply hash_not_word, Hl.
  - by rewrite length_fmap.
  - intros Hno. by rewrite findall_no_hash.
Qed.

Lemma stored_hashtags_are_words_witness :
  let s := run two_users reset_storage in
  ∃ out, (create_post "id-p" "2024-02-01T00:00:00"
            (PostCreate.mk "id-bob" "m" image "##Sun_Set#2024 # #x!") s).1 = Ok out ∧
         PostOut.hashtags out = ["sun_set"; "2024"; "x"] ∧
         Forall (λ tag, Text.lower tag = tag) (PostOut.hashtags out).
Proof.
  intros s. eexists. split; [vm_compute; reflexivity|]. split; [vm_compute; reflexivity|].
  eapply Forall_impl;
    [apply (stored_hashtags_are_words s "id-p" "2024-02-01T00:00:00"
              (PostCreate.mk "id-bob" "m" image "##Sun_Set#2024 # #x!"));
     vm_compute; reflexivity|].
  by intros tag (_ & ? & _).
Defined.

(** ** Feed and follows *)

Lemma reachable_handle req s :
  reachable s → uuid4_of req = [] → reachable (handle req s).2.
Proof.
  intros [log Hr] Hnone. exists (log ++ uuid4_of req)%list.
  constructor; [done|]. rewrite Hnone. by intros id ?%elem_of_nil.
Qed.

Lemma get_feed_members s U :
  reachable s → is_Some (users s !! U) →
  ∃ feed_posts,
    get_feed U s = Ok ((λ p, _build_post_out p s) <$> feed_posts) ∧
    ∀ p, p ∈ feed_posts ↔
         OrderedDict.get (Post.id p) (posts s) = Some p ∧
         Post.user_id p ∈ following_of s U.
Proof.
  intros [log Hinv%reachable_with_store_inv] [u Hu]. unfold get_feed. rewrite Hu.
  set (mine := filter _ _).
  assert (∀ p, p ∈ mine ↔
            OrderedDict.get (Post.id p) (posts s) = Some p ∧
            Post.user_id p ∈ following_of s U) as Hmine.
  { intros p. subst mine. rewrite list_elem_of_filter.
    rewrite (store_inv_values _ _ _ Hinv). tauto. }
  case_decide as Hempty.
  - exists []. split; [done|]. intros p. rewrite <- Hmine.
    assert (mine = []) as ->; [|done].
    apply filter_none. intros q _. rewrite Hempty. set_solver.
  - exists (newest_first mine). split; [done|]. intros p.
    by rewrite newest_first_Permutation.
Qed.

(** X17. The feed follows the follow graph: in a reachable store, right
    after a successful follow(a,b) every stored post of b is in a's feed, and
    right after a successful unfollow(a,b) no post of b is in a's feed. *)
Theorem feed_tracks_follows (s : State) (a b : string) :
  reachable s →
  (is_ok (follow_user a b s).1 = true →
     let s' := (follow_user a b s).2 in
     ∃ feed, get_feed a s' = Ok feed ∧
       ∀ pid post, OrderedDict.get pid (posts s) = Some post → Post.user_id post = b →
                   _build_post_out post s' ∈ feed) ∧
  (is_ok (unfollow_user a b s).1 = true →
     let s' := (unfollow_user a b s).2 in
     ∃ feed, get_feed a s' = Ok feed ∧
       Forall (λ out, PostOut.user_id out ≠ b) feed).
Proof.
  intros Hr. split.
  - intros Hok s'.
    destruct (follow_user_ok_inv _ _ _ Hok) as (_ & Ha & _ & _).
    assert (reachable s') as Hr'.
    { apply (reachable_handle (POST_follow a b)); done. }
    assert (users s' = users s ∧ posts s' = posts s) as [Hus Hps].
    { subst s'. by rewrite (follow_user_ok_state _ _ _ Hok). }
    destruct (get_feed_members s' a Hr') as (feed_posts & Hget & Hmem);
      [by rewrite Hus|].
    eexists. split; [exact Hget|]. intros pid post Hp Hauthor.
    apply list_elem_of_fmap. exists post. split; [done|]. apply Hmem.
    destruct Hr as [log Hinv%reachable_with_store_inv].
    destruct (inv_post _ _ Hinv _ _ Hp) as (Hid & _ & _).
    rewrite Hps, Hid. split; [done|]. subst s'.
    rewrite follow_user_following, decide_True, Hauthor by done. set_solver.
  - intros Hok s'. destruct (unfollow_user_ok_state _ _ _ Hok) as [Hstate Hin].
    pose proof (reachable_refs_inv _ Hr) as Hrefs.
    destruct (ref_follow _ Hrefs _ _ Hin) as [Ha _].
    assert (reachable s') as Hr'.
    { apply (reachable_handle (DELETE_follow a b)); done. }
    assert (users s' = users s) as Hus by (subst s'; by rewrite Hstate).
    destruct (get_feed_members s' a Hr') as (feed_posts & Hget & Hmem);
      [by rewrite Hus|].
    eexists. split; [exact Hget|]. apply Forall_fmap, Forall_forall.
    intros p [_ Hp]%Hmem. cbn. intros Heq. revert Hp. subst s'.
    rewrite unfollow_user_following, decide_True, Heq by done. set_solver.
Qed.

Lemma feed_tracks_follows_witness :
  let s := run both_post reset_storage in
  let s' := (unfollow_user "id-alice" "id-bob" s).2 in
  ∃ feed, get_feed "id-alice" s' = Ok feed ∧
          Forall (λ out, PostOut.user_id out ≠ "id-bob") feed.
Proof.
  intros s s'.
  assert (reachable s) as Hr by (apply reachable_run; by_computation).
  destruct (feed_tracks_follows s "id-alice" "id-bob" Hr) as [_ Hun].
  apply Hun. vm_compute; reflexivity.
Defined.

(** ** New posts and new comments *)

(** X18. Post, then fetch: in a reachable store, when create_post succeeds
    with an identifier uuid4 has not issued before, the response carries the
    payload's fields, the lowercased hashtags and both counts 0; get_post on
    the new id returns that same response, and the post has no comments and
    no likers yet. *)
Theorem create_post_then_get_post
    (log : list string) (s : State) (pid now : string) (payload : PostCreate.t) :
  reachable_with log s → pid ∉ log →
  is_ok (create_post pid now payload s).1 = true →
  let s' := (create_post pid now payload s).2 in
  (create_post pid now payload s).1 =
    Ok (PostOut.mk pid (PostCreate.user_id payload) (PostCreate.media_url payload)
          (PostCreate.media_type payload) (PostCreate.caption payload)
          (Text.lower <$> Text.findall (PostCreate.caption payload)) now 0 0) ∧
  get_post pid s' = (create_post pid now payload s).1 ∧
  get_comments pid s' = Ok [] ∧
  get_post_likes pid s' = Ok [].
Proof.
  intros Hr Hpid Hok s'.
  assert (refs_inv s) as Hrefs by (apply reachable_refs_inv; by exists log).
  apply reachable_with_store_inv in Hr as Hinv.
  assert (OrderedDict.get pid (posts s) = None) as Hnew.
  { destruct (OrderedDict.get pid (posts s)) eqn:E; [|done].
    by destruct (inv_post _ _ Hinv _ _ E) as (_ & ? & _). }
  assert (post_comments s !! pid = None) as Hnc.
  { destruct (post_comments s !! pid) eqn:E; [|done].
    destruct (inv_post_comments _ _ Hinv _ _ E) as [[? ?] _]. congruence. }
  assert (likes s !! pid = None) as Hnl.
  { destruct (likes s !! pid) eqn:E; [|done].
    destruct (proj1 (ref_likes _ Hrefs pid)) as [? ?]; [eauto|congruence]. }
  subst s'. revert Hok. unfold create_post. destruct (users s !! _); [|done].
  intros _. cbn [fst snd].
  unfold get_post, get_comments, get_post_likes, _build_post_out, likers_of,
    comment_ids_of. simpl_store. cbn [Post.id].
  rewrite get_set, decide_True by done.
  rewrite !lookup_gsetdefault, !decide_True, Hnc, Hnl by done. cbn.
  by rewrite elements_empty.
Qed.

Lemma create_post_then_get_post_witness :
  let s := run two_users reset_storage in
  let s' := (create_post "id-post" "2024-01-01T10:05:00" hello_world s).2 in
  get_post "id-post" s' =
    Ok (PostOut.mk "id-post" "id-bob" "https://cdn.example/1.jpg" image "Hello #world"
          ["world"] "2024-01-01T10:05:00" 0 0) ∧
  get_comments "id-post" s' = Ok [].
Proof.
  intros s s'.
  destruct (create_post_then_get_post ["id-alice"; "id-bob"] s "id-post"
              "2024-01-01T10:05:00" hello_world) as (Hout & Hget & Hcs & _).
  - apply (reachable_with_run two_users [] reset_storage); [constructor|].
    by_computation.
  - by_computation.
  - vm_compute; reflexivity.
  - split; [|exact Hcs]. fold s' in Hget. rewrite Hget. exact Hout.
Defined.

Lemma omap_insert_fresh (m : gmap string Comment.t) cid cm (l : list string) :
  cid ∉ l → omap (λ c, <[cid := cm]> m !! c) l = omap (λ c, m !! c) l.
Proof.
  induction l as [|c l IH]; [done|]. intros [Hc Hl]%not_elem_of_cons. csimpl.
  rewrite lookup_insert_ne, IH by done. done.
Qed.

(** X19. A new comment is listed last: in a reachable store, when add_comment
    succeeds with an identifier uuid4 has not issued before, the comments of
    that post are the earlier ones followed by the response, and the comment
    lists of all other posts are unchanged. *)
Theorem new_comment_is_listed_last
    (log : list string) (s : State) (cid now post_id : string)
    (payload : CommentCreate.t) (out : CommentOut.t) :
  reachable_with log s → cid ∉ log →
  (add_comment cid now post_id payload s).1 = Ok out →
  let s' := (add_comment cid now post_id payload s).2 in
  (∃ outs, get_comments post_id s = Ok outs ∧
           get_comments post_id s' = Ok (outs ++ [out])%list) ∧
  (∀ p, p ≠ post_id → get_comments p s' = get_comments p s).
Proof.
  intros Hinv%reachable_with_store_inv Hcid Hout s'.
  assert (is_ok (add_comment cid now post_id payload s).1 = true) as Hok
    by (by rewrite Hout).
  destruct (add_comment_ok_state _ _ _ _ _ Hok) as [Hstate [post Hpost]].
  subst s'. rewrite Hstate in Hout |- *. cbn [fst snd] in *. simplify_eq.
  assert (comments s !! cid = None) as Hnew.
  { destruct (comments s !! cid) eqn:E; [|done].
    by destruct (inv_comment _ _ Hinv _ _ E) as (? & ? & ?). }
  assert (∀ p, cid ∉ comment_ids_of s p) as Hnotin.
  { intros p Hin. apply (store_inv_comment_ids_elem _ _ _ _ Hinv) in Hin.
    apply is_comment_of_spec in Hin as (cm & Hcm & _). congruence. }
  unfold get_comments, comment_ids_of in *. simpl_store. rewrite Hpost. split.
  - eexists. split; [done|]. f_equal.
    assert (default [] (alter (λ l, (l ++ [cid])%list) post_id
                          (gsetdefault post_id [] (post_comments s)) !! post_id)
            = (default [] (post_comments s !! post_id) ++ [cid])%list) as ->.
    { rewrite lookup_alter_eq, lookup_gsetdefault, decide_True by done. done. }
    rewrite omap_app, fmap_app. csimpl. rewrite lookup_insert_eq.
    rewrite omap_insert_fresh by apply Hnotin. done.
  - intros p Hp. destruct (OrderedDict.get p (posts s)); [|done]. f_equal.
    rewrite lookup_alter_ne, lookup_gsetdefault, decide_False by done.
    rewrite omap_insert_fresh by apply Hnotin. done.
Qed.

Lemma new_comment_is_listed_last_witness :
  let s := run alice_reacts reset_storage in
  let s' := (add_comment "id-c9" "2024-01-01T11:00:00" "id-post" thanks s).2 in
  ∃ outs, get_comments "id-post" s = Ok outs ∧
          get_comments "id-post" s' =
            Ok (outs ++ [CommentOut.mk "id-c9" "id-bob" "id-post" "Thanks!"
                           "2024-01-01T11:00:00"])%list.
Proof.
  intros s s'.
  destruct (new_comment_is_listed_last (alice_reacts ≫= uuid4_of) s "id-c9"
              "2024-01-01T11:00:00" "id-post" thanks
              (CommentOut.mk "id-c9" "id-bob" "id-post" "Thanks!"
                 "2024-01-01T11:00:00"))
    as [Hlast _].
  - apply (reachable_with_run alice_reacts [] reset_storage); [constructor|].
    by_computation.
  - by_computation.
  - vm_compute; reflexivity.
  - exact Hlast.
Defined.

(** ** A post that is created and deleted again *)

Lemma del_set_fresh {V} (d : odict V) k v :
  OrderedDict.get k d = None → OrderedDict.del k (OrderedDict.set k v d) = d.
Proof.
  unfold OrderedDict.del.
  induction d as [|[k' v'] d IH]; cbn [OrderedDict.set OrderedDict.get]; intros Hget.
  - rewrite filter_cons, decide_False by (cbn; tauto). done.
  - destruct (decide (k' = k)) as [|Hne]; [done|].
    rewrite filter_cons, decide_True by done. f_equal. by apply IH.
Qed.

Lemma delete_gsetdefault_fresh {V} (d : gmap string V) k v :
  d !! k = None → delete k (gsetdefault k v d) = d.
Proof.
  intros Hk. unfold gsetdefault. rewrite Hk. by apply delete_insert_id.
Qed.

Lemma keys_foldl_index_tag pid tags (hp : odict (gset string)) :
  ∃ new, OrderedDict.keys (foldl (index_tag pid) hp tags)
         = (OrderedDict.keys hp ++ new)%list.
Proof.
  revert hp. induction tags as [|tag tags IH]; intros hp; cbn [foldl].
  - exists []. by rewrite app_nil_r.
  - destruct (IH (index_tag pid hp tag)) as [new ->].
    unfold index_tag, OrderedDict.setdefault. rewrite keys_adjust.
    destruct (OrderedDict.get tag hp).
    + by exists new.
    + rewrite keys_set. case_decide.
      * by exists new.
      * exists (tag :: new). by rewrite <- app_assoc.
Qed.

(** Two dicts that agree on the post-set of every tag, the second one having
    only keys added at its end, have the same non-empty entries in the same
    order. *)
Lemma nonempty_items_extend (hp hp' : odict (gset string)) new :
  OrderedDict.wf hp → OrderedDict.wf hp' →
  OrderedDict.keys hp' = (OrderedDict.keys hp ++ new)%list →
  (∀ t, default ∅ (OrderedDict.get t hp') = default ∅ (OrderedDict.get t hp)) →
  filter (λ kv, kv.2 ≠ (∅ : gset string)) hp'
  = filter (λ kv, kv.2 ≠ (∅ : gset string)) hp.
Proof.
  revert hp'. induction hp as [|[k v] hp IH]; intros hp' Hwf Hwf' Hkeys Hget.
  - cbn. apply filter_none. intros [k v] Hin Hne. apply Hne. cbn.
    specialize (Hget k). by rewrite (elem_of_get _ _ _ Hwf' Hin) in Hget.
  - destruct hp' as [|[k' v'] hp']; [done|]. cbn in Hkeys. simplify_eq.
    apply NoDup_cons in Hwf as [Hk Hwf]. apply NoDup_cons in Hwf' as [Hk' Hwf'].
    pose proof (Hget k) as Hv. cbn in Hv. rewrite !decide_True in Hv by done.
    cbn in Hv. subst v'. rewrite !(filter_cons _ (k, v)). cbn.
    rewrite (IH hp'); [done..| |]; [done|].
    intros t. destruct (decide (k = t)) as [<-|Hne].
    + by rewrite !(proj2 (get_None_keys _ _)).
    + specialize (Hget t). cbn in Hget. by rewrite !decide_False in Hget by done.
Qed.

(** X20. Create a post and delete it again: in a reachable store, when
    create_post succeeds with an identifier uuid4 has not issued before,
    deleting that post succeeds and gives back the users, posts, follow
    edges, likes and comments as they were; the hashtag index gives every
    tag the post-set it had (a tag the caption introduced stays behind as a
    key with no posts), the trending list is the same as before, and every
    hashtag page holds the same posts as before (in which order a page shows
    posts of equal timestamp is not part of the statement). *)
Theorem create_then_delete_post_restores
    (log : list string) (s : State) (pid now : string) (payload : PostCreate.t) :
  reachable_with log s → pid ∉ log →
  is_ok (create_post pid now payload s).1 = true →
  let s1 := (create_post pid now payload s).2 in
  let s2 := (delete_post pid s1).2 in
  (delete_post pid s1).1 = Ok "Post deleted" ∧
  with_hashtag_posts (hashtag_posts s) s2 = s ∧
  (∀ tag, posts_for_tag s2 tag = posts_for_tag s tag) ∧
  explore_trending s2 = explore_trending s ∧
  (∀ tag, explore_by_hashtag tag s2 ≡ₚ explore_by_hashtag tag s).
Proof.
  intros Hr Hpid Hok s1 s2.
  assert (refs_inv s) as Hrefs by (apply reachable_refs_inv; by exists log).
  apply reachable_with_store_inv in Hr as Hinv.
  assert (OrderedDict.get pid (posts s) = None) as Hnew.
  { destruct (OrderedDict.get pid (posts s)) eqn:E; [|done].
    by destruct (inv_post _ _ Hinv _ _ E) as (_ & ? & _). }
  assert (post_comments s !! pid = None) as Hnc.
  { destruct (post_comments s !! pid) eqn:E; [|done].
    destruct (inv_post_comments _ _ Hinv _ _ E) as [[? ?] _]. congruence. }
  assert (likes s !! pid = None) as Hnl.
  { destruct (likes s !! pid) eqn:E; [|done].
    destruct (proj1 (ref_likes _ Hrefs pid)) as [? ?]; [eauto|congruence]. }
  assert (∀ tag, pid ∉ posts_for_tag s tag) as Hnt.
  { intros tag (post & Hpost & _)%(inv_tag_sound _ _ Hinv). congruence. }
  destruct (create_post_found _ _ _ _ Hok) as [Hpost Htags]. fold s1 in Hpost, Htags.
  set (tags := Text.lower <$> Text.findall (PostCreate.caption payload)) in *.
  assert (s1 = with_hashtag_posts (foldl (index_tag pid) (hashtag_posts s) tags)
                 (with_post_comments (gsetdefault pid [] (post_comments s))
                    (with_likes (gsetdefault pid ∅ (likes s))
                       (with_posts (OrderedDict.set pid
                          (Post.mk pid (PostCreate.user_id payload)
                             (PostCreate.media_url payload)
                             (PostCreate.media_type payload)
                             (PostCreate.caption payload) tags now) (posts s)) s))))
    as Hs1.
  { subst s1. revert Hok. unfold create_post.
    by destruct (users s !! PostCreate.user_id payload). }
  assert (comment_ids_of s1 pid = []) as Hpopped.
  { unfold comment_ids_of. rewrite Hs1. simpl_store.
    by rewrite lookup_gsetdefault, decide_True, Hnc by done. }
  subst s2. rewrite (delete_post_found _ _ _ Hpost). cbn [fst snd Post.hashtags].
  rewrite Hpopped. cbn [foldl].
  set (hp2 := foldl (deindex_tag pid) (hashtag_posts s1) tags).
  assert (∀ t, default ∅ (OrderedDict.get t hp2)
               = default ∅ (OrderedDict.get t (hashtag_posts s))) as Hget.
  { intros t. subst hp2. rewrite get_foldl_deindex_tag, Htags, get_foldl_index_tag.
    specialize (Hnt t). unfold posts_for_tag in Hnt.
    case_decide; cbn; [set_solver|].
    by destruct (OrderedDict.get t (hashtag_posts s)). }
  assert (with_hashtag_posts (hashtag_posts s)
            (with_posts (OrderedDict.del pid (posts s1))
               (with_likes (delete pid (likes s1))
                  (with_comments (comments s1)
                     (with_post_comments (delete pid (post_comments s1))
                        (with_hashtag_posts hp2 s1))))) = s) as Hrest.
  { clearbody hp2. rewrite Hs1. unfold with_hashtag_posts at 1. simpl_store.
    rewrite del_set_fresh, !delete_gsetdefault_fresh by done. by destruct s. }
  split_and!; [done|exact Hrest|exact Hget|..].
  - unfold explore_trending, OrderedDict.items. simpl_store. do 3 f_equal.
    destruct (keys_foldl_index_tag pid tags (hashtag_posts s)) as [new Hkeys].
    apply (nonempty_items_extend _ _ new); [apply Hinv| | |exact Hget].
    + subst hp2. unfold OrderedDict.wf. rewrite keys_foldl_deindex_tag, Htags.
      apply wf_foldl_index_tag, Hinv.
    + subst hp2. by rewrite keys_foldl_deindex_tag, Htags.
  - intros tag.
    match goal with |- ?page2 ≡ₚ ?page => enough (page2 = page) as -> by done end.
    unfold explore_by_hashtag, posts_for_tag. simpl_store. rewrite Hget.
    assert (posts s = OrderedDict.del pid (posts s1)) as <-.
    { by rewrite <- Hrest at 1. }
    apply (f_equal likes) in Hrest as Hl.
    apply (f_equal post_comments) in Hrest as Hc. simpl_store.
    apply list_fmap_ext. intros _ p _.
    unfold _build_post_out, likers_of, comment_ids_of. simpl_store.
    by rewrite Hl, Hc.
Qed.

Lemma create_then_delete_post_restores_witness :
  let s := run two_users reset_storage in
  let s1 := (create_post "id-post" "2024-01-01T10:05:00" hello_world s).2 in
  let s2 := (delete_post "id-post" s1).2 in
  with_hashtag_posts (hashtag_posts s) s2 = s ∧
  explore_trending s2 = explore_trending s.
Proof.
  intros s s1 s2.
  destruct (create_then_delete_post_restores ["id-alice"; "id-bob"] s "id-post"
              "2024-01-01T10:05:00" hello_world) as (_ & Hrest & _ & Htrend & _).
  - apply (reachable_with_run two_users [] reset_storage); [constructor|].
    by_computation.
  - by_computation.
  - vm_compute; reflexivity.
  - split; [exact Hrest|exact Htrend].
Defined.
